(** * Text-Rag-Pipeline: text cleaning, token-window chunking and the two sinks

    A shallow embedding of [legacy/chunk_txt_to_csv.py] (the flat-file path),
    [notebooks/upload_chunks.py] (the upload path) and
    [notebooks/token_count.py] (the token count of a directory tree), with
    the properties stated about them.

    - A Python [str] is a list of Unicode code points ([N]).
    - Python [int]s are [Z].
    - A raised exception is the [Raise] case of [Result].
    - The tokenizer ([tiktoken]), the file system, the [csv] writer's byte
      counts, the table of non-ASCII decimal digits used by [\d] and the
      remote batch client are collaborators outside the repository: they
      are parameters of the definitions that use them. *)

From Stdlib Require Import String Ascii.
From Stdlib Require Import List ZArith NArith Lia Bool Permutation.
Import ListNotations.

(* ================================================================== *)
(** * Python strings and the builtins the two scripts call *)
(* ================================================================== *)

Module Py.

(** A code point, and a [str]. *)
Definition char := N.
Definition str := list char.

(** An ASCII literal as a [str]. *)
Definition u (s : string) : str := map N_of_ascii (list_ascii_of_string s).

Definition LF : char := 10%N.     (* "\n" *)
Definition CR : char := 13%N.     (* "\r" *)
Definition FF : char := 12%N.     (* "\x0c" *)
Definition SP : char := 32%N.     (* " " *)
Definition QUOTE : char := 34%N.  (* the straight double quote *)
Definition APOS : char := 39%N.   (* "'" *)
Definition RSQUO : char := 8217%N. (* U+2019, the curly apostrophe *)
Definition LDQUO : char := 8220%N. (* U+201C *)
Definition RDQUO : char := 8221%N. (* U+201D *)

Definition between (lo hi c : N) : bool := (N.leb lo c && N.leb c hi)%bool.

(** [str.isspace] on one character, which is also what [str.strip()],
    [str.split()] and the regex class [\s] test (CPython's
    [_PyUnicode_IsWhitespace]). *)
Definition isspace (c : char) : bool :=
  (between 9 13 c || between 28 32 c || N.eqb c 133 || N.eqb c 160
   || N.eqb c 5760 || between 8192 8202 c || N.eqb c 8232 || N.eqb c 8233
   || N.eqb c 8239 || N.eqb c 8287 || N.eqb c 12288)%N%bool.

(** [bool(s)], as in [if line]: a [str] is true when it is not empty. *)
Definition truthy (s : str) : bool :=
  match s with [] => false | _ :: _ => true end.

(** [s.lstrip()], [s.rstrip()], [s.strip()]. *)
Fixpoint lstrip (s : str) : str :=
  match s with
  | c :: t => if isspace c then lstrip t else s
  | [] => []
  end.

Definition rstrip (s : str) : str := rev (lstrip (rev s)).

Definition strip (s : str) : str := rstrip (lstrip s).

(** [s.startswith(p)]. *)
Fixpoint starts_with (p s : str) : bool :=
  match p, s with
  | [], _ => true
  | a :: p', b :: s' => (N.eqb a b && starts_with p' s')%bool
  | _ :: _, [] => false
  end.

(** [needle in s]. *)
Fixpoint contains (needle s : str) : bool :=
  (starts_with needle s ||
   match s with
   | [] => false
   | _ :: t => contains needle t
   end)%bool.

(** The scan shared by [str.replace] and [re.sub]: left to right, at each
    position not inside an earlier match the matcher [m] is tried on the
    rest of the text; a match of [len >= 1] characters is replaced by
    [repl] and the scan resumes after it. [skip] counts the characters of
    the current match still to pass over. None of the patterns used in the
    scripts matches the empty string; a matcher answering [Some 0] is read
    as no match. *)
Fixpoint sub_scan (m : str -> option nat) (repl : str) (skip : nat) (s : str) : str :=
  match s with
  | [] => []
  | c :: t =>
      match skip with
      | S k => sub_scan m repl k t
      | O =>
          match m s with
          | Some (S len) => repl ++ sub_scan m repl len t
          | _ => c :: sub_scan m repl 0 t
          end
      end
  end.

(** A text in which the matcher finds nothing, wherever it is tried. *)
Definition matchless (m : str -> option nat) (s : str) : Prop :=
  forall pre suf n, s = pre ++ suf -> m suf <> Some (S n).

Definition lit_match (old : str) (s : str) : option nat :=
  if starts_with old s then Some (length old) else None.

(** [s.replace(old, new)]; with an empty [old] Python puts [new] before
    every character and at the end. *)
Definition replace (old new s : str) : str :=
  match old with
  | [] => new ++ flat_map (fun c => c :: new) s
  | _ :: _ => sub_scan (lit_match old) new 0 s
  end.

(** [s.split(sep)] for a one-character separator: never the empty list. *)
Fixpoint split (sep : char) (s : str) : list str :=
  match s with
  | [] => [[]]
  | c :: t =>
      if N.eqb c sep then [] :: split sep t
      else match split sep t with
           | h :: r => (c :: h) :: r
           | [] => [[c]]
           end
  end.

(** [sep.join(parts)]. *)
Fixpoint join (sep : str) (parts : list str) : str :=
  match parts with
  | [] => []
  | [p] => p
  | p :: rest => p ++ sep ++ join sep rest
  end.

(** [s.split()] with no argument: the maximal runs of non-whitespace. *)
Fixpoint words_go (cur : str) (s : str) : list str :=
  match s with
  | [] => match cur with [] => [] | _ :: _ => [rev cur] end
  | c :: t =>
      if isspace c
      then match cur with
           | [] => words_go [] t
           | _ :: _ => rev cur :: words_go [] t
           end
      else words_go (c :: cur) t
  end.

Definition split_ws (s : str) : list str := words_go [] s.

(** Every whitespace character of the text is a space that stands
    alone: the next character, if any, is not whitespace. *)
Fixpoint single_spaced (s : str) : bool :=
  match s with
  | [] => true
  | c :: t =>
      ((if isspace c
        then N.eqb c SP && match t with d :: _ => negb (isspace d) | [] => true end
        else true)
       && single_spaced t)%bool
  end.

(** [len(x)] as a Python int. *)
Definition len {A} (l : list A) : Z := Z.of_nat (length l).

(** [range(start, stop, step)] for [step >= 1], as the [for] loop walks
    it: [start, start+step, ...] while below [stop]. At most
    [stop - start] values exist, which is the fuel. *)
Fixpoint range_loop (fuel : nat) (i stop step : Z) : list Z :=
  match fuel with
  | O => []
  | S f => if (i <? stop)%Z then i :: range_loop f (i + step)%Z stop step else []
  end.

Definition range (start stop step : Z) : list Z :=
  range_loop (Z.to_nat (stop - start)) start stop step.

(** [l[i:j]]: a negative bound counts from the end, both are clipped to
    [0 .. len(l)]. *)
Definition clip_index (n i : Z) : Z :=
  if (i <? 0)%Z then Z.max (i + n) 0 else Z.min i n.

Definition slice {A} (l : list A) (i j : Z) : list A :=
  let n := len l in
  let lo := clip_index n i in
  let hi := clip_index n j in
  if (lo <? hi)%Z then firstn (Z.to_nat (hi - lo)) (skipn (Z.to_nat lo) l) else [].

(** [l[-1]]: [None] stands for the [IndexError] on an empty list. *)
Definition last_item {A} (l : list A) : option A :=
  match rev l with
  | x :: _ => Some x
  | [] => None
  end.

(** What is asked of a cleaned text: no line feed (and no carriage
    return), no two spaces in a row, no whitespace at either end. *)
Definition tidy (y : str) : Prop :=
  ~ In LF y /\
  ~ In CR y /\
  contains [SP; SP] y = false /\
  (forall c, hd_error y = Some c -> isspace c = false) /\
  (forall c, last_item y = Some c -> isspace c = false).

(** Decimal digits of a natural number, most significant first. *)
Fixpoint digits_go (fuel : nat) (n : N) (acc : str) : str :=
  match fuel with
  | O => acc
  | S f =>
      let acc' := (48 + n mod 10)%N :: acc in
      if (n / 10 =? 0)%N then acc' else digits_go f (n / 10)%N acc'
  end.

Definition decimal (n : N) : str := digits_go (S (N.to_nat (N.log2 n))) n [].

(** [f"{n:03d}"]: sign-aware zero padding to three columns. *)
Definition format_03d (n : Z) : str :=
  let ds := decimal (Z.to_N (Z.abs n)) in
  let sign := if (n <? 0)%Z then [45%N] else [] in
  sign ++ repeat 48%N (3 - length sign - length ds) ++ ds.

End Py.

Import Py.

(* ================================================================== *)
(** * Exceptions *)
(* ================================================================== *)

Inductive Exn : Type :=
| ValueError (msg : string)
| RuntimeError (msg : string)
| IndexError.

Inductive Result (A : Type) : Type :=
| Ok (a : A)
| Raise (e : Exn).

Arguments Ok {A} a.
Arguments Raise {A} e.

Definition bind {A B} (c : Result A) (k : A -> Result B) : Result B :=
  match c with
  | Ok a => k a
  | Raise e => Raise e
  end.

Notation "x <- c ;; k" := (bind c (fun x => k))
  (at level 61, c at next level, right associativity).
Notation "' p <- c ;; k" := (bind c (fun x => let p := x in k))
  (at level 61, p pattern, c at next level, right associativity).

(* ================================================================== *)
(** * What both scripts share *)
(* ================================================================== *)

(** The two attributes of a [pathlib.Path] that the scripts read:
    [path.stem] and [path.parent.name]. *)
Record Path : Type := { stem : str; parent_name : str }.

(** A token identifier. *)
Definition token := Z.

(** The tokenizer object [encoding] ([tiktoken.get_encoding]), used only
    through [encode] and [decode]. [encode] is what [encoding.encode(text)]
    returns. On a text that holds the text of a special token (such as
    [<|endoftext|>]) tiktoken raises [ValueError] instead; that exception
    is the tokenizer's and is not modelled: what is stated about a
    document is stated about the tokens [encode] returned for it. *)
Record Encoding : Type := {
  encode : str -> list token;
  decode : list token -> str
}.

(** [split_into_token_chunks] and [derive_ids_from_path] are the same text
    in [chunk_txt_to_csv.py] (lines 47-79) and [upload_chunks.py]
    (lines 85-119). *)
Module Chunking.

Section WithEncoding.
Variable encoding : Encoding.

(** The body of the [for start in range(...)] loop: what one start offset
    yields. *)
Definition window (tokens : list token) (chunk_size start : Z) : list token :=
  let end_ := (start + chunk_size)%Z in
  slice tokens start end_.

Definition yield_window (tokens : list token) (chunk_size start : Z) : list str :=
  match window tokens chunk_size start with
  | [] => []
  | chunk_tokens => [decode encoding chunk_tokens]
  end.

(** The generator, run to its end: the texts it yields, or the exception
    it raises (which comes before the first yield). *)
Definition split_into_token_chunks (text : str) (chunk_size chunk_overlap : Z)
  : Result (list str) :=
  let tokens := encode encoding text in
  match tokens with
  | [] => Ok []
  | _ :: _ =>
      let step := (chunk_size - chunk_overlap)%Z in
      if (step <=? 0)%Z
      then Raise (ValueError "chunk_overlap must be smaller than chunk_size")
      else Ok (flat_map (yield_window tokens chunk_size) (range 0 (len tokens) step))
  end.

End WithEncoding.

Definition derive_ids_from_path (path : Path) : Result (str * str) :=
  let stem := stem path in
  let parts := split 95%N stem in
  match last_item parts with
  | None => Raise IndexError
  | Some doc_id =>
      let source_group := parent_name path in
      Ok (doc_id, source_group)
  end.

End Chunking.

Import Chunking.

(* ================================================================== *)
(** * legacy/chunk_txt_to_csv.py: the flat-file path *)
(* ================================================================== *)

Module Legacy.

(** The module-level constants, gathered so that a property can be
    stated for every setting of them. *)
Record Config : Type := {
  MAX_BYTES : Z;
  CHUNK_SIZE_TOKENS : Z;
  CHUNK_OVERLAP_TOKENS : Z;
  MIN_DOC_TOKENS_SINGLE_CHUNK : Z
}.

(** The values the script is shipped with. *)
Definition shipped : Config := {|
  MAX_BYTES := 9 * 1024 * 1024;
  CHUNK_SIZE_TOKENS := 350;
  CHUNK_OVERLAP_TOKENS := 70;
  MIN_DOC_TOKENS_SINGLE_CHUNK := 220
|}.

Definition two_spaces : str := [SP; SP].

(** [while "  " in text: text = text.replace("  ", " ")]. Every pass that
    runs shortens the text, so [length text] passes are enough. *)
Fixpoint collapse_loop (fuel : nat) (text : str) : str :=
  match fuel with
  | O => text
  | S f =>
      if contains two_spaces text
      then collapse_loop f (replace two_spaces [SP] text)
      else text
  end.

Definition clean_text (text : option str) : str :=
  match text with
  | None => []
  | Some text =>
      let text := replace [CR] [LF] (replace [CR; LF] [LF] text) in
      let lines := map strip (split LF text) in
      let lines := filter truthy lines in
      let text := join [SP] lines in
      let text := collapse_loop (length text) text in
      strip text
  end.

Record Row : Type := {
  doc_id : str;
  chunk_id : str;
  source_group : str;
  text : str
}.

(** An output container: its number and the rows written after the
    header. *)
Record OutFile : Type := {
  file_index : Z;
  rows : list Row
}.

Definition writerow (writer : OutFile) (row : Row) : OutFile :=
  {| file_index := file_index writer; rows := rows writer ++ [row] |}.

(** The rows of the long-document loop, [chunk_index] counting up. *)
Fixpoint chunk_rows (doc_id source_group : str) (chunk_index : Z) (chunks : list str)
  : list Row :=
  match chunks with
  | [] => []
  | chunk_text :: rest =>
      {| doc_id := doc_id;
         chunk_id := doc_id ++ u "_c" ++ format_03d chunk_index;
         source_group := source_group;
         text := chunk_text |}
      :: chunk_rows doc_id source_group (chunk_index + 1) rest
  end.

(** The byte counts of the [csv] writer: the header line and one row. *)
Record Csv : Type := {
  header_bytes : Z;
  row_bytes : Row -> Z
}.

(** What a run leaves behind: the containers in the order they were
    opened, and the exception that ended the run, if one did. *)
Record Outcome : Type := {
  files : list OutFile;
  raised : option Exn
}.

Section WithWorld.
Variable cfg : Config.
Variable encoding : Encoding.
Variable read_text : Path -> str.
Variable csv : Csv.

Definition process_file (path : Path) (writer : OutFile) : Result OutFile :=
  let raw_text := read_text path in
  let text := clean_text (Some raw_text) in
  match text with
  | [] => Ok writer
  | _ :: _ =>
      ' (doc_id, source_group) <- derive_ids_from_path path ;;
      let tokens := encode encoding text in
      let n_tokens := len tokens in
      if (n_tokens <? MIN_DOC_TOKENS_SINGLE_CHUNK cfg)%Z
      then
        let chunk_id := doc_id ++ u "_c001" in
        Ok (writerow writer
              {| doc_id := doc_id; chunk_id := chunk_id;
                 source_group := source_group; text := text |})
      else
        chunks <- split_into_token_chunks encoding text
                    (CHUNK_SIZE_TOKENS cfg) (CHUNK_OVERLAP_TOKENS cfg) ;;
        Ok (fold_left writerow (chunk_rows doc_id source_group 1 chunks) writer)
  end.

Definition open_new_output_file (index : Z) : OutFile :=
  {| file_index := index; rows := [] |}.

(** [f_out.tell()]: the bytes written to the container so far. *)
Definition tell (f_out : OutFile) : Z :=
  (header_bytes csv + fold_right Z.add 0 (map (row_bytes csv) (rows f_out)))%Z.

(** The [for path in all_txt_paths] loop of [main] with its [finally]:
    [closed] are the containers already rotated out. *)
Fixpoint main_loop (paths : list Path) (closed : list OutFile)
  (file_index : Z) (f_out : OutFile) : Outcome :=
  match paths with
  | [] => {| files := closed ++ [f_out]; raised := None |}
  | path :: rest =>
      match process_file path f_out with
      | Raise e => {| files := closed ++ [f_out]; raised := Some e |}
      | Ok f_out =>
          if (tell f_out >=? MAX_BYTES cfg)%Z
          then
            let file_index := (file_index + 1)%Z in
            main_loop rest (closed ++ [f_out]) file_index
              (open_new_output_file file_index)
          else main_loop rest closed file_index f_out
      end
  end.

(** [main], from the collected [all_txt_paths] on. With no path it
    returns before any container is opened. *)
Definition main (all_txt_paths : list Path) : Outcome :=
  match all_txt_paths with
  | [] => {| files := []; raised := None |}
  | _ :: _ =>
      let file_index := 1%Z in
      main_loop all_txt_paths [] file_index (open_new_output_file file_index)
  end.

(** The rows [process_file] adds for one document, read off a fresh
    container (none when it raises). *)
Definition rows_of (path : Path) : list Row :=
  match process_file path (open_new_output_file 0) with
  | Ok w => rows w
  | Raise _ => []
  end.

(** The documents [process_file] returns from without raising. *)
Definition runs (path : Path) : bool :=
  match process_file path (open_new_output_file 0) with
  | Ok _ => true
  | Raise _ => false
  end.

(** The documents that get as far as the sliding-window loop with a
    token to cut: not empty after cleaning, not below the single-chunk
    threshold. *)
Definition reaches_chunker (path : Path) : bool :=
  let text := clean_text (Some (read_text path)) in
  let tokens := encode encoding text in
  (truthy text
   && negb (len tokens <? MIN_DOC_TOKENS_SINGLE_CHUNK cfg)%Z
   && match tokens with [] => false | _ :: _ => true end)%bool.

End WithWorld.

End Legacy.

(* ================================================================== *)
(** * [json.dumps(obj, ensure_ascii=False)] on a dict of strings *)
(* ================================================================== *)

Module Json.

(** A dict with [str] keys and [str] values, in insertion order. *)
Definition Props := list (str * str).

Definition hex_digit (n : N) : char :=
  if (n <? 10)%N then (48 + n)%N else (87 + n)%N.

(** One character of a string: the quote, the backslash and the control
    characters below U+0020 are escaped, everything else is kept. *)
Definition escape_char (c : char) : str :=
  if (c =? 34)%N then [92; 34]%N
  else if (c =? 92)%N then [92; 92]%N
  else if (c =? 10)%N then [92; 110]%N
  else if (c =? 13)%N then [92; 114]%N
  else if (c =? 9)%N then [92; 116]%N
  else if (c =? 8)%N then [92; 98]%N
  else if (c =? 12)%N then [92; 102]%N
  else if (c <? 32)%N
       then [92; 117; 48; 48; hex_digit (c / 16); hex_digit (c mod 16)]%N
       else [c].

Definition dumps_str (s : str) : str :=
  [QUOTE] ++ flat_map escape_char s ++ [QUOTE].

Definition dumps_item (kv : str * str) : str :=
  dumps_str (fst kv) ++ u ": " ++ dumps_str (snd kv).

Definition dumps (obj : Props) : str :=
  u "{" ++ join (u ", ") (map dumps_item obj) ++ u "}".

End Json.

(* ================================================================== *)
(** * notebooks/upload_chunks.py: the upload path *)
(* ================================================================== *)

Module Upload.

(** The chunking settings, gathered so that a property can be stated for
    every setting of them; the batch settings stay constants. *)
Record Config : Type := {
  CHUNK_SIZE_TOKENS : Z;
  CHUNK_OVERLAP_TOKENS : Z;
  MIN_DOC_TOKENS_SINGLE_CHUNK : Z;
  MIN_WORDS_PER_DOC : Z
}.

Definition shipped : Config := {|
  CHUNK_SIZE_TOKENS := 350;
  CHUNK_OVERLAP_TOKENS := 70;
  MIN_DOC_TOKENS_SINGLE_CHUNK := 220;
  MIN_WORDS_PER_DOC := 5
|}.

(** ** The three regular expressions, as matchers for [sub_scan]

    A matcher answers the length of the match that starts at the head of
    its argument. *)

Definition ascii_digit (c : char) : bool := between 48 57 c.
Definition ascii_letter (c : char) : bool := (between 65 90 c || between 97 122 c)%bool.

(** The punctuation of the allow-list: [.,;:!?'\-()/]. *)
Definition allowed_punct (c : char) : bool :=
  existsb (N.eqb c) (u ".,;:!?'-()/").

(** [OCR_JUNK_PATTERN = [^A-Za-z0-9\s.,;:!?'\-()/]]: one character outside
    the allow-list. *)
Definition allowed (c : char) : bool :=
  (ascii_letter c || ascii_digit c || isspace c || allowed_punct c)%bool.

Definition OCR_JUNK_PATTERN (s : str) : option nat :=
  match s with
  | c :: _ => if allowed c then None else Some 1
  | [] => None
  end.

(** The leading characters that satisfy [p] are dropped. *)
Fixpoint drop_while (p : char -> bool) (s : str) : str :=
  match s with
  | c :: t => if p c then drop_while p t else s
  | [] => []
  end.

(** A lower-case ASCII letter of the pattern under [re.IGNORECASE]. Of
    the letters used ([p a g e o f]) none has a non-ASCII case variant. *)
Definition letter (a : ascii) : char := N_of_ascii a.
Definition ci (lower c : char) : bool := (N.eqb c lower || N.eqb c (lower - 32))%bool.

Section WithDigits.
(** [\d] on a [str] pattern is any Unicode decimal digit (category Nd).
    The table beyond ASCII belongs to the Python runtime and is a
    parameter; it is only consulted for code points from 128 on. *)
Variable nonascii_decimal : char -> bool.

Definition is_decimal (c : char) : bool :=
  (ascii_digit c || (N.leb 128 c && nonascii_decimal c))%bool.

(** [\s*\d+] at the head of [s]: the rest after it, when at least one
    digit is there. The classes [\s] and [\d] share no character, so the
    greedy reading is the only one. *)
Definition spaces_digits (s : str) : option str :=
  let r := drop_while isspace s in
  let r' := drop_while is_decimal r in
  if Nat.ltb (length r') (length r) then Some r' else None.

(** [PAGE_MARKER_PATTERN = page\s*\d+\s*of\s*\d+], [re.IGNORECASE]. *)
Definition PAGE_MARKER_PATTERN (s : str) : option nat :=
  match s with
  | p :: a :: g :: e :: r1 =>
      if (ci (letter "p") p && ci (letter "a") a && ci (letter "g") g && ci (letter "e") e)%bool
      then match spaces_digits r1 with
           | Some r3 =>
               match drop_while isspace r3 with
               | o :: f :: r5 =>
                   if (ci (letter "o") o && ci (letter "f") f)%bool
                   then match spaces_digits r5 with
                        | Some r7 => Some (length s - length r7)
                        | None => None
                        end
                   else None
               | _ => None
               end
           | None => None
           end
      else None
  | _ => None
  end.

(** [\s+]: the whitespace run at the head. *)
Definition WHITESPACE_RUN (s : str) : option nat :=
  match length s - length (drop_while isspace s) with
  | O => None
  | n => Some n
  end.

(** [pattern.sub(repl, text)]. *)
Definition re_sub (pattern : str -> option nat) (repl text : str) : str :=
  sub_scan pattern repl 0 text.

Definition clean_text (text : option str) : str :=
  match text with
  | None => []
  | Some text =>
      let text := replace [CR] [LF] (replace [CR; LF] [LF] text) in
      let text := replace [FF] [SP] text in
      let lines := map strip (split LF text) in
      let lines := filter truthy lines in
      let text := join [SP] lines in
      let text := re_sub PAGE_MARKER_PATTERN [SP] text in
      let text := re_sub OCR_JUNK_PATTERN [SP] text in
      let text := replace [RDQUO] [QUOTE]
                    (replace [LDQUO] [QUOTE] (replace [RSQUO] [APOS] text)) in
      let text := re_sub WHITESPACE_RUN [SP] text in
      strip text
  end.

(** A page marker somewhere in the text. *)
Fixpoint has_page_marker (s : str) : bool :=
  match PAGE_MARKER_PATTERN s with
  | Some (S _) => true
  | _ => match s with
         | [] => false
         | _ :: t => has_page_marker t
         end
  end.

(** ** Chunk objects *)

Definition Props := Json.Props.

(** The dict literal of [generate_chunk_objects_from_file]. *)
Definition chunk_object (doc_id chunk_id source_group text : str) : Props :=
  [ (u "doc_id", doc_id); (u "chunk_id", chunk_id);
    (u "source_group", source_group); (u "text", text) ].

Fixpoint chunk_objects (doc_id source_group : str) (chunk_index : Z) (chunks : list str)
  : list Props :=
  match chunks with
  | [] => []
  | chunk_text :: rest =>
      chunk_object doc_id (doc_id ++ u "_c" ++ format_03d chunk_index)
        source_group chunk_text
      :: chunk_objects doc_id source_group (chunk_index + 1) rest
  end.

(** ** The remote batch client

    An entry of [batch.failed_objects] is duck-typed: the script reads
    [fo.properties] when the attribute is there and not [None], else
    [fo.object.get("properties")] when [fo.object] is there and not
    [None]. An absent attribute and a [None] one take the same branch,
    and both are [None] here. *)
Record Envelope : Type := { get_properties : option Props }.

Record FailedObject : Type := {
  properties : option Props;
  object : option Envelope
}.

(** The connection settings read from the environment, and what
    [batch.failed_objects] holds where the script reads it, given the
    objects added to the batch. The client is taken not to raise. *)
Record Remote : Type := {
  WEAVIATE_URL : option str;
  WEAVIATE_API_KEY : option str;
  failed_objects : list Props -> list FailedObject
}.

Definition BATCH_SIZE : Z := 100.
Definition PER_BATCH_SLEEP_SECONDS : Z := 3.

(** [not x] on an environment value: unset or empty. *)
Definition unset (x : option str) : bool :=
  match x with
  | None | Some [] => true
  | Some (_ :: _) => false
  end.

(** The loop's variables: [added] are the objects handed to
    [batch.add_object], [slept] the seconds spent in [time.sleep]. *)
Record Progress : Type := {
  uploaded : Z;
  batch_counter : Z;
  slept : Z;
  added : list Props
}.

(** What a completed run reports; [replay_file] is the content of
    [failed_objects.jsonl], [None] when the file is not written. *)
Record Report : Type := {
  connected : bool;
  progress : Progress;
  replay_file : option str
}.

(** [if props:] on a dict: true when it is not empty. *)
Definition truthy_dict (props : Props) : bool :=
  match props with [] => false | _ :: _ => true end.

(** The body of [for fo in batch.failed_objects]: what is appended to the
    local list [failed_objects]. *)
Definition capture (fo : FailedObject) : list Props :=
  match properties fo with
  | Some props => [props]
  | None =>
      match object fo with
      | Some envelope =>
          match get_properties envelope with
          | Some props => if truthy_dict props then [props] else []
          | None => []
          end
      | None => []
      end
  end.

Definition replay_line (obj : Props) : str := Json.dumps obj ++ [LF].

Section WithWorld.
Variable cfg : Config.
Variable encoding : Encoding.
Variable read_text : Path -> str.
Variable remote : Remote.

Definition generate_chunk_objects_from_file (path : Path) : Result (list Props) :=
  let raw_text := read_text path in
  let text := clean_text (Some raw_text) in
  match text with
  | [] => Ok []
  | _ :: _ =>
      let word_count := len (split_ws text) in
      if (word_count <? MIN_WORDS_PER_DOC cfg)%Z then Ok []
      else
        ' (doc_id, source_group) <- derive_ids_from_path path ;;
        let tokens := encode encoding text in
        let n_tokens := len tokens in
        if (n_tokens <? MIN_DOC_TOKENS_SINGLE_CHUNK cfg)%Z
        then
          let chunk_id := doc_id ++ u "_c001" in
          Ok [chunk_object doc_id chunk_id source_group text]
        else
          chunks <- split_into_token_chunks encoding text
                      (CHUNK_SIZE_TOKENS cfg) (CHUNK_OVERLAP_TOKENS cfg) ;;
          Ok (chunk_objects doc_id source_group 1 chunks)
  end.

(** [list(iter_all_chunk_objects())], from the collected paths on. *)
Fixpoint iter_all_chunk_objects (all_txt_paths : list Path) : Result (list Props) :=
  match all_txt_paths with
  | [] => Ok []
  | path :: rest =>
      objs <- generate_chunk_objects_from_file path ;;
      more <- iter_all_chunk_objects rest ;;
      Ok (objs ++ more)
  end.

(** The documents that get as far as the sliding-window loop with a
    token to cut: not empty after cleaning, not below the word minimum,
    not below the single-chunk threshold. *)
Definition reaches_chunker (path : Path) : bool :=
  let text := clean_text (Some (read_text path)) in
  let tokens := encode encoding text in
  (truthy text
   && negb (len (split_ws text) <? MIN_WORDS_PER_DOC cfg)%Z
   && negb (len tokens <? MIN_DOC_TOKENS_SINGLE_CHUNK cfg)%Z
   && match tokens with [] => false | _ :: _ => true end)%bool.

Definition connect_weaviate : Result unit :=
  if (unset (WEAVIATE_URL remote) || unset (WEAVIATE_API_KEY remote))%bool
  then Raise (RuntimeError "WEAVIATE_URL and WEAVIATE_API_KEY must be set.")
  else Ok tt.

(** [for obj in all_objects]; the progress lines it prints are left out. *)
Fixpoint upload_loop (all_objects : list Props) (st : Progress) : Progress :=
  match all_objects with
  | [] => st
  | obj :: rest =>
      let added := added st ++ [obj] in
      let uploaded := (uploaded st + 1)%Z in
      if (uploaded mod BATCH_SIZE =? 0)%Z
      then upload_loop rest
             {| uploaded := uploaded;
                batch_counter := batch_counter st + 1;
                slept := slept st + PER_BATCH_SLEEP_SECONDS;
                added := added |}
      else upload_loop rest
             {| uploaded := uploaded;
                batch_counter := batch_counter st;
                slept := slept st;
                added := added |}
  end.

Definition upload_chunks (all_txt_paths : list Path) : Result Report :=
  all_objects <- iter_all_chunk_objects all_txt_paths ;;
  let total_objects := len all_objects in
  let start := {| uploaded := 0; batch_counter := 0; slept := 0; added := [] |} in
  if (total_objects =? 0)%Z
  then Ok {| connected := false; progress := start; replay_file := None |}
  else
    _ <- connect_weaviate ;;
    let st := upload_loop all_objects start in
    let failed := flat_map capture (failed_objects remote (added st)) in
    Ok {| connected := true;
          progress := st;
          replay_file :=
            match failed with
            | [] => None
            | _ :: _ => Some (flat_map replay_line failed)
            end |}.

End WithWorld.

End WithDigits.

End Upload.

(* ================================================================== *)
(** * Arithmetic of the window count, and sample collaborators *)
(* ================================================================== *)

(** [ceil(a / b)] for [b > 0]. *)
Definition ceil_div (a b : Z) : Z := ((a + b - 1) / b)%Z.

(** The chunk count as the specification words it, for a document of [n]
    tokens: [ceil((n - CHUNK_SIZE_TOKENS) / step) + 1] when
    [n > CHUNK_SIZE_TOKENS], else 1. *)
Definition spec_chunk_count (chunk_size chunk_overlap n : Z) : Z :=
  let step := (chunk_size - chunk_overlap)%Z in
  if (n >? chunk_size)%Z then (ceil_div (n - chunk_size) step + 1)%Z else 1%Z.

Module Sample.

(** A tokenizer with one token per character. *)
Definition per_char : Encoding :=
  {| encode := map Z.of_N; decode := map Z.to_N |}.

(** A runtime whose decimal digits are the ASCII ones only. *)
Definition no_more_digits (c : char) : bool := false.

(** A file system where the document's text is spelled by its stem. *)
Definition text_is_stem (path : Path) : str := stem path.

(** A file system where every document holds the same text. *)
Definition says (text : string) (path : Path) : str := u text.

(** A file system with one long document kind (sixty words, 299
    characters once cleaned) and one short. *)
Definition library (path : Path) : str :=
  if starts_with (u "LONG") (stem path)
  then concat (repeat (u "word ") 60)
  else u "a short text of five words".

Definition flat_csv : Legacy.Csv :=
  {| Legacy.header_bytes := 34; Legacy.row_bytes := fun row => 4 + len (Legacy.text row) |}%Z.

Definition doc (name : string) : Path :=
  {| stem := u name; parent_name := u "002" |}.


Definition overlap_is_size_upload : Upload.Config :=
  {| Upload.CHUNK_SIZE_TOKENS := 70;
     Upload.CHUNK_OVERLAP_TOKENS := 70;
     Upload.MIN_DOC_TOKENS_SINGLE_CHUNK := 220;
     Upload.MIN_WORDS_PER_DOC := 5 |}.

(** A remote with its connection settings, which reports as failed every
    object whose text is shorter than 25 characters, in the shape of the
    new client. *)
Definition picky_remote : Upload.Remote :=
  {| Upload.WEAVIATE_URL := Some (u "https://cluster.example");
     Upload.WEAVIATE_API_KEY := Some (u "key");
     Upload.failed_objects := fun sent =>
       map (fun obj => {| Upload.properties := Some obj; Upload.object := None |})
         (filter (fun obj =>
                    match rev obj with
                    | (_, text) :: _ => Nat.ltb (length text) 25
                    | [] => false
                    end) sent) |}.

(** A remote whose failure entries expose neither [properties] nor
    [object]: one entry per object sent. *)
Definition opaque_remote : Upload.Remote :=
  {| Upload.WEAVIATE_URL := Some (u "https://cluster.example");
     Upload.WEAVIATE_API_KEY := Some (u "key");
     Upload.failed_objects := fun sent =>
       map (fun _ => {| Upload.properties := None; Upload.object := None |}) sent |}.

(** Small settings, under which a document of ten characters or more is
    cut ([per_char] tokens) and a container is full at 60 bytes; and
    five documents, the second and the fourth long. *)
Definition small_windows : Legacy.Config :=
  {| Legacy.MAX_BYTES := 60;
     Legacy.CHUNK_SIZE_TOKENS := 8;
     Legacy.CHUNK_OVERLAP_TOKENS := 2;
     Legacy.MIN_DOC_TOKENS_SINGLE_CHUNK := 10 |}.

Definition five_documents : list Path :=
  [ doc "one_01"; doc "abcdefghijklmnopqrst_02"; doc "two_03";
    doc "uvwxyzuvwxyzuvwxyz_04"; doc "end_05" ].

(** A text of [n] tokens under [per_char]. *)
Definition text_of_tokens (n : nat) : str := repeat 97%N n.

(** How many chunks the generator yields, [None] when it raises. *)
Definition count_chunks (text : str) (chunk_size chunk_overlap : Z) : option Z :=
  match split_into_token_chunks per_char text chunk_size chunk_overlap with
  | Ok chunks => Some (len chunks)
  | Raise _ => None
  end.

End Sample.

(* ================================================================== *)
(** * notebooks/token_count.py: the tokens of a directory tree *)
(* ================================================================== *)

Module TokenCount.

(** What the function meets: [os.walk(path)] as the [(root, files)] it
    yields, in the order it yields them (the directory names of each
    triple are not read; a missing [path] yields nothing, [os.walk]
    swallows the error); [os.path.join]; opening and reading a file
    ([read]), and [encoding.encode(text)] ([try_encode]), either of which
    can raise ([None]). *)
Record World : Type := {
  walk : str -> list (str * list str);
  path_join : str -> str -> str;
  read : str -> option str;
  try_encode : str -> option (list token)
}.

Section WithWorld.
Variable world : World.

(** The body of the inner loop: [try: ... total += len(encoding.encode(text))]
    with [except: pass]. *)
Definition count_file (total : Z) (full : str) : Z :=
  match read world full with
  | None => total
  | Some text =>
      match try_encode world text with
      | None => total
      | Some tokens => (total + len tokens)%Z
      end
  end.

Definition count_tokens_in_dir (path : str) : Z :=
  fold_left
    (fun total entry =>
       fold_left (fun total f => count_file total (path_join world (fst entry) f))
         (snd entry) total)
    (walk world path) 0%Z.

(** The files the walk visits, by full name, in order. *)
Definition visited (path : str) : list str :=
  flat_map (fun entry => map (path_join world (fst entry)) (snd entry))
    (walk world path).

(** The tokens of one file; none when it cannot be read or encoded. *)
Definition tokens_of (full : str) : Z :=
  match read world full with
  | None => 0%Z
  | Some text =>
      match try_encode world text with
      | None => 0%Z
      | Some tokens => len tokens
      end
  end.

End WithWorld.

End TokenCount.

(* ================================================================== *)
(** * Notions used to state further properties *)
(* ================================================================== *)

(** [int(s)] for a text of ASCII decimal digits. *)
Definition int_of_digits (ds : str) : N :=
  fold_left (fun acc d => (10 * acc + (d - 48))%N) ds 0%N.

(** [obj.get(key)] on a dict in insertion order. *)
Fixpoint dict_get (key : str) (obj : Json.Props) : option str :=
  match obj with
  | [] => None
  | (k, v) :: rest =>
      if list_eq_dec N.eq_dec k key then Some v else dict_get key rest
  end.


(** [ids] are the chunk ids of the document at [path], in order, as the
    flat-file path writes them or as the upload path yields them. *)
Definition chunk_ids_of (lcfg : Legacy.Config) (ucfg : Upload.Config)
  (encoding : Encoding) (read_text : Path -> str) (nonascii_decimal : char -> bool)
  (path : Path) (ids : list str) : Prop :=
  ids = map Legacy.chunk_id (Legacy.rows_of lcfg encoding read_text path) \/
  exists objs,
    Upload.generate_chunk_objects_from_file nonascii_decimal ucfg encoding read_text path
    = Ok objs /\
    map Some ids = map (dict_get (u "chunk_id")) objs.

(** A tree of two text files and one file that cannot be read, as one
    listing order gives it and as the reverse order does. *)
Definition sample_tree (entries : list (str * list str)) : TokenCount.World :=
  {| TokenCount.walk := fun _ => entries;
     TokenCount.path_join := fun root f => root ++ u "/" ++ f;
     TokenCount.read := fun full =>
       if starts_with (u "d/sub/") full then None else Some full;
     TokenCount.try_encode := fun text => Some (encode Sample.per_char text) |}.

Definition tree_top_down : TokenCount.World :=
  sample_tree [ (u "d", [u "a.txt"; u "bb.txt"]); (u "d/sub", [u "c.bin"]) ].

Definition tree_bottom_up : TokenCount.World :=
  sample_tree [ (u "d/sub", [u "c.bin"]); (u "d", [u "bb.txt"; u "a.txt"]) ].

(** [not c.isspace()]. *)
Definition visible (c : char) : bool := negb (isspace c).

(** A container that was rotated out: it reached [MAX_BYTES] with the
    rows of its last document, and was below it before them. *)
Definition rotated_out (cfg : Legacy.Config) (encoding : Encoding)
  (read_text : Path -> str) (csv : Legacy.Csv) (f : Legacy.OutFile) : Prop :=
  (Legacy.MAX_BYTES cfg <= Legacy.tell csv f)%Z /\
  exists path before,
    Legacy.rows f = before ++ Legacy.rows_of cfg encoding read_text path /\
    (Legacy.tell csv {| Legacy.file_index := Legacy.file_index f;
                        Legacy.rows := before |} < Legacy.MAX_BYTES cfg)%Z.

(** The name [open_new_output_file] gives the container of number
    [index]: [f"{OUTPUT_BASENAME}_{index:03d}.csv"]. *)
Definition OUTPUT_BASENAME : str := u "chunks".

Definition filename (index : Z) : str :=
  OUTPUT_BASENAME ++ u "_" ++ format_03d index ++ u ".csv".

(* ================================================================== *)
(** * Proof steps used more than once *)
(* ================================================================== *)

(** A goal [~ In c [k1; ...; kn]] where [c] and every [ki] are distinct
    literal code points. *)
Ltac not_among_literals :=
  let Hin := fresh "Hin" in
  cbn [In]; intros Hin;
  repeat (destruct Hin as [Hin|Hin]; [discriminate Hin|]);
  exact Hin.

(* ================================================================== *)
(** * The specification's examples, run on the model *)
(* ================================================================== *)

Module Examples.

(** ["Page 1 of 2\nHello   world.\n\n"] cleans to ["Hello world."] on the
    upload path. *)
Example upload_clean_hello_world nonascii_decimal :
  Upload.clean_text nonascii_decimal
    (Some (u "Page 1 of 2" ++ [LF] ++ u "Hello   world." ++ [LF; LF]))
  = u "Hello world.".
Proof. vm_compute. reflexivity. Qed.

(** The flat-file cleaner keeps the page marker and joins the lines. *)
Example legacy_clean_hello_world :
  Legacy.clean_text
    (Some (u "Page 1 of 2" ++ [CR; LF] ++ u "  Hello   world.  " ++ [CR; CR]))
  = u "Page 1 of 2 Hello world.".
Proof. vm_compute. reflexivity. Qed.

(** Stem ["ABC_DEF_00042"] in directory ["002"]. *)
Example ids_of_abc_def_00042 :
  derive_ids_from_path (Sample.doc "ABC_DEF_00042") = Ok (u "00042", u "002").
Proof. vm_compute. reflexivity. Qed.

(** 700 tokens, window 350, overlap 70: offsets 0, 280, 560. *)
Example offsets_of_700_tokens : range 0 700 (350 - 70) = [0; 280; 560]%Z.
Proof. vm_compute. reflexivity. Qed.

Example ordinals_are_zero_padded :
  map format_03d [1; 12; 123; 1234]%Z = [u "001"; u "012"; u "123"; u "1234"].
Proof. vm_compute. reflexivity. Qed.

(** Python's slices: clipped at the end, counted from the end when
    negative. *)
Example slices_of_five :
  slice [1; 2; 3; 4; 5]%Z 3 100 = [4; 5]%Z /\
  slice [1; 2; 3; 4; 5]%Z 0 (-1) = [1; 2; 3; 4]%Z /\
  slice [1; 2; 3; 4; 5]%Z 4 3 = [].
Proof. repeat split. Qed.

(** 250 objects with [BATCH_SIZE = 100]: all are handed over, and the
    loop sleeps twice, after the 100th and the 200th. *)
Example sleeps_of_250_objects :
  let st := Upload.upload_loop (repeat [] 250)
              {| Upload.uploaded := 0; Upload.batch_counter := 0;
                 Upload.slept := 0; Upload.added := [] |} in
  Upload.uploaded st = 250%Z /\
  Upload.batch_counter st = 2%Z /\
  Upload.slept st = (2 * Upload.PER_BATCH_SLEEP_SECONDS)%Z /\
  length (Upload.added st) = 250%nat.
Proof. vm_compute. repeat split. Qed.

(** A record of the replay file. *)
Example dumps_of_a_chunk_object :
  Json.dumps (Upload.chunk_object (u "7") (u "7_c001") (u "001") (u "a" ++ [LF] ++ u "b"))
  = u "{" ++ [QUOTE] ++ u "doc_id" ++ [QUOTE] ++ u ": " ++ [QUOTE] ++ u "7" ++ [QUOTE]
    ++ u ", " ++ [QUOTE] ++ u "chunk_id" ++ [QUOTE] ++ u ": "
    ++ [QUOTE] ++ u "7_c001" ++ [QUOTE]
    ++ u ", " ++ [QUOTE] ++ u "source_group" ++ [QUOTE] ++ u ": "
    ++ [QUOTE] ++ u "001" ++ [QUOTE]
    ++ u ", " ++ [QUOTE] ++ u "text" ++ [QUOTE] ++ u ": "
    ++ [QUOTE] ++ u "a\nb" ++ [QUOTE] ++ u "}".
Proof. vm_compute. reflexivity. Qed.

End Examples.
(* ================================================================== *)
(** * Facts about the Python builtins *)
(* ================================================================== *)

Module PyFacts.

Lemma range_loop_bounds fuel : forall i stop step x,
  (0 < step)%Z -> In x (range_loop fuel i stop step) -> (i <= x < stop)%Z.
Proof.
  induction fuel as [|f IH]; simpl; intros i stop step x Hs Hin; [contradiction|].
  destruct (Z.ltb_spec i stop) as [Hlt|Hge]; [|contradiction].
  destruct Hin as [<-|Hin]; [lia|].
  apply IH in Hin; lia.
Qed.

Lemma ceil_div_nonpos a b : (0 < b)%Z -> (a <= 0)%Z -> (ceil_div a b <= 0)%Z.
Proof.
  intros Hb Ha. unfold ceil_div.
  assert ((a + b - 1) / b < 1)%Z; [|lia].
  apply Z.div_lt_upper_bound; lia.
Qed.

Lemma ceil_div_step a b : (0 < b)%Z -> ceil_div a b = (1 + ceil_div (a - b) b)%Z.
Proof.
  intros Hb. unfold ceil_div.
  replace (a + b - 1)%Z with ((a - b + b - 1) + 1 * b)%Z by lia.
  rewrite Z.div_add by lia. lia.
Qed.

Lemma ceil_div_pos a b : (0 < b)%Z -> (0 < a)%Z -> (0 < ceil_div a b)%Z.
Proof.
  intros Hb Ha. unfold ceil_div.
  apply Z.div_str_pos. lia.
Qed.

(** The loop visits [i, i+step, ...], [ceil((stop - i) / step)] values in
    all, once the fuel covers [stop - i]. *)
Lemma range_loop_closed fuel : forall i stop step,
  (0 < step)%Z -> (stop - i <= Z.of_nat fuel)%Z ->
  range_loop fuel i stop step =
  map (fun k => (i + Z.of_nat k * step)%Z)
      (seq 0 (Z.to_nat (ceil_div (stop - i) step))).
Proof.
  induction fuel as [|f IH]; intros i stop step Hs Hf; simpl.
  - pose proof (ceil_div_nonpos (stop - i) step Hs ltac:(lia)).
    replace (Z.to_nat (ceil_div (stop - i) step)) with 0%nat by lia.
    reflexivity.
  - destruct (Z.ltb_spec i stop) as [Hlt|Hge].
    + rewrite (IH (i + step)%Z stop step Hs) by lia.
      rewrite (ceil_div_step (stop - i) step Hs).
      replace (stop - i - step)%Z with (stop - (i + step))%Z by lia.
      set (c := ceil_div (stop - (i + step)) step).
      assert (0 <= c)%Z.
      { pose proof (ceil_div_pos (stop - i) step Hs ltac:(lia)) as Hp.
        rewrite (ceil_div_step (stop - i) step Hs) in Hp.
        replace (stop - i - step)%Z with (stop - (i + step))%Z in Hp by lia.
        subst c; lia. }
      replace (Z.to_nat (1 + c)) with (S (Z.to_nat c)) by lia.
      simpl. f_equal; [lia|].
      rewrite <- seq_shift, map_map.
      apply map_ext; intros k; lia.
    + pose proof (ceil_div_nonpos (stop - i) step Hs ltac:(lia)).
      replace (Z.to_nat (ceil_div (stop - i) step)) with 0%nat by lia.
      reflexivity.
Qed.

Lemma range_closed stop step :
  (0 < step)%Z ->
  range 0 stop step =
  map (fun k => (Z.of_nat k * step)%Z) (seq 0 (Z.to_nat (ceil_div stop step))).
Proof.
  intros Hs. unfold range.
  rewrite range_loop_closed by lia.
  rewrite Z.sub_0_r. apply map_ext; intros; lia.
Qed.

Lemma range_length stop step :
  (0 < step)%Z -> (0 <= stop)%Z -> len (range 0 stop step) = ceil_div stop step.
Proof.
  intros Hs Hn. rewrite range_closed by assumption.
  unfold len. rewrite length_map, length_seq.
  destruct (Z.eq_dec stop 0) as [->|Hne].
  - unfold ceil_div. rewrite Z.div_small by lia. reflexivity.
  - pose proof (ceil_div_pos stop step Hs ltac:(lia)). lia.
Qed.

Lemma range_member stop step k :
  (0 < step)%Z -> (0 <= k)%Z -> (k * step < stop)%Z ->
  In (k * step)%Z (range 0 stop step).
Proof.
  intros Hs Hk Hlt. rewrite range_closed by assumption.
  apply in_map_iff. exists (Z.to_nat k). split; [lia|].
  apply in_seq. split; [lia|]. simpl.
  assert (k < ceil_div stop step)%Z; [|lia].
  unfold ceil_div.
  assert (k <= (stop - 1) / step)%Z by (apply Z.div_le_lower_bound; lia).
  replace (stop + step - 1)%Z with ((stop - 1) + 1 * step)%Z by lia.
  rewrite Z.div_add by lia. lia.
Qed.

(** A slice that starts inside the list and ends after its start. *)
Lemma slice_inside {A} (l : list A) (i j : Z) :
  (0 <= i < len l)%Z -> (i < j)%Z ->
  slice l i j =
  firstn (Z.to_nat (Z.min j (len l) - i)) (skipn (Z.to_nat i) l).
Proof.
  intros Hi Hj. unfold slice, clip_index.
  destruct (Z.ltb_spec i 0); [lia|].
  destruct (Z.ltb_spec j 0); [lia|].
  rewrite (Z.min_l i) by lia.
  destruct (Z.ltb_spec i (Z.min j (len l))); [reflexivity|lia].
Qed.

Lemma slice_inside_nonempty {A} (l : list A) (i j : Z) :
  (0 <= i < len l)%Z -> (i < j)%Z -> slice l i j <> [].
Proof.
  intros Hi Hj. rewrite slice_inside by assumption.
  unfold len in *.
  intros E. apply (f_equal (@length A)) in E.
  rewrite length_firstn, length_skipn in E. simpl in E. lia.
Qed.

Lemma slice_inside_nth {A} (l : list A) (i j x : Z) :
  (0 <= i < len l)%Z -> (i <= x < j)%Z -> (x < len l)%Z ->
  nth_error (slice l i j) (Z.to_nat (x - i)) = nth_error l (Z.to_nat x).
Proof.
  intros Hi Hx Hl. rewrite slice_inside by lia.
  rewrite nth_error_firstn.
  destruct (Nat.ltb_spec (Z.to_nat (x - i)) (Z.to_nat (Z.min j (len l) - i))); [|lia].
  rewrite nth_error_skipn. f_equal. lia.
Qed.

Lemma flat_map_singletons {A B} (f : A -> list B) (l : list A) :
  (forall x, In x l -> length (f x) = 1%nat) ->
  length (flat_map f l) = length l.
Proof.
  induction l as [|a l IH]; simpl; intros H; [reflexivity|].
  rewrite length_app, H by auto. rewrite IH by auto. reflexivity.
Qed.

End PyFacts.

(* ================================================================== *)
(** * The chunker and the identifiers *)
(* ================================================================== *)

Module ChunkingFacts.

Section WithEncoding.
Variable encoding : Encoding.

Lemma yield_window_inside tokens chunk_size start :
  (0 < chunk_size)%Z -> (0 <= start < len tokens)%Z ->
  yield_window encoding tokens chunk_size start =
  [decode encoding (window tokens chunk_size start)].
Proof.
  intros Hc Hs. unfold yield_window.
  pose proof (PyFacts.slice_inside_nonempty tokens start (start + chunk_size)%Z
                Hs ltac:(lia)) as Hne.
  unfold window. destruct (slice tokens start (start + chunk_size)); [contradiction|reflexivity].
Qed.

Lemma split_runs text chunk_size chunk_overlap :
  encode encoding text <> [] -> (0 < chunk_size - chunk_overlap)%Z ->
  split_into_token_chunks encoding text chunk_size chunk_overlap =
  Ok (flat_map (yield_window encoding (encode encoding text) chunk_size)
        (range 0 (len (encode encoding text)) (chunk_size - chunk_overlap))).
Proof.
  intros Hne Hs. unfold split_into_token_chunks.
  destruct (encode encoding text) as [|t ts]; [contradiction|].
  destruct (Z.leb_spec (chunk_size - chunk_overlap) 0); [lia|reflexivity].
Qed.

Lemma split_raises text chunk_size chunk_overlap :
  encode encoding text <> [] -> (chunk_size <= chunk_overlap)%Z ->
  split_into_token_chunks encoding text chunk_size chunk_overlap =
  Raise (ValueError "chunk_overlap must be smaller than chunk_size").
Proof.
  intros Hne Hs. unfold split_into_token_chunks.
  destruct (encode encoding text) as [|t ts]; [contradiction|].
  destruct (Z.leb_spec (chunk_size - chunk_overlap) 0); [reflexivity|lia].
Qed.

Lemma split_no_tokens text chunk_size chunk_overlap :
  encode encoding text = [] ->
  split_into_token_chunks encoding text chunk_size chunk_overlap = Ok [].
Proof.
  intros E. unfold split_into_token_chunks. rewrite E. reflexivity.
Qed.

End WithEncoding.

(** ** [str.split] and the last segment *)

Lemma split_not_nil sep s : split sep s <> [].
Proof.
  destruct s as [|c t]; simpl; [discriminate|].
  destruct (N.eqb c sep); [discriminate|].
  destruct (split sep t); discriminate.
Qed.

Lemma last_item_total {A} (l : list A) : l <> [] -> exists x, last_item l = Some x.
Proof.
  intros Hne. unfold last_item.
  destruct (rev l) as [|y r] eqn:E; [|eauto].
  apply (f_equal (@rev A)) in E. rewrite rev_involutive in E. contradiction.
Qed.

Lemma last_item_app {A} (l1 l2 : list A) :
  l2 <> [] -> last_item (l1 ++ l2) = last_item l2.
Proof.
  intros Hne. unfold last_item. rewrite rev_app_distr.
  destruct (rev l2) as [|y r] eqn:E; [|reflexivity].
  apply (f_equal (@rev A)) in E. rewrite rev_involutive in E. contradiction.
Qed.

Lemma split_without_sep sep s : ~ In sep s -> split sep s = [s].
Proof.
  induction s as [|a x IHx]; simpl; intros Hn; [reflexivity|].
  destruct (N.eqb_spec a sep) as [->|Hne]; [exfalso; apply Hn; now left|].
  rewrite IHx by (intros Hin; apply Hn; now right). reflexivity.
Qed.

(** Splitting distributes over a separator. *)
Lemma split_at_sep sep a b :
  split sep (a ++ sep :: b) = split sep a ++ split sep b.
Proof.
  induction a as [|c a IH]; simpl.
  - rewrite N.eqb_refl. reflexivity.
  - destruct (N.eqb c sep).
    + rewrite IH. reflexivity.
    + rewrite IH. pose proof (split_not_nil sep a) as Hnil.
      destruct (split sep a); [contradiction|reflexivity].
Qed.

(** A text with a separator, cut at the last one. *)
Lemma cut_at_last_sep (sep : char) s :
  In sep s -> exists pre d, s = pre ++ sep :: d /\ ~ In sep d.
Proof.
  induction s as [|c t IH]; simpl; [intros []|].
  intros Hin. destruct (in_dec N.eq_dec sep t) as [Ht|Ht].
  - destruct (IH Ht) as (pre & d & -> & Hd).
    exists (c :: pre), d. split; [reflexivity|assumption].
  - destruct Hin as [->|Hin]; [|contradiction].
    exists [], t. split; [reflexivity|assumption].
Qed.

(** The last part is what follows the last separator, or the whole text
    when there is none. *)
Lemma last_of_split sep s d :
  last_item (split sep s) = Some d ->
  ~ In sep d /\ (s = d \/ exists pre, s = pre ++ sep :: d).
Proof.
  destruct (in_dec N.eq_dec sep s) as [Hin|Hout].
  - destruct (cut_at_last_sep _ _ Hin) as (pre & d' & -> & Hd').
    rewrite split_at_sep, last_item_app by apply split_not_nil.
    rewrite split_without_sep by assumption.
    intros [= <-]. split; [assumption|]. right. exists pre. reflexivity.
  - rewrite split_without_sep by assumption.
    intros [= <-]. split; [assumption|]. left. reflexivity.
Qed.

Lemma last_of_split_trailing sep pre :
  last_item (split sep (pre ++ [sep])) = Some [].
Proof.
  rewrite split_at_sep, last_item_app by discriminate. reflexivity.
Qed.

End ChunkingFacts.

(* ================================================================== *)
(** * Facts about strip, contains, replace, split and join *)
(* ================================================================== *)

Module StrFacts.

(** ** [strip] *)

Lemma lstrip_cuts s :
  exists pre, s = pre ++ lstrip s /\ Forall (fun c => isspace c = true) pre.
Proof.
  induction s as [|c t IH]; simpl.
  - exists []. split; [reflexivity|constructor].
  - destruct (isspace c) eqn:Ec.
    + destruct IH as (pre & Hs & Hall).
      exists (c :: pre). split; [simpl; congruence|constructor; assumption].
    + exists []. split; [reflexivity|constructor].
Qed.

Lemma lstrip_head s c t : lstrip s = c :: t -> isspace c = false.
Proof.
  induction s as [|a s IH]; simpl; [discriminate|].
  destruct (isspace a) eqn:Ea; [assumption|].
  intros [= <- <-]. assumption.
Qed.

Lemma lstrip_fixed s :
  (forall c t, s = c :: t -> isspace c = false) -> lstrip s = s.
Proof.
  destruct s as [|c t]; simpl; [reflexivity|].
  intros H. rewrite (H c t eq_refl). reflexivity.
Qed.

Lemma lstrip_idem s : lstrip (lstrip s) = lstrip s.
Proof.
  apply lstrip_fixed. intros c t. apply lstrip_head.
Qed.

Lemma rstrip_cuts s :
  exists suf, s = rstrip s ++ suf /\ Forall (fun c => isspace c = true) suf.
Proof.
  unfold rstrip. destruct (lstrip_cuts (rev s)) as (pre & Hs & Hall).
  exists (rev pre). split.
  - rewrite <- rev_app_distr, <- Hs, rev_involutive. reflexivity.
  - apply Forall_rev. assumption.
Qed.

Lemma rstrip_idem s : rstrip (rstrip s) = rstrip s.
Proof.
  unfold rstrip. rewrite rev_involutive, lstrip_idem. reflexivity.
Qed.

Lemma rstrip_last s c : last_item (rstrip s) = Some c -> isspace c = false.
Proof.
  unfold rstrip, last_item. rewrite rev_involutive.
  destruct (lstrip (rev s)) as [|a t] eqn:E; [discriminate|].
  intros [= <-]. exact (lstrip_head _ _ _ E).
Qed.

(** [rstrip] keeps the head of a text it does not empty. *)
Lemma rstrip_keeps_head s c t : rstrip s = c :: t -> exists t', s = c :: t'.
Proof.
  intros E. destruct (rstrip_cuts s) as (suf & Hs & _).
  rewrite E in Hs. exists (t ++ suf). exact Hs.
Qed.

Lemma strip_lstripped s : lstrip (strip s) = strip s.
Proof.
  apply lstrip_fixed. intros c t E. unfold strip in E.
  destruct (rstrip_keeps_head _ _ _ E) as [t' E'].
  exact (lstrip_head _ _ _ E').
Qed.

Lemma strip_rstripped s : rstrip (strip s) = strip s.
Proof. unfold strip. apply rstrip_idem. Qed.

Lemma strip_idem s : strip (strip s) = strip s.
Proof.
  unfold strip at 1. rewrite strip_lstripped. apply strip_rstripped.
Qed.

Lemma lstripped_head s c t : lstrip s = s -> s = c :: t -> isspace c = false.
Proof. intros Hl E. subst s. exact (lstrip_head _ _ _ Hl). Qed.

Lemma rstripped_last s c : rstrip s = s -> last_item s = Some c -> isspace c = false.
Proof. intros Hr E. rewrite <- Hr in E. exact (rstrip_last _ _ E). Qed.

(** What [strip] returns is a piece of its argument. *)
Lemma strip_cuts s : exists pre suf, s = pre ++ strip s ++ suf.
Proof.
  destruct (lstrip_cuts s) as (pre & Hs & _).
  destruct (rstrip_cuts (lstrip s)) as (suf & Hs' & _).
  exists pre, suf. unfold strip. rewrite <- Hs'. exact Hs.
Qed.

Lemma strip_chars s c : In c (strip s) -> In c s.
Proof.
  destruct (strip_cuts s) as (pre & suf & Hs). intros Hin.
  rewrite Hs. apply in_or_app. right. apply in_or_app. now left.
Qed.

(** ** [contains] *)

Lemma starts_with_app p s suf :
  starts_with p s = true -> starts_with p (s ++ suf) = true.
Proof.
  revert s. induction p as [|a p IH]; intros s; simpl; [reflexivity|].
  destruct s as [|b s]; simpl; [discriminate|].
  intros H. apply andb_true_iff in H. destruct H as [H1 H2].
  rewrite H1, (IH _ H2). reflexivity.
Qed.

Lemma contains_piece needle pre s suf :
  needle <> [] ->
  contains needle s = true -> contains needle (pre ++ s ++ suf) = true.
Proof.
  intros Hne H.
  assert (Hsuf : contains needle (s ++ suf) = true).
  { clear pre. induction s as [|c t IH]; simpl in *.
    - destruct needle; [contradiction|]. simpl in H. discriminate.
    - apply orb_true_iff in H. apply orb_true_iff. destruct H as [H|H].
      + left. apply (starts_with_app needle (c :: t) suf H).
      + right. apply IH. exact H. }
  clear H. induction pre as [|c pre IH]; simpl; [exact Hsuf|].
  rewrite IH. apply orb_true_r.
Qed.

Lemma strip_keeps_absence needle s :
  needle <> [] -> contains needle s = false -> contains needle (strip s) = false.
Proof.
  intros Hne H. destruct (contains needle (strip s)) eqn:E; [|reflexivity].
  destruct (strip_cuts s) as (pre & suf & Hs).
  rewrite Hs, (contains_piece needle pre (strip s) suf Hne E) in H. discriminate.
Qed.

Lemma starts_with_head a p s :
  starts_with (a :: p) s = true -> exists t, s = a :: t.
Proof.
  destruct s as [|b t]; simpl; [discriminate|].
  intros H. apply andb_true_iff in H. destruct H as [H _].
  apply N.eqb_eq in H. subst. eauto.
Qed.

(** ** The substitution scan *)

Lemma sub_scan_skip m repl k : forall s,
  sub_scan m repl k s = sub_scan m repl 0 (skipn k s).
Proof.
  induction k as [|k IH]; intros s; [reflexivity|].
  destruct s as [|c t]; [reflexivity|]. simpl. apply IH.
Qed.

Lemma sub_scan_chars m repl s : forall k c,
  In c (sub_scan m repl k s) -> In c repl \/ In c s.
Proof.
  induction s as [|a t IH]; intros k c; simpl; [auto|].
  destruct k as [|k].
  - destruct (m (a :: t)) as [[|n]|].
    + intros [<-|H]; [right; now left|]. destruct (IH _ _ H); auto.
    + intros H. apply in_app_or in H. destruct H as [H|H]; [now left|].
      destruct (IH _ _ H); auto.
    + intros [<-|H]; [right; now left|]. destruct (IH _ _ H); auto.
  - intros H. destruct (IH _ _ H); auto.
Qed.

Lemma matchless_tail m c t : matchless m (c :: t) -> matchless m t.
Proof.
  intros H pre suf n E. apply (H (c :: pre) suf n). simpl. congruence.
Qed.

Lemma sub_scan_matchless m repl s :
  matchless m s -> sub_scan m repl 0 s = s.
Proof.
  induction s as [|c t IH]; intros H; simpl; [reflexivity|].
  pose proof (H [] (c :: t)) as H0. simpl in H0.
  destruct (m (c :: t)) as [[|n]|].
  - rewrite IH by (eapply matchless_tail; eassumption). reflexivity.
  - exfalso. apply (H0 n); reflexivity.
  - rewrite IH by (eapply matchless_tail; eassumption). reflexivity.
Qed.

(** A literal whose first character is not in the text is not found. *)
Lemma literal_matchless a old s : ~ In a s -> matchless (lit_match (a :: old)) s.
Proof.
  intros Hout pre suf n E. unfold lit_match.
  destruct (starts_with (a :: old) suf) eqn:Es; [|discriminate].
  destruct (starts_with_head _ _ _ Es) as [t ->].
  exfalso. apply Hout. rewrite E. apply in_or_app. right. now left.
Qed.

Lemma replace_absent a old new s : ~ In a s -> replace (a :: old) new s = s.
Proof.
  intros Hout. unfold replace. apply sub_scan_matchless, literal_matchless, Hout.
Qed.

(** Replacing one character. *)
Lemma replace_char a new s :
  replace [a] new s = flat_map (fun c => if N.eqb a c then new else [c]) s.
Proof.
  unfold replace. induction s as [|c t IH]; simpl; [reflexivity|].
  unfold lit_match at 1. simpl.
  destruct (N.eqb a c); simpl; rewrite IH; reflexivity.
Qed.

Lemma replace_char_removes a new s : ~ In a new -> ~ In a (replace [a] new s).
Proof.
  intros Hnew. rewrite replace_char. intros Hin.
  apply in_flat_map in Hin. destruct Hin as (c & _ & Hc).
  destruct (N.eqb_spec a c) as [->|Hne].
  - contradiction.
  - destruct Hc as [->|[]]. congruence.
Qed.

Lemma replace_chars old new s c : In c (replace old new s) -> In c new \/ In c s.
Proof.
  unfold replace. destruct old as [|a old].
  - intros H. apply in_app_or in H. destruct H as [H|H]; [now left|].
    apply in_flat_map in H. destruct H as (x & Hx & [<-|H]); auto.
  - apply sub_scan_chars.
Qed.

(** ** [split] and [join] *)

Lemma split_chars sep s : forall l c,
  In l (split sep s) -> In c l -> In c s /\ c <> sep.
Proof.
  induction s as [|a t IH]; intros l c; simpl.
  - intros [<-|[]] [].
  - destruct (N.eqb_spec a sep) as [->|Hne].
    + intros [<-|Hl] Hc; [destruct Hc|].
      destruct (IH _ _ Hl Hc). auto.
    + destruct (split sep t) as [|h r] eqn:E.
      * intros [<-|[]] [<-|[]]. auto.
      * intros [<-|Hl] Hc.
        -- destruct Hc as [<-|Hc]; [auto|].
           destruct (IH h c (or_introl eq_refl) Hc). auto.
        -- destruct (IH l c (or_intror Hl) Hc). auto.
Qed.

Lemma join_chars sep parts c :
  In c (join sep parts) -> In c sep \/ exists p, In p parts /\ In c p.
Proof.
  induction parts as [|p rest IH]; simpl; [intros []|].
  destruct rest as [|q rest'].
  - intros H. right. exists p. auto.
  - intros H. apply in_app_or in H. destruct H as [H|H].
    + right. exists p. auto.
    + apply in_app_or in H. destruct H as [H|H]; [now left|].
      destruct (IH H) as [Hs|(x & Hx & Hc)]; [now left|].
      right. exists x. split; [now right|assumption].
Qed.

(** The lines of a text, stripped, the empty ones dropped, joined by a
    space: only a space is new, and no line feed is left. *)
Lemma joined_lines_chars s c :
  In c (join [SP] (filter truthy (map strip (split LF s)))) ->
  c = SP \/ (In c s /\ c <> LF).
Proof.
  intros H. apply join_chars in H. destruct H as [[<-|[]]|(p & Hp & Hc)]; [now left|].
  right. apply filter_In in Hp. destruct Hp as [Hp _].
  apply in_map_iff in Hp. destruct Hp as (l & <- & Hl).
  apply strip_chars in Hc. exact (split_chars _ _ _ _ Hl Hc).
Qed.

(** A stripped text without line feed is its own single line. *)
Lemma joined_lines_fixed s :
  ~ In LF s -> strip s = s ->
  join [SP] (filter truthy (map strip (split LF s))) = s.
Proof.
  intros Hout Hs.
  rewrite (ChunkingFacts.split_without_sep LF s Hout). simpl. rewrite Hs.
  destruct s; reflexivity.
Qed.

(** A stripped text without line feed or double space is tidy. *)
Lemma stripped_tidy y :
  strip y = y -> ~ In LF y -> ~ In CR y -> contains [SP; SP] y = false -> tidy y.
Proof.
  intros Hst Hlf Hcr Hsq. split; [exact Hlf|]. split; [exact Hcr|].
  split; [exact Hsq|]. split.
  - intros c Hc. destruct y as [|a t]; [discriminate|]. injection Hc as ->.
    apply (lstripped_head (c :: t) c t); [|reflexivity].
    rewrite <- Hst. apply strip_lstripped.
  - intros c Hc. apply (rstripped_last y c); [|exact Hc].
    rewrite <- Hst. apply strip_rstripped.
Qed.

(** Lines that end with a line feed and hold none are found again by
    splitting at the line feeds. *)
Lemma split_lines (ls : list str) :
  (forall l, In l ls -> ~ In LF l) ->
  split LF (flat_map (fun l => l ++ [LF]) ls) = ls ++ [[]].
Proof.
  induction ls as [|l ls IH]; intros H; [reflexivity|].
  cbn [flat_map]. rewrite <- app_assoc. cbn [app].
  rewrite ChunkingFacts.split_at_sep.
  rewrite ChunkingFacts.split_without_sep by (apply H; now left).
  rewrite IH by (intros l' Hl'; apply H; now right). reflexivity.
Qed.

End StrFacts.

(* ================================================================== *)
(** * The flat-file path: documents, containers and rotation *)
(* ================================================================== *)

Module LegacyFacts.
Import Legacy.

Lemma fold_writerow rows' : forall w,
  fold_left writerow rows' w = {| file_index := file_index w; rows := rows w ++ rows' |}.
Proof.
  induction rows' as [|r rs IH]; intros w; simpl.
  - rewrite app_nil_r. destruct w; reflexivity.
  - rewrite IH. simpl. rewrite <- app_assoc. reflexivity.
Qed.

Lemma derive_ids_ok path :
  exists doc_id, derive_ids_from_path path = Ok (doc_id, parent_name path).
Proof.
  unfold derive_ids_from_path.
  destruct (ChunkingFacts.last_item_total _ (ChunkingFacts.split_not_nil 95%N (stem path)))
    as [d ->].
  eauto.
Qed.

Section WithWorld.
Variable cfg : Config.
Variable encoding : Encoding.
Variable read_text : Path -> str.
Variable csv : Csv.

Local Abbreviation process_file := (process_file cfg encoding read_text).
Local Abbreviation rows_of := (rows_of cfg encoding read_text).
Local Abbreviation main_loop := (main_loop cfg encoding read_text csv).
Local Abbreviation reaches_chunker := (reaches_chunker cfg encoding read_text).
Local Abbreviation runs := (runs cfg encoding read_text).

(** What [process_file] does to a container does not depend on the
    container: it appends the document's rows, or raises. *)
Lemma process_file_appends path w :
  process_file path w =
  match process_file path (open_new_output_file 0) with
  | Ok _ => Ok {| file_index := file_index w; rows := rows w ++ rows_of path |}
  | Raise e => Raise e
  end.
Proof.
  unfold Legacy.rows_of, Legacy.process_file.
  destruct (clean_text (Some (read_text path))) as [|c t] eqn:Ec.
  - simpl. rewrite app_nil_r. destruct w; reflexivity.
  - destruct (derive_ids_ok path) as [d ->]. simpl.
    destruct (len (encode encoding (c :: t)) <? MIN_DOC_TOKENS_SINGLE_CHUNK cfg)%Z.
    + reflexivity.
    + destruct (split_into_token_chunks encoding (c :: t) _ _) as [chunks|e]; simpl.
      * rewrite !fold_writerow. reflexivity.
      * reflexivity.
Qed.

(** A document raises exactly when the settings are unusable and it
    reaches the chunker. *)
Lemma process_file_raises path w :
  (CHUNK_SIZE_TOKENS cfg <= CHUNK_OVERLAP_TOKENS cfg)%Z ->
  reaches_chunker path = true ->
  process_file path w = Raise (ValueError "chunk_overlap must be smaller than chunk_size").
Proof.
  intros Hbad. unfold Legacy.reaches_chunker, Legacy.process_file.
  destruct (clean_text (Some (read_text path))) as [|c t] eqn:Ec; [discriminate|].
  destruct (derive_ids_ok path) as [d ->]. simpl.
  destruct (len (encode encoding (c :: t)) <? MIN_DOC_TOKENS_SINGLE_CHUNK cfg)%Z;
    [discriminate|]. simpl.
  intros Htok.
  rewrite ChunkingFacts.split_raises; [reflexivity| |assumption].
  destruct (encode encoding (c :: t)); [discriminate|discriminate].
Qed.

Lemma process_file_runs path w :
  (0 < CHUNK_SIZE_TOKENS cfg - CHUNK_OVERLAP_TOKENS cfg)%Z \/ reaches_chunker path = false ->
  process_file path w =
  Ok {| file_index := file_index w; rows := rows w ++ rows_of path |}.
Proof.
  intros Hok. rewrite process_file_appends.
  unfold Legacy.reaches_chunker, Legacy.process_file in *.
  destruct (clean_text (Some (read_text path))) as [|c t] eqn:Ec; [reflexivity|].
  destruct (derive_ids_ok path) as [d ->]. simpl in *.
  destruct (len (encode encoding (c :: t)) <? MIN_DOC_TOKENS_SINGLE_CHUNK cfg)%Z;
    [reflexivity|]. simpl in *.
  destruct (encode encoding (c :: t)) as [|tk tks] eqn:Et.
  - rewrite ChunkingFacts.split_no_tokens by assumption. reflexivity.
  - destruct Hok as [Hstep|Hno]; [|discriminate].
    rewrite ChunkingFacts.split_runs by (rewrite ?Et; assumption || discriminate).
    reflexivity.
Qed.

Lemma runs_appends path w :
  runs path = true ->
  process_file path w =
  Ok {| file_index := file_index w; rows := rows w ++ rows_of path |}.
Proof.
  unfold Legacy.runs. intros H. rewrite process_file_appends.
  destruct (Legacy.process_file cfg encoding read_text path (open_new_output_file 0));
    [reflexivity|discriminate].
Qed.

Lemma runs_not path w :
  runs path = false -> exists e, process_file path w = Raise e.
Proof.
  unfold Legacy.runs. intros H. rewrite process_file_appends.
  destruct (Legacy.process_file cfg encoding read_text path (open_new_output_file 0)) as [|e];
    [discriminate|eauto].
Qed.


(** The paths up to the first document that raises. *)
Lemma first_failure (paths : list Path) :
  (forall p, In p paths -> runs p = true) \/
  exists pre p post,
    paths = pre ++ p :: post /\ (forall q, In q pre -> runs q = true) /\ runs p = false.
Proof.
  induction paths as [|a paths IH].
  - left. intros p [].
  - destruct (runs a) eqn:Ea.
    + destruct IH as [Hall|(pre & p & post & -> & Hpre & Hp)].
      * left. intros p [<-|Hp]; auto.
      * right. exists (a :: pre), p, post. split; [reflexivity|]. split; [|exact Hp].
        intros q [<-|Hq]; auto.
    + right. exists [], a, paths. split; [reflexivity|]. split; [intros q []|exact Ea].
Qed.

(** A run of documents that do not raise: the containers then hold, in
    order, the rows of consecutive blocks of documents, the first block
    continuing the container that was open. *)
Lemma main_loop_blocks pre : forall rest closed idx f,
  (forall p, In p pre -> runs p = true) ->
  exists closed' idx' f' b0 bs,
    main_loop (pre ++ rest) closed idx f = main_loop rest closed' idx' f' /\
    concat (b0 :: bs) = pre /\
    map rows (closed' ++ [f']) =
    map rows closed ++ (rows f ++ flat_map rows_of b0) :: map (flat_map rows_of) bs.
Proof.
  induction pre as [|p pre IH]; intros rest closed idx f Hok.
  - exists closed, idx, f, [], []. simpl. rewrite map_app, app_nil_r. auto.
  - simpl. rewrite (runs_appends p f) by (apply Hok; now left).
    set (f1 := {| file_index := file_index f; rows := rows f ++ rows_of p |}).
    assert (Hok' : forall q, In q pre -> runs q = true)
      by (intros q Hq; apply Hok; now right).
    destruct (tell csv f1 >=? MAX_BYTES cfg)%Z.
    + destruct (IH rest (closed ++ [f1]) (idx + 1)%Z (open_new_output_file (idx + 1)) Hok')
        as (closed' & idx' & f' & b0 & bs & Hrun & Hcat & Hrows).
      exists closed', idx', f', [p], (b0 :: bs). split; [exact Hrun|]. split.
      * simpl in *. rewrite Hcat. reflexivity.
      * rewrite Hrows. rewrite map_app. simpl. rewrite app_nil_r, <- app_assoc. reflexivity.
    + destruct (IH rest closed idx f1 Hok')
        as (closed' & idx' & f' & b0 & bs & Hrun & Hcat & Hrows).
      exists closed', idx', f', (p :: b0), bs. split; [exact Hrun|]. split.
      * simpl in *. rewrite Hcat. reflexivity.
      * rewrite Hrows. simpl. rewrite <- app_assoc. reflexivity.
Qed.

(** The same from the start of [main]: the containers hold the rows of
    the documents before [rest], block by block. *)
Lemma main_blocks pre rest :
  (forall p, In p pre -> runs p = true) ->
  exists closed' idx' f' blocks,
    main_loop (pre ++ rest) [] 1 (open_new_output_file 1)
    = main_loop rest closed' idx' f' /\
    concat blocks = pre /\
    map rows (closed' ++ [f']) = map (flat_map rows_of) blocks /\
    concat (map rows (closed' ++ [f'])) = flat_map rows_of pre.
Proof.
  intros Hpre.
  destruct (main_loop_blocks pre rest [] 1%Z (open_new_output_file 1) Hpre)
    as (closed' & idx' & f' & b0 & bs & Hrun & Hcat & Hrows).
  exists closed', idx', f', (b0 :: bs).
  assert (Hblocks : map rows (closed' ++ [f']) = map (flat_map rows_of) (b0 :: bs))
    by (rewrite Hrows; reflexivity).
  repeat split; try assumption.
  rewrite Hblocks. clear - Hcat. rewrite <- Hcat.
  generalize (b0 :: bs). intros blocks.
  induction blocks as [|b blocks IH]; simpl; [reflexivity|].
  rewrite IH, flat_map_app. reflexivity.
Qed.

(** Containers are numbered 1, 2, 3, ... in the order they are opened. *)
Lemma main_loop_numbering paths : forall closed idx f,
  file_index f = idx ->
  idx = Z.of_nat (S (length closed)) ->
  map file_index closed = map Z.of_nat (seq 1 (length closed)) ->
  let out := main_loop paths closed idx f in
  map file_index (files out) = map Z.of_nat (seq 1 (length (files out))).
Proof.
  assert (Hend : forall closed idx f,
    file_index f = idx -> idx = Z.of_nat (S (length closed)) ->
    map file_index closed = map Z.of_nat (seq 1 (length closed)) ->
    map file_index (closed ++ [f]) = map Z.of_nat (seq 1 (length (closed ++ [f])))).
  { intros closed idx f Hf Hidx Hcl.
    rewrite length_app, map_app, Hcl. simpl length.
    rewrite Nat.add_1_r, seq_S, map_app. simpl. rewrite Hf, Hidx. reflexivity. }
  induction paths as [|p paths IH]; intros closed idx f Hf Hidx Hcl; simpl.
  - eapply Hend; eassumption.
  - rewrite process_file_appends.
    destruct (Legacy.process_file cfg encoding read_text p (open_new_output_file 0)); simpl.
    + match goal with |- context [if ?b then _ else _] => destruct b end.
      * apply IH; [reflexivity| |].
        -- rewrite length_app. simpl. lia.
        -- eapply Hend; [|eassumption|eassumption]. simpl. assumption.
      * apply IH; assumption.
    + eapply Hend; eassumption.
Qed.

Lemma chunk_rows_ordinals d g chunks : forall i,
  map chunk_id (chunk_rows d g i chunks) =
  map (fun k => d ++ u "_c" ++ format_03d (i + Z.of_nat k)) (seq 0 (length chunks)).
Proof.
  induction chunks as [|c cs IH]; intros i; simpl; [reflexivity|].
  rewrite Z.add_0_r. f_equal.
  rewrite IH, <- seq_shift, map_map. apply map_ext. intros k.
  replace (i + 1 + Z.of_nat k)%Z with (i + Z.of_nat (S k))%Z by lia. reflexivity.
Qed.

Lemma chunk_rows_length d g chunks : forall i,
  length (chunk_rows d g i chunks) = length chunks.
Proof.
  induction chunks as [|c cs IH]; intros i; simpl; [reflexivity|].
  rewrite IH. reflexivity.
Qed.

(** The chunk ids of a document count up from 1. *)
Lemma rows_of_ordinals path d g :
  derive_ids_from_path path = Ok (d, g) ->
  map chunk_id (rows_of path) =
  map (fun k => d ++ u "_c" ++ format_03d (Z.of_nat k)) (seq 1 (length (rows_of path))).
Proof.
  intros Hd. unfold Legacy.rows_of, Legacy.process_file.
  destruct (clean_text (Some (read_text path))) as [|c t]; [reflexivity|].
  rewrite Hd. simpl.
  destruct (len (encode encoding (c :: t)) <? MIN_DOC_TOKENS_SINGLE_CHUNK cfg)%Z.
  - reflexivity.
  - destruct (split_into_token_chunks encoding (c :: t) _ _) as [chunks|e]; simpl;
      [|reflexivity].
    rewrite fold_writerow. cbn [rows open_new_output_file app].
    rewrite chunk_rows_ordinals, chunk_rows_length.
    rewrite <- seq_shift, map_map. apply map_ext. intros k.
    replace (1 + Z.of_nat k)%Z with (Z.of_nat (S k)) by lia. reflexivity.
Qed.

End WithWorld.

End LegacyFacts.

(* ================================================================== *)
(** * The flat-file cleaner *)
(* ================================================================== *)

Module LegacyClean.
Import Legacy.

(** One pass of [text.replace("  ", " ")], two characters at a time. *)
Lemma squeeze_pair a b t :
  replace two_spaces [SP] (a :: b :: t) =
  if (N.eqb SP a && N.eqb SP b)%bool
  then SP :: replace two_spaces [SP] t
  else a :: replace two_spaces [SP] (b :: t).
Proof.
  unfold replace, two_spaces. cbn [sub_scan]. unfold lit_match at 1.
  cbn [starts_with length]. rewrite andb_true_r.
  destruct (N.eqb SP a && N.eqb SP b)%bool; reflexivity.
Qed.

Lemma squeeze_one a : replace two_spaces [SP] [a] = [a].
Proof.
  unfold replace, two_spaces. cbn [sub_scan]. unfold lit_match.
  cbn [starts_with]. rewrite andb_false_r. reflexivity.
Qed.

Lemma contains_pair a b t :
  contains two_spaces (a :: b :: t) =
  ((N.eqb SP a && N.eqb SP b) || contains two_spaces (b :: t))%bool.
Proof.
  unfold two_spaces. cbn [contains starts_with]. rewrite andb_true_r. reflexivity.
Qed.

(** A pass never lengthens the text, and shortens it when a double space
    is there: the [while] loop ends. *)
Lemma squeeze_shrinks n : forall s,
  (length s <= n)%nat ->
  (length (replace two_spaces [SP] s) <= length s)%nat /\
  (contains two_spaces s = true ->
   (length (replace two_spaces [SP] s) < length s)%nat).
Proof.
  induction n as [|n IH]; intros s Hn.
  - destruct s; [|cbn [length] in Hn; lia]. split; [cbn; lia|discriminate].
  - destruct s as [|a [|b t]].
    + split; [cbn; lia|discriminate].
    + rewrite squeeze_one. split; [lia|].
      unfold two_spaces. cbn [contains starts_with].
      rewrite andb_false_r. discriminate.
    + rewrite squeeze_pair, contains_pair.
      destruct (N.eqb SP a && N.eqb SP b)%bool.
      * destruct (IH t) as [Hle _]; [cbn [length] in Hn; lia|].
        cbn [length]. split; [lia|intros _; lia].
      * destruct (IH (b :: t)) as [Hle Hlt]; [cbn [length] in *; lia|].
        cbn [length orb] in *. split; [lia|]. intros H. apply Hlt in H. lia.
Qed.

Lemma collapse_loop_ends fuel : forall s,
  (length s <= fuel)%nat -> contains two_spaces (collapse_loop fuel s) = false.
Proof.
  induction fuel as [|f IH]; intros s Hf; cbn [collapse_loop].
  - destruct s; [reflexivity|cbn [length] in Hf; lia].
  - destruct (contains two_spaces s) eqn:E; [|exact E].
    apply IH. destruct (squeeze_shrinks (length s) s (le_n _)) as [_ Hlt].
    apply Hlt in E. lia.
Qed.

Lemma collapse_loop_fixed fuel s :
  contains two_spaces s = false -> collapse_loop fuel s = s.
Proof.
  intros E. destruct fuel; simpl; [reflexivity|]. rewrite E. reflexivity.
Qed.

Lemma collapse_loop_chars fuel : forall s c,
  In c (collapse_loop fuel s) -> c = SP \/ In c s.
Proof.
  induction fuel as [|f IH]; intros s c; cbn [collapse_loop]; [auto|].
  destruct (contains two_spaces s); [|auto].
  intros H. destruct (IH _ _ H) as [->|H']; [now left|].
  apply StrFacts.replace_chars in H'. destruct H' as [[<-|[]]|H']; auto.
Qed.

(** The text after the two line-break replacements has no carriage
    return. *)
Lemma normalized_breaks s : ~ In CR (replace [CR] [LF] (replace [CR; LF] [LF] s)).
Proof.
  apply StrFacts.replace_char_removes. intros [H|[]]. discriminate H.
Qed.

Lemma clean_text_chars x c :
  In c (clean_text (Some x)) -> c <> LF /\ c <> CR.
Proof.
  unfold clean_text. intros H.
  apply StrFacts.strip_chars in H.
  apply collapse_loop_chars in H. destruct H as [->|H]; [split; discriminate|].
  apply StrFacts.joined_lines_chars in H. destruct H as [->|[H Hlf]]; [split; discriminate|].
  split; [exact Hlf|]. intros ->. exact (normalized_breaks x H).
Qed.

Lemma clean_text_squeezed x : contains two_spaces (clean_text x) = false.
Proof.
  destruct x as [x|]; [|reflexivity]. unfold clean_text.
  apply StrFacts.strip_keeps_absence; [discriminate|].
  apply collapse_loop_ends. apply le_n.
Qed.

Lemma clean_text_stripped x : strip (clean_text x) = clean_text x.
Proof.
  destruct x as [x|]; [|reflexivity]. unfold clean_text. apply StrFacts.strip_idem.
Qed.

Lemma clean_text_idempotent x :
  clean_text (Some (clean_text x)) = clean_text x.
Proof.
  destruct x as [x|]; [|reflexivity].
  set (y := clean_text (Some x)).
  assert (Hlf : ~ In LF y) by (intros H; apply clean_text_chars in H; tauto).
  assert (Hcr : ~ In CR y) by (intros H; apply clean_text_chars in H; tauto).
  pose proof (clean_text_squeezed (Some x)) as Hsq. fold y in Hsq.
  pose proof (clean_text_stripped (Some x)) as Hst. fold y in Hst.
  unfold clean_text at 1.
  rewrite (StrFacts.replace_absent CR [LF] [LF] y Hcr).
  rewrite (StrFacts.replace_absent CR [] [LF] y Hcr).
  rewrite (StrFacts.joined_lines_fixed y Hlf Hst).
  rewrite (collapse_loop_fixed _ y Hsq).
  exact Hst.
Qed.

End LegacyClean.

(* ================================================================== *)
(** * The upload path: chunk objects and the replay file *)
(* ================================================================== *)

Module JsonFacts.
Import Json.

Lemma hex_digit_printable n : (48 <= hex_digit n)%N.
Proof.
  unfold hex_digit. destruct (N.ltb_spec n 10); lia.
Qed.

(** An escaped character holds no raw line feed. *)
Lemma escape_char_one_line c : ~ In LF (escape_char c).
Proof.
  unfold escape_char, LF.
  destruct (N.eqb_spec c 34); [not_among_literals|].
  destruct (N.eqb_spec c 92); [not_among_literals|].
  destruct (N.eqb_spec c 10) as [|Hlf]; [not_among_literals|].
  destruct (N.eqb_spec c 13); [not_among_literals|].
  destruct (N.eqb_spec c 9); [not_among_literals|].
  destruct (N.eqb_spec c 8); [not_among_literals|].
  destruct (N.eqb_spec c 12); [not_among_literals|].
  destruct (N.ltb_spec c 32).
  - pose proof (hex_digit_printable (c / 16)).
    pose proof (hex_digit_printable (c mod 16)).
    cbn [In]. intros Hin.
    repeat (destruct Hin as [Hin|Hin]; [discriminate Hin || lia|]).
    exact Hin.
  - intros [Hin|[]]. congruence.
Qed.

Lemma dumps_str_one_line s : ~ In LF (dumps_str s).
Proof.
  unfold dumps_str. intros H. apply in_app_or in H. destruct H as [[H|[]]|H]; [discriminate H|].
  apply in_app_or in H. destruct H as [H|[H|[]]]; [|discriminate H].
  apply in_flat_map in H. destruct H as (c & _ & Hc).
  exact (escape_char_one_line c Hc).
Qed.

(** [json.dumps] writes a record on one line. *)
Lemma dumps_one_line obj : ~ In LF (dumps obj).
Proof.
  unfold dumps. intros H. apply in_app_or in H. destruct H as [[H|[]]|H]; [discriminate H|].
  apply in_app_or in H. destruct H as [H|[H|[]]]; [|discriminate H].
  apply StrFacts.join_chars in H.
  destruct H as [H|(p & Hp & Hc)].
  - repeat destruct H as [H|H]; try discriminate H; contradiction.
  - apply in_map_iff in Hp. destruct Hp as (kv & <- & _).
    unfold dumps_item in Hc. apply in_app_or in Hc. destruct Hc as [Hc|Hc].
    + exact (dumps_str_one_line _ Hc).
    + apply in_app_or in Hc. destruct Hc as [Hc|Hc].
      * repeat destruct Hc as [Hc|Hc]; try discriminate Hc; contradiction.
      * exact (dumps_str_one_line _ Hc).
Qed.

End JsonFacts.

Module UploadFacts.
Import Upload.

(** The loop hands every object to the batch, in order, and counts it. *)
Lemma upload_loop_adds objs : forall st,
  added (upload_loop objs st) = added st ++ objs /\
  uploaded (upload_loop objs st) = (uploaded st + len objs)%Z.
Proof.
  unfold len. induction objs as [|obj rest IH]; intros st; cbn [upload_loop].
  - rewrite app_nil_r. cbn [length]. split; [reflexivity|lia].
  - destruct ((uploaded st + 1) mod BATCH_SIZE =? 0)%Z;
      match goal with
      | |- context [upload_loop rest ?st'] => destruct (IH st') as [Ha Hu]
      end;
      rewrite Ha, Hu; cbn [added uploaded length];
      rewrite <- app_assoc; split; try reflexivity; lia.
Qed.

Section WithWorld.
Variable nonascii_decimal : char -> bool.
Variable cfg : Config.
Variable encoding : Encoding.
Variable read_text : Path -> str.
Variable remote : Remote.

Local Abbreviation generate := (generate_chunk_objects_from_file nonascii_decimal cfg encoding read_text).
Local Abbreviation iter_all := (iter_all_chunk_objects nonascii_decimal cfg encoding read_text).
Local Abbreviation reaches := (reaches_chunker nonascii_decimal cfg encoding read_text).

Lemma generate_raises path :
  (CHUNK_SIZE_TOKENS cfg <= CHUNK_OVERLAP_TOKENS cfg)%Z ->
  reaches path = true ->
  generate path = Raise (ValueError "chunk_overlap must be smaller than chunk_size").
Proof.
  intros Hbad. unfold Upload.reaches_chunker, Upload.generate_chunk_objects_from_file.
  destruct (clean_text nonascii_decimal (Some (read_text path))) as [|c t];
    [discriminate|].
  cbn [truthy andb].
  destruct (len (split_ws (c :: t)) <? MIN_WORDS_PER_DOC cfg)%Z; [discriminate|].
  destruct (LegacyFacts.derive_ids_ok path) as [d ->].
  cbn [bind negb andb].
  destruct (len (encode encoding (c :: t)) <? MIN_DOC_TOKENS_SINGLE_CHUNK cfg)%Z;
    [discriminate|].
  cbn [negb andb]. intros Htok.
  rewrite ChunkingFacts.split_raises; [reflexivity| |assumption].
  destruct (encode encoding (c :: t)); discriminate.
Qed.

Lemma generate_runs path :
  (0 < CHUNK_SIZE_TOKENS cfg - CHUNK_OVERLAP_TOKENS cfg)%Z \/ reaches path = false ->
  exists objs, generate path = Ok objs.
Proof.
  unfold Upload.reaches_chunker, Upload.generate_chunk_objects_from_file.
  destruct (clean_text nonascii_decimal (Some (read_text path))) as [|c t];
    [eauto|].
  cbn [truthy andb].
  destruct (len (split_ws (c :: t)) <? MIN_WORDS_PER_DOC cfg)%Z; [eauto|].
  destruct (LegacyFacts.derive_ids_ok path) as [d ->].
  cbn [bind negb andb].
  destruct (len (encode encoding (c :: t)) <? MIN_DOC_TOKENS_SINGLE_CHUNK cfg)%Z;
    [eauto|].
  cbn [negb andb]. intros Hok.
  destruct (encode encoding (c :: t)) as [|tk tks] eqn:Et.
  - rewrite ChunkingFacts.split_no_tokens by assumption. simpl. eauto.
  - destruct Hok as [Hstep|Hno]; [|discriminate].
    rewrite ChunkingFacts.split_runs by (rewrite ?Et; assumption || discriminate).
    simpl. eauto.
Qed.



End WithWorld.

End UploadFacts.

(* ================================================================== *)
(** * The upload cleaner *)
(* ================================================================== *)

Module UploadClean.
Import Upload.

Lemma drop_while_shorter p s : (length (drop_while p s) <= length s)%nat.
Proof.
  induction s as [|c t IH]; cbn [drop_while length]; [lia|].
  destruct (p c); cbn [length]; lia.
Qed.

Lemma drop_while_skips p s :
  skipn (length s - length (drop_while p s)) s = drop_while p s.
Proof.
  induction s as [|c t IH]; cbn [drop_while length]; [reflexivity|].
  destruct (p c).
  - pose proof (drop_while_shorter p t).
    rewrite Nat.sub_succ_l by assumption. cbn [skipn]. exact IH.
  - cbn [length]. rewrite Nat.sub_diag. reflexivity.
Qed.

Lemma drop_while_head p s c t : drop_while p s = c :: t -> p c = false.
Proof.
  induction s as [|a s IH]; cbn [drop_while]; [discriminate|].
  destruct (p a) eqn:Ea; [assumption|].
  intros [= <- <-]. assumption.
Qed.

Lemma drop_while_fixed p s :
  match s with c :: _ => p c = false | [] => True end -> drop_while p s = s.
Proof.
  destruct s as [|c t]; cbn [drop_while]; [reflexivity|].
  intros ->. reflexivity.
Qed.

(** ** [re.sub(r"\s+", " ", text)] *)

Lemma whitespace_sub_cons c t :
  re_sub WHITESPACE_RUN [SP] (c :: t) =
  if isspace c
  then SP :: re_sub WHITESPACE_RUN [SP] (drop_while isspace t)
  else c :: re_sub WHITESPACE_RUN [SP] t.
Proof.
  unfold re_sub. cbn [sub_scan]. unfold WHITESPACE_RUN at 1.
  cbn [drop_while]. destruct (isspace c).
  - pose proof (drop_while_shorter isspace t).
    cbn [length]. rewrite Nat.sub_succ_l by assumption.
    rewrite StrFacts.sub_scan_skip, drop_while_skips. reflexivity.
  - rewrite Nat.sub_diag. reflexivity.
Qed.

Lemma whitespace_sub_spaced n : forall s,
  (length s <= n)%nat -> single_spaced (re_sub WHITESPACE_RUN [SP] s) = true.
Proof.
  induction n as [|n IH]; intros s Hn.
  - destruct s; [reflexivity|cbn [length] in Hn; lia].
  - destruct s as [|c t]; [reflexivity|].
    cbn [length] in Hn. rewrite whitespace_sub_cons.
    destruct (isspace c) eqn:Ec.
    + pose proof (drop_while_shorter isspace t) as Hsh.
      cbn [single_spaced]. change (isspace SP) with true. cbn [N.eqb SP Pos.eqb andb].
      rewrite IH by lia. rewrite andb_true_r.
      destruct (drop_while isspace t) as [|d t'] eqn:Ed; [reflexivity|].
      pose proof (drop_while_head _ _ _ _ Ed) as Hd.
      rewrite whitespace_sub_cons, Hd. cbn [negb]. rewrite Hd. reflexivity.
    + cbn [single_spaced]. rewrite Ec. rewrite IH by lia. reflexivity.
Qed.

Lemma whitespace_sub_fixed s :
  single_spaced s = true -> re_sub WHITESPACE_RUN [SP] s = s.
Proof.
  induction s as [|c t IH]; [reflexivity|].
  cbn [single_spaced]. intros H. apply andb_true_iff in H. destruct H as [Hc Ht].
  rewrite whitespace_sub_cons. destruct (isspace c).
  - apply andb_true_iff in Hc. destruct Hc as [Hc Hnext].
    apply N.eqb_eq in Hc. subst c.
    rewrite drop_while_fixed.
    + rewrite IH by assumption. reflexivity.
    + destruct t as [|d t']; [exact I|].
      apply negb_true_iff in Hnext. exact Hnext.
  - rewrite IH by assumption. reflexivity.
Qed.

(** ** Single-spaced texts *)

Lemma spaced_whitespace s c :
  single_spaced s = true -> In c s -> isspace c = true -> c = SP.
Proof.
  induction s as [|a t IH]; [intros _ []|].
  cbn [single_spaced]. intros H. apply andb_true_iff in H. destruct H as [Ha Ht].
  intros [<-|Hin] Hc; [|exact (IH Ht Hin Hc)].
  rewrite Hc in Ha. apply andb_true_iff in Ha. destruct Ha as [Ha _].
  apply N.eqb_eq in Ha. exact Ha.
Qed.

Lemma spaced_no_double_space s :
  single_spaced s = true -> contains [SP; SP] s = false.
Proof.
  induction s as [|a t IH]; [reflexivity|].
  cbn [single_spaced]. intros H. apply andb_true_iff in H. destruct H as [Ha Ht].
  cbn [contains]. rewrite (IH Ht), orb_false_r.
  cbn [starts_with]. destruct (N.eqb_spec SP a) as [<-|Hne]; [|reflexivity].
  change (isspace SP) with true in Ha. cbn [andb].
  destruct t as [|d t']; [reflexivity|].
  cbn [starts_with]. destruct (N.eqb_spec SP d) as [<-|Hd]; [|reflexivity].
  change (isspace SP) with true in Ha. rewrite andb_false_r in Ha. discriminate.
Qed.

Lemma spaced_suffix pre s : single_spaced (pre ++ s) = true -> single_spaced s = true.
Proof.
  induction pre as [|c pre IH]; [auto|].
  cbn [app single_spaced]. intros H. apply andb_true_iff in H. tauto.
Qed.

Lemma spaced_prefix s suf : single_spaced (s ++ suf) = true -> single_spaced s = true.
Proof.
  induction s as [|c t IH]; [reflexivity|].
  cbn [app single_spaced]. intros H. apply andb_true_iff in H. destruct H as [Hc Ht].
  rewrite (IH Ht), andb_true_r.
  destruct (isspace c); [|reflexivity].
  apply andb_true_iff in Hc. destruct Hc as [-> Hn].
  destruct t; [reflexivity|exact Hn].
Qed.

Lemma strip_keeps_spaced s : single_spaced s = true -> single_spaced (strip s) = true.
Proof.
  destruct (StrFacts.strip_cuts s) as (pre & suf & Hs). intros H.
  rewrite Hs in H. apply spaced_suffix in H. apply spaced_prefix in H. exact H.
Qed.

(** ** [OCR_JUNK_PATTERN.sub(" ", text)] *)

Lemma junk_sub s :
  re_sub OCR_JUNK_PATTERN [SP] s = map (fun c => if allowed c then c else SP) s.
Proof.
  unfold re_sub. induction s as [|c t IH]; [reflexivity|].
  cbn [sub_scan map OCR_JUNK_PATTERN]. destruct (allowed c); cbn [app]; rewrite IH; reflexivity.
Qed.

Lemma junk_sub_allowed s c : In c (re_sub OCR_JUNK_PATTERN [SP] s) -> allowed c = true.
Proof.
  rewrite junk_sub. intros H. apply in_map_iff in H. destruct H as (a & <- & _).
  destruct (allowed a) eqn:Ea; [exact Ea|reflexivity].
Qed.

Lemma junk_sub_fixed s :
  (forall c, In c s -> allowed c = true) -> re_sub OCR_JUNK_PATTERN [SP] s = s.
Proof.
  intros H. rewrite junk_sub. induction s as [|c t IH]; [reflexivity|].
  cbn [map]. rewrite (H c (or_introl eq_refl)), IH; [reflexivity|].
  intros d Hd. apply H. now right.
Qed.

(** The quote replacements come after the junk removal and find nothing:
    no curly quote is on the allow-list. *)
Lemma quotes_fixed s :
  (forall c, In c s -> allowed c = true) ->
  replace [RDQUO] [QUOTE] (replace [LDQUO] [QUOTE] (replace [RSQUO] [APOS] s)) = s.
Proof.
  intros H.
  assert (Hout : forall q, allowed q = false -> ~ In q s).
  { intros q Hq Hin. rewrite (H q Hin) in Hq. discriminate. }
  rewrite (StrFacts.replace_absent RSQUO [] [APOS] s) by (apply Hout; reflexivity).
  rewrite (StrFacts.replace_absent LDQUO [] [QUOTE] s) by (apply Hout; reflexivity).
  rewrite (StrFacts.replace_absent RDQUO [] [QUOTE] s) by (apply Hout; reflexivity).
  reflexivity.
Qed.

Section WithDigits.
Variable nonascii_decimal : char -> bool.

Local Abbreviation clean_text := (clean_text nonascii_decimal).
Local Abbreviation PAGE_MARKER_PATTERN := (PAGE_MARKER_PATTERN nonascii_decimal).
Local Abbreviation has_page_marker := (has_page_marker nonascii_decimal).

Lemma cleaned_spaced x : single_spaced (clean_text x) = true.
Proof.
  destruct x as [x|]; [|reflexivity]. unfold Upload.clean_text.
  apply strip_keeps_spaced. eapply whitespace_sub_spaced. apply le_n.
Qed.

Lemma cleaned_stripped x : strip (clean_text x) = clean_text x.
Proof.
  destruct x as [x|]; [|reflexivity]. unfold Upload.clean_text. apply StrFacts.strip_idem.
Qed.

Lemma cleaned_allowed x c : In c (clean_text x) -> allowed c = true.
Proof.
  destruct x as [x|]; [|intros []]. unfold Upload.clean_text. intros H.
  apply StrFacts.strip_chars in H.
  apply StrFacts.sub_scan_chars in H. destruct H as [[<-|[]]|H]; [reflexivity|].
  rewrite quotes_fixed in H by apply junk_sub_allowed.
  exact (junk_sub_allowed _ _ H).
Qed.

Lemma no_marker_matchless s :
  has_page_marker s = false -> matchless PAGE_MARKER_PATTERN s.
Proof.
  induction s as [|c t IH]; intros H pre suf n E.
  - destruct pre; [|discriminate]. simpl in E. subst suf. discriminate.
  - cbn [Upload.has_page_marker] in H.
    destruct pre as [|a pre]; simpl in E.
    + subst suf. intros Hm. rewrite Hm in H. discriminate.
    + injection E as Ea E. subst a.
      apply (IH) with (pre := pre) (n := n); [|exact E].
      destruct (PAGE_MARKER_PATTERN (c :: t)) as [[|k]|]; [exact H|discriminate|exact H].
Qed.

(** Cleaning a cleaned text that holds no page marker changes nothing. *)
Lemma cleaned_fixed x :
  has_page_marker (clean_text x) = false ->
  clean_text (Some (clean_text x)) = clean_text x.
Proof.
  set (y := clean_text x). intros Hpage.
  pose proof (cleaned_spaced x) as Hsp. fold y in Hsp.
  pose proof (cleaned_stripped x) as Hst. fold y in Hst.
  assert (Hal : forall c, In c y -> allowed c = true) by (apply cleaned_allowed).
  assert (Hws : forall c, isspace c = true -> c <> SP -> ~ In c y).
  { intros c Hc Hne Hin. apply Hne. exact (spaced_whitespace y c Hsp Hin Hc). }
  assert (Hcr : ~ In CR y) by (apply Hws; [reflexivity|discriminate]).
  assert (Hlf : ~ In LF y) by (apply Hws; [reflexivity|discriminate]).
  assert (Hff : ~ In FF y) by (apply Hws; [reflexivity|discriminate]).
  unfold Upload.clean_text at 1.
  rewrite (StrFacts.replace_absent CR [LF] [LF] y Hcr).
  rewrite (StrFacts.replace_absent CR [] [LF] y Hcr).
  rewrite (StrFacts.replace_absent FF [] [SP] y Hff).
  rewrite (StrFacts.joined_lines_fixed y Hlf Hst).
  unfold re_sub at 3.
  rewrite (StrFacts.sub_scan_matchless _ [SP] y (no_marker_matchless y Hpage)).
  rewrite (junk_sub_fixed y Hal).
  rewrite (quotes_fixed y Hal).
  rewrite (whitespace_sub_fixed y Hsp).
  exact Hst.
Qed.

End WithDigits.

End UploadClean.

(* ================================================================== *)
(** * The windows of the chunker, one by one *)
(* ================================================================== *)

Module WindowFacts.

(** A slice that starts in the list or at its end. *)
Lemma slice_from {A} (l : list A) (i j : Z) :
  (0 <= i <= len l)%Z -> (i <= j)%Z ->
  slice l i j = firstn (Z.to_nat (Z.min j (len l) - i)) (skipn (Z.to_nat i) l).
Proof.
  intros Hi Hj. unfold slice, clip_index.
  destruct (Z.ltb_spec i 0); [lia|].
  destruct (Z.ltb_spec j 0); [lia|].
  rewrite (Z.min_l i) by lia.
  destruct (Z.ltb_spec i (Z.min j (len l))); [reflexivity|].
  replace (Z.to_nat (Z.min j (len l) - i)) with 0%nat by lia. reflexivity.
Qed.

Lemma slice_length {A} (l : list A) (i j : Z) :
  (0 <= i <= len l)%Z -> (i <= j)%Z ->
  len (slice l i j) = (Z.min j (len l) - i)%Z.
Proof.
  intros Hi Hj. rewrite slice_from by assumption.
  unfold len in *. rewrite length_firstn, length_skipn. lia.
Qed.

Section WithEncoding.
Variable encoding : Encoding.

(** With a positive window size every start offset of the loop yields. *)
Lemma yields_are_windows tokens chunk_size step :
  (0 < chunk_size)%Z -> (0 < step)%Z ->
  flat_map (yield_window encoding tokens chunk_size) (range 0 (len tokens) step)
  = map (fun start => decode encoding (window tokens chunk_size start))
        (range 0 (len tokens) step).
Proof.
  intros Hc Hs.
  assert (H : forall starts,
    (forall s, In s starts -> (0 <= s < len tokens)%Z) ->
    flat_map (yield_window encoding tokens chunk_size) starts
    = map (fun start => decode encoding (window tokens chunk_size start)) starts).
  { induction starts as [|s starts IH]; intros Hin; [reflexivity|].
    cbn [flat_map map].
    rewrite ChunkingFacts.yield_window_inside by (assumption || (apply Hin; now left)).
    rewrite IH by (intros x Hx; apply Hin; now right). reflexivity. }
  apply H. intros s Hin. apply PyFacts.range_loop_bounds in Hin; assumption.
Qed.

(** The chunks are the decoded windows at the loop's start offsets. *)
Lemma split_is_windows text chunk_size chunk_overlap :
  (0 < chunk_size)%Z -> (0 < chunk_size - chunk_overlap)%Z ->
  split_into_token_chunks encoding text chunk_size chunk_overlap
  = Ok (map (fun start => decode encoding (window (encode encoding text) chunk_size start))
          (range 0 (len (encode encoding text)) (chunk_size - chunk_overlap))).
Proof.
  intros Hsize Hstep.
  destruct (encode encoding text) as [|t ts] eqn:E.
  - rewrite ChunkingFacts.split_no_tokens by assumption. reflexivity.
  - rewrite <- E.
    rewrite ChunkingFacts.split_runs by (rewrite ?E; assumption || discriminate).
    rewrite yields_are_windows by assumption. reflexivity.
Qed.

End WithEncoding.

(** The first [step] tokens of the window at [start] are the [step]
    tokens from [start] on, when the window is at least a step wide. *)
Lemma window_step_prefix (tokens : list token) chunk_size step start :
  (0 < step <= chunk_size)%Z -> (0 <= start < len tokens)%Z ->
  firstn (Z.to_nat step) (window tokens chunk_size start)
  = firstn (Z.to_nat step) (skipn (Z.to_nat start) tokens).
Proof.
  intros Hs Hin. unfold window. rewrite slice_from by lia.
  rewrite firstn_firstn.
  set (rest := skipn (Z.to_nat start) tokens).
  assert (Hlen : length rest = Z.to_nat (len tokens - start)).
  { subst rest. rewrite length_skipn. unfold len. lia. }
  destruct (Z.le_gt_cases (start + chunk_size) (len tokens)) as [Hfull|Hend].
  - rewrite Z.min_l by lia. f_equal. lia.
  - rewrite Z.min_r by lia.
    destruct (Z.le_gt_cases step (len tokens - start)) as [Hle|Hgt].
    + f_equal. lia.
    + rewrite Nat.min_r by lia.
      rewrite !firstn_all2 by lia. reflexivity.
Qed.

(** Walking the starts and taking a step of tokens at each gives the
    tokens back. *)
Lemma steps_rebuild {A} (l : list A) step fuel : forall i,
  (0 < step)%Z -> (0 <= i)%Z -> (len l - i <= Z.of_nat fuel)%Z ->
  flat_map (fun start => firstn (Z.to_nat step) (skipn (Z.to_nat start) l))
    (range_loop fuel i (len l) step)
  = skipn (Z.to_nat i) l.
Proof.
  induction fuel as [|f IH]; intros i Hs Hi Hf; cbn [range_loop flat_map].
  - rewrite skipn_all2 by (unfold len in Hf; lia). reflexivity.
  - destruct (Z.ltb_spec i (len l)) as [Hlt|Hge].
    + cbn [flat_map]. rewrite IH by lia.
      replace (Z.to_nat (i + step)) with (Z.to_nat step + Z.to_nat i)%nat by lia.
      rewrite <- skipn_skipn. apply firstn_skipn.
    + rewrite skipn_all2 by (unfold len in Hge; lia). reflexivity.
Qed.

End WindowFacts.

(* ================================================================== *)
(** * Zero-padded ordinals *)
(* ================================================================== *)

Module DecimalFacts.

Lemma int_of_digits_app ds d :
  int_of_digits (ds ++ [d]) = (10 * int_of_digits ds + (d - 48))%N.
Proof. unfold int_of_digits. rewrite fold_left_app. reflexivity. Qed.

Lemma digits_go_step f n acc :
  digits_go (S f) n acc =
  if (n / 10 =? 0)%N then (48 + n mod 10)%N :: acc
  else digits_go f (n / 10)%N ((48 + n mod 10)%N :: acc).
Proof. reflexivity. Qed.

(** With fuel for every binary digit, the loop puts the decimal digits of
    [n] in front of the accumulator, no more of them than [n] needs. *)
Lemma digits_go_value fuel : forall n acc,
  (n < 2 ^ N.of_nat (S fuel))%N ->
  exists ds,
    digits_go (S fuel) n acc = ds ++ acc /\ int_of_digits ds = n /\
    Forall (fun d => (48 <= d <= 57)%N) ds /\
    (1 <= length ds)%nat /\
    forall k, (n < 10 ^ N.of_nat (S k))%N -> (length ds <= S k)%nat.
Proof.
  assert (Hone : forall n acc,
    (n < 10)%N ->
    exists ds,
      (48 + n)%N :: acc = ds ++ acc /\ int_of_digits ds = n /\
      Forall (fun d => (48 <= d <= 57)%N) ds /\
      (1 <= length ds)%nat /\
      forall k, (n < 10 ^ N.of_nat (S k))%N -> (length ds <= S k)%nat).
  { intros n acc Hn. exists [(48 + n)%N]. split; [reflexivity|].
    split; [unfold int_of_digits; cbn [fold_left]; lia|].
    split; [constructor; [lia|constructor]|].
    split; [cbn; lia|]. intros k _. cbn. lia. }
  induction fuel as [|f IH]; intros n acc Hn; rewrite digits_go_step;
    pose proof (N.div_mod n 10 ltac:(lia)) as Hdm;
    assert (Hr : (n mod 10 < 10)%N) by (apply N.mod_lt; lia);
    assert (Hq : forall m, (n < 10 * m)%N -> (n / 10 < m)%N)
      by (intros m Hm; apply N.Div0.div_lt_upper_bound; exact Hm);
    remember (n / 10)%N as q eqn:Eq; remember (n mod 10)%N as r eqn:Er;
    clear Eq Er.
  - assert (Hz : q = 0%N) by (specialize (Hq 1%N); cbn in Hn; lia).
    subst q. cbn [N.eqb].
    replace n with r by lia. apply Hone. exact Hr.
  - destruct (N.eqb_spec q 0) as [Hz|Hnz].
    + subst q. replace n with r by lia. apply Hone. exact Hr.
    + destruct (IH q ((48 + r)%N :: acc)) as (ds & Hgo & Hval & Hall & Hlen & Hshort).
      { apply Hq. rewrite (Nat2N.inj_succ (S f)), N.pow_succ_r' in Hn. lia. }
      exists (ds ++ [(48 + r)%N]). split.
      * rewrite Hgo, <- app_assoc. reflexivity.
      * split; [rewrite int_of_digits_app, Hval; lia|].
        split; [apply Forall_app; split; [assumption|]; constructor; [lia|constructor]|].
        rewrite length_app. cbn [length]. split; [lia|].
        intros k Hk. destruct k as [|k].
        -- exfalso. cbn in Hk. lia.
        -- assert (length ds <= S k)%nat; [|lia].
           apply Hshort. apply Hq.
           rewrite (Nat2N.inj_succ (S k)), N.pow_succ_r' in Hk. exact Hk.
Qed.

Lemma decimal_value n :
  int_of_digits (decimal n) = n /\
  Forall (fun d => (48 <= d <= 57)%N) (decimal n) /\
  (1 <= length (decimal n))%nat /\
  forall k, (n < 10 ^ N.of_nat (S k))%N -> (length (decimal n) <= S k)%nat.
Proof.
  unfold decimal.
  destruct (digits_go_value (N.to_nat (N.log2 n)) n [])
    as (ds & Hgo & Hval & Hall & Hlen & Hshort).
  - rewrite Nat2N.inj_succ, N2Nat.id.
    destruct (N.eq_dec n 0) as [->|Hpos]; [cbn; lia|].
    apply N.log2_spec. lia.
  - rewrite Hgo, app_nil_r. auto.
Qed.

Lemma int_of_digits_zeros k ds :
  int_of_digits (repeat 48%N k ++ ds) = int_of_digits ds.
Proof.
  unfold int_of_digits. rewrite fold_left_app. f_equal.
  induction k as [|k IH]; [reflexivity|]. cbn [repeat fold_left]. exact IH.
Qed.

(** The ordinal is read back from its zero-padded form. *)
Lemma format_03d_value n :
  (0 <= n)%Z -> int_of_digits (format_03d n) = Z.to_N n.
Proof.
  intros Hn. unfold format_03d.
  destruct (Z.ltb_spec n 0); [lia|]. cbn [app length].
  rewrite int_of_digits_zeros.
  rewrite (proj1 (decimal_value _)). f_equal. lia.
Qed.

Lemma format_03d_injective a b :
  (0 <= a)%Z -> (0 <= b)%Z -> format_03d a = format_03d b -> a = b.
Proof.
  intros Ha Hb E. apply (f_equal int_of_digits) in E.
  rewrite !format_03d_value in E by assumption. lia.
Qed.

Lemma format_03d_width n :
  (0 <= n)%Z ->
  (3 <= length (format_03d n))%nat /\
  ((n < 1000)%Z -> length (format_03d n) = 3%nat) /\
  Forall (fun d => (48 <= d <= 57)%N) (format_03d n).
Proof.
  intros Hn. unfold format_03d.
  destruct (Z.ltb_spec n 0); [lia|]. cbn [app length].
  destruct (decimal_value (Z.to_N (Z.abs n))) as (Hval & Hall & Hlen & Hshort).
  rewrite length_app, repeat_length. change char with N in *.
  split; [lia|]. split.
  - intros Hlt.
    pose proof (Hshort 2%nat ltac:(cbn; lia)) as Hm. lia.
  - apply Forall_app. split; [|assumption].
    apply Forall_forall. intros d Hd. apply repeat_spec in Hd. subst d. lia.
Qed.

End DecimalFacts.

(* ================================================================== *)
(** * Chunk identifiers *)
(* ================================================================== *)

Module IdFacts.

Lemma NoDup_map_injective {A B} (f : A -> B) (l : list A) :
  (forall x y, In x l -> In y l -> f x = f y -> x = y) ->
  NoDup l -> NoDup (map f l).
Proof.
  intros Hinj Hnd. induction Hnd as [|a l Hout Hnd IH]; cbn [map]; constructor.
  - intros Hin. apply in_map_iff in Hin. destruct Hin as (b & Hfb & Hb).
    assert (b = a) by (apply Hinj; [now right|now left|exact Hfb]).
    subst b. contradiction.
  - apply IH. intros x y Hx Hy. apply Hinj; now right.
Qed.

Lemma nth_error_seq n : forall a k j,
  nth_error (seq a n) k = Some j -> j = (a + k)%nat.
Proof.
  induction n as [|n IH]; intros a [|k] j; cbn [seq nth_error]; try discriminate.
  - intros [= <-]. lia.
  - intros H. apply IH in H. lia.
Qed.

(** Ids of different ordinals differ. *)
Lemma ordinal_ids_distinct (d : str) n :
  NoDup (map (fun k => d ++ u "_c" ++ format_03d (Z.of_nat k)) (seq 1 n)).
Proof.
  apply NoDup_map_injective; [|apply seq_NoDup].
  intros x y _ _ E. apply app_inv_head in E. apply app_inv_head in E.
  apply DecimalFacts.format_03d_injective in E; lia.
Qed.

Lemma dict_get_chunk_id d c g t :
  dict_get (u "chunk_id") (Upload.chunk_object d c g t) = Some c.
Proof.
  unfold Upload.chunk_object. cbn [dict_get].
  destruct (list_eq_dec N.eq_dec (u "doc_id") (u "chunk_id")) as [E|_];
    [discriminate E|].
  destruct (list_eq_dec N.eq_dec (u "chunk_id") (u "chunk_id")) as [_|E];
    [reflexivity|contradiction].
Qed.

Lemma chunk_objects_ordinals d g chunks : forall i,
  map (dict_get (u "chunk_id")) (Upload.chunk_objects d g i chunks) =
  map (fun k => Some (d ++ u "_c" ++ format_03d (i + Z.of_nat k))) (seq 0 (length chunks)).
Proof.
  induction chunks as [|c cs IH]; intros i; [reflexivity|].
  cbn [Upload.chunk_objects map length seq].
  rewrite dict_get_chunk_id, Z.add_0_r. f_equal.
  rewrite IH, <- seq_shift, map_map. apply map_ext. intros k.
  replace (i + 1 + Z.of_nat k)%Z with (i + Z.of_nat (S k))%Z by lia. reflexivity.
Qed.

Lemma chunk_objects_length d g chunks : forall i,
  length (Upload.chunk_objects d g i chunks) = length chunks.
Proof.
  induction chunks as [|c cs IH]; intros i; [reflexivity|].
  cbn [Upload.chunk_objects length]. rewrite IH. reflexivity.
Qed.

Section WithWorld.
Variable nonascii_decimal : char -> bool.
Variable cfg : Upload.Config.
Variable encoding : Encoding.
Variable read_text : Path -> str.

(** The chunk ids an upload document yields count up from 1. *)
Lemma objects_ordinals path d g objs :
  derive_ids_from_path path = Ok (d, g) ->
  Upload.generate_chunk_objects_from_file nonascii_decimal cfg encoding read_text path
  = Ok objs ->
  map (dict_get (u "chunk_id")) objs =
  map (fun k => Some (d ++ u "_c" ++ format_03d (Z.of_nat k))) (seq 1 (length objs)).
Proof.
  intros Hd. unfold Upload.generate_chunk_objects_from_file.
  destruct (Upload.clean_text nonascii_decimal (Some (read_text path))) as [|c t];
    [intros [= <-]; reflexivity|].
  destruct (len (split_ws (c :: t)) <? Upload.MIN_WORDS_PER_DOC cfg)%Z;
    [intros [= <-]; reflexivity|].
  rewrite Hd. cbn [bind].
  destruct (len (encode encoding (c :: t)) <? Upload.MIN_DOC_TOKENS_SINGLE_CHUNK cfg)%Z.
  - intros [= <-]. cbn [map length seq]. rewrite dict_get_chunk_id. reflexivity.
  - destruct (split_into_token_chunks encoding (c :: t) _ _) as [chunks|e];
      cbn [bind]; [|discriminate].
    intros [= <-].
    rewrite chunk_objects_ordinals, chunk_objects_length.
    rewrite <- seq_shift, map_map. apply map_ext. intros k.
    replace (1 + Z.of_nat k)%Z with (Z.of_nat (S k)) by lia. reflexivity.
Qed.

End WithWorld.

Lemma map_Some_injective {A} (l1 : list A) : forall l2,
  map Some l1 = map Some l2 -> l1 = l2.
Proof.
  induction l1 as [|a l1 IH]; intros [|b l2]; cbn [map]; try discriminate;
    [reflexivity|].
  intros [= -> H]. f_equal. apply IH. exact H.
Qed.

(** On either path the ids of a document are its [doc_id], ["_c"] and
    the ordinals from 1 on. *)
Lemma chunk_ids_shape lcfg ucfg encoding read_text nonascii_decimal path d g ids :
  derive_ids_from_path path = Ok (d, g) ->
  chunk_ids_of lcfg ucfg encoding read_text nonascii_decimal path ids ->
  ids = map (fun k => d ++ u "_c" ++ format_03d (Z.of_nat k)) (seq 1 (length ids)).
Proof.
  intros Hd [->|(objs & Hgen & Hmap)].
  - rewrite length_map.
    apply (LegacyFacts.rows_of_ordinals lcfg encoding read_text path d g Hd).
  - rewrite (objects_ordinals nonascii_decimal ucfg encoding read_text
               path d g objs Hd Hgen) in Hmap.
    rewrite <- (map_map (fun k => d ++ u "_c" ++ format_03d (Z.of_nat k)) Some) in Hmap.
    apply map_Some_injective in Hmap.
    assert (Hlen : length ids = length objs).
    { rewrite Hmap, length_map, length_seq. reflexivity. }
    rewrite Hlen. exact Hmap.
Qed.

(** A text is cut at its first underscore in one way only. *)
Lemma cut_at_first_underscore (a : str) : forall b x y,
  ~ In 95%N a -> ~ In 95%N b -> a ++ 95%N :: x = b ++ 95%N :: y -> a = b.
Proof.
  induction a as [|c a IH]; intros [|e b] x y Ha Hb E; cbn [app] in E.
  - reflexivity.
  - injection E as E _. subst e. destruct Hb. now left.
  - injection E as E _. subst c. destruct Ha. now left.
  - injection E as -> E. f_equal. apply (IH b x y); [| |exact E].
    + intros H. apply Ha. now right.
    + intros H. apply Hb. now right.
Qed.

End IdFacts.

(* ================================================================== *)
(** * The batch loop and the documents it is fed *)
(* ================================================================== *)

Module BatchFacts.
Import Upload.

(** One more object moves the count of full batches up exactly when the
    new total is a multiple of the batch size. *)
Lemma full_batches_step (n : Z) :
  (0 <= n)%Z ->
  ((n + 1) / BATCH_SIZE =
   n / BATCH_SIZE + (if ((n + 1) mod BATCH_SIZE =? 0) then 1 else 0))%Z.
Proof.
  unfold BATCH_SIZE. intros Hn.
  destruct ((n + 1) mod 100 =? 0)%Z eqn:E;
    [apply Z.eqb_eq in E|apply Z.eqb_neq in E];
    Z.div_mod_to_equations; lia.
Qed.

Lemma upload_loop_counters objs : forall st,
  (0 <= uploaded st)%Z ->
  (batch_counter (upload_loop objs st) =
   batch_counter st + ((uploaded st + len objs) / BATCH_SIZE - uploaded st / BATCH_SIZE))%Z /\
  (slept (upload_loop objs st) =
   slept st + PER_BATCH_SLEEP_SECONDS *
     ((uploaded st + len objs) / BATCH_SIZE - uploaded st / BATCH_SIZE))%Z.
Proof.
  unfold len. induction objs as [|obj rest IH]; intros st Hst; cbn [upload_loop length].
  - rewrite Z.add_0_r. split; lia.
  - pose proof (full_batches_step (uploaded st) Hst) as Hstep.
    replace (uploaded st + Z.of_nat (S (length rest)))%Z
      with (uploaded st + 1 + Z.of_nat (length rest))%Z by lia.
    destruct ((uploaded st + 1) mod BATCH_SIZE =? 0)%Z;
      match goal with
      | |- context [upload_loop rest ?st'] =>
          destruct (IH st') as [Hb Hs]; [cbn [uploaded]; lia|]
      end;
      rewrite Hb, Hs; cbn [uploaded batch_counter slept];
      unfold PER_BATCH_SLEEP_SECONDS in *; split; lia.
Qed.

Section WithWorld.
Variable nonascii_decimal : char -> bool.
Variable cfg : Config.
Variable encoding : Encoding.
Variable read_text : Path -> str.

Local Abbreviation cleaned := (fun path => clean_text nonascii_decimal (Some (read_text path))).
Local Abbreviation generate := (generate_chunk_objects_from_file nonascii_decimal cfg encoding read_text).
Local Abbreviation iter_all := (iter_all_chunk_objects nonascii_decimal cfg encoding read_text).

(** A document that is empty after cleaning, or below the word minimum,
    yields nothing. *)
Lemma generate_skips path :
  cleaned path = [] \/ (len (split_ws (cleaned path)) < MIN_WORDS_PER_DOC cfg)%Z ->
  generate path = Ok [].
Proof.
  unfold generate_chunk_objects_from_file.
  destruct (clean_text nonascii_decimal (Some (read_text path))) as [|c t];
    [reflexivity|].
  intros [H|H]; [discriminate H|].
  apply Z.ltb_lt in H. rewrite H. reflexivity.
Qed.

Lemma iter_all_skips paths :
  (forall p, In p paths ->
     cleaned p = [] \/ (len (split_ws (cleaned p)) < MIN_WORDS_PER_DOC cfg)%Z) ->
  iter_all paths = Ok [].
Proof.
  induction paths as [|p paths IH]; intros Hskip; cbn [iter_all_chunk_objects];
    [reflexivity|].
  rewrite generate_skips by (apply Hskip; now left).
  cbn [bind]. rewrite IH by (intros q Hq; apply Hskip; now right).
  reflexivity.
Qed.

(** A document that yields an object has at least the minimum of
    words. *)
Lemma generate_yields path obj objs :
  generate path = Ok (obj :: objs) ->
  cleaned path <> [] /\ (MIN_WORDS_PER_DOC cfg <= len (split_ws (cleaned path)))%Z.
Proof.
  unfold generate_chunk_objects_from_file.
  destruct (clean_text nonascii_decimal (Some (read_text path))) as [|c t];
    [discriminate|].
  destruct (len (split_ws (c :: t)) <? MIN_WORDS_PER_DOC cfg)%Z eqn:E; [discriminate|].
  intros _. apply Z.ltb_ge in E. split; [discriminate|exact E].
Qed.

(** When objects were collected, one of the documents yielded one. *)
Lemma iter_all_yields paths : forall obj objs,
  iter_all paths = Ok (obj :: objs) ->
  exists p o os, In p paths /\ generate p = Ok (o :: os).
Proof.
  induction paths as [|q paths IH]; intros obj objs; cbn [iter_all_chunk_objects];
    [discriminate|].
  destruct (generate q) as [[|o os]|e] eqn:Eq; cbn [bind]; [| |discriminate].
  - destruct (iter_all paths) as [more|e]; cbn [bind]; [|discriminate].
    cbn [app]. intros [= ->].
    destruct (IH obj objs eq_refl) as (p & o & os & Hin & Hp).
    exists p, o, os. split; [now right|exact Hp].
  - intros _. exists q, o, os. split; [now left|exact Eq].
Qed.

End WithWorld.

End BatchFacts.

(* ================================================================== *)
(** * Rotation of the output containers *)
(* ================================================================== *)

Module RotationFacts.
Import Legacy.

Lemma filename_injective a b :
  (0 <= a)%Z -> (0 <= b)%Z -> filename a = filename b -> a = b.
Proof.
  unfold filename. intros Ha Hb E.
  apply app_inv_head in E. apply app_inv_head in E. apply app_inv_tail in E.
  exact (DecimalFacts.format_03d_injective a b Ha Hb E).
Qed.

Section WithWorld.
Variable cfg : Config.
Variable encoding : Encoding.
Variable read_text : Path -> str.
Variable csv : Csv.

Local Abbreviation process_file := (Legacy.process_file cfg encoding read_text).
Local Abbreviation rows_of := (Legacy.rows_of cfg encoding read_text).
Local Abbreviation tell := (Legacy.tell csv).
Local Abbreviation main_loop := (Legacy.main_loop cfg encoding read_text csv).
Local Abbreviation main := (Legacy.main cfg encoding read_text csv).

Local Abbreviation full := (rotated_out cfg encoding read_text csv).

Lemma tell_rows f g : rows f = rows g -> tell f = tell g.
Proof. unfold Legacy.tell. intros ->. reflexivity. Qed.

Lemma main_loop_thresholds paths : forall closed idx f,
  Forall full closed ->
  (tell f < MAX_BYTES cfg)%Z ->
  (header_bytes csv < MAX_BYTES cfg)%Z ->
  exists closed' f',
    files (main_loop paths closed idx f) = closed' ++ [f'] /\
    Forall full closed' /\ (tell f' < MAX_BYTES cfg)%Z.
Proof.
  induction paths as [|p paths IH]; intros closed idx f Hcl Hf Hh; cbn [Legacy.main_loop].
  - exists closed, f. auto.
  - rewrite (LegacyFacts.process_file_appends cfg encoding read_text p f).
    destruct (Legacy.process_file cfg encoding read_text p (open_new_output_file 0)).
    + set (f1 := {| file_index := file_index f; rows := rows f ++ rows_of p |}).
      destruct (tell f1 >=? MAX_BYTES cfg)%Z eqn:E.
      * apply IH; [|unfold Legacy.tell; cbn; lia|exact Hh].
        apply Forall_app. split; [exact Hcl|]. constructor; [|constructor].
        split; [apply Z.geb_le in E; exact E|].
        exists p, (rows f). split; [reflexivity|].
        rewrite (tell_rows _ f) by reflexivity. exact Hf.
      * apply IH; [exact Hcl| |exact Hh].
        rewrite Z.geb_leb in E. apply Z.leb_gt in E. exact E.
    + exists closed, f. auto.
Qed.

End WithWorld.

End RotationFacts.

(* ================================================================== *)
(** * Words: what the cleaners do to [str.split()] *)
(* ================================================================== *)

Module WordFacts.

Local Abbreviation blank := (Forall (fun c : char => isspace c = true)).

Lemma words_go_space cur c t :
  isspace c = true -> words_go cur (c :: t) = words_go cur [] ++ words_go [] t.
Proof. intros H. cbn [words_go]. rewrite H. destruct cur; reflexivity. Qed.

Lemma words_go_blank_nil ws r : blank ws -> words_go [] (ws ++ r) = words_go [] r.
Proof.
  induction 1 as [|c ws Hc _ IH]; [reflexivity|].
  cbn [app]. rewrite (words_go_space [] c _ Hc). exact IH.
Qed.

(** A whitespace run ends the word being read. *)
Lemma words_go_blank c ws cur r :
  blank (c :: ws) -> words_go cur ((c :: ws) ++ r) = words_go cur [] ++ words_go [] r.
Proof.
  intros H. inversion H as [|? ? Hc Hws]; subst.
  cbn [app]. rewrite (words_go_space cur c _ Hc), (words_go_blank_nil ws r Hws).
  reflexivity.
Qed.

Lemma words_go_all_blank suf cur : blank suf -> words_go cur suf = words_go cur [].
Proof.
  intros H. destruct suf as [|c suf]; [reflexivity|].
  rewrite <- (app_nil_r (c :: suf)), (words_go_blank c suf cur [] H).
  apply app_nil_r.
Qed.

Lemma words_go_blank_end s : forall cur suf,
  blank suf -> words_go cur (s ++ suf) = words_go cur s.
Proof.
  induction s as [|c t IH]; intros cur suf H.
  - apply words_go_all_blank. exact H.
  - cbn [app words_go]. destruct (isspace c); [destruct cur|]; rewrite IH by exact H;
      reflexivity.
Qed.

(** Whitespace inside a text separates what is read before it from what
    is read after it. *)
Lemma words_go_cut a : forall cur w b,
  isspace w = true ->
  words_go cur (a ++ w :: b) = words_go cur a ++ words_go [] b.
Proof.
  induction a as [|c a IH]; intros cur w b Hw.
  - apply words_go_space. exact Hw.
  - cbn [app words_go]. destruct (isspace c); [destruct cur|]; rewrite IH by exact Hw;
      reflexivity.
Qed.

Lemma words_strip s : split_ws (strip s) = split_ws s.
Proof.
  unfold split_ws, strip.
  destruct (StrFacts.lstrip_cuts s) as (pre & Hs & Hpre).
  destruct (StrFacts.rstrip_cuts (lstrip s)) as (suf & Hs' & Hsuf).
  rewrite Hs at 2. rewrite (words_go_blank_nil pre _ Hpre).
  rewrite Hs' at 2. rewrite (words_go_blank_end _ [] suf Hsuf). reflexivity.
Qed.

(** ** Substitutions of whitespace for whitespace *)

Lemma words_sub_scan m repl :
  blank repl -> repl <> [] ->
  (forall s n, m s = Some (S n) -> blank (firstn (S n) s)) ->
  forall s k cur,
    blank (firstn k s) -> k = 0%nat \/ cur = [] ->
    words_go cur (sub_scan m repl k s) = words_go cur s.
Proof.
  intros Hrepl Hne Hm. destruct repl as [|r0 repl]; [contradiction|].
  induction s as [|c t IH]; intros k cur Hk Hcur; [reflexivity|].
  cbn [sub_scan]. destruct k as [|k].
  - destruct (m (c :: t)) as [[|n]|] eqn:Em.
    + cbn [words_go]. destruct (isspace c); [destruct cur|];
        rewrite (IH 0%nat) by (auto; constructor); reflexivity.
    + pose proof (Hm _ _ Em) as Hb. cbn [firstn] in Hb.
      inversion Hb as [|? ? Hc Hrest]; subst.
      rewrite (words_go_blank r0 repl cur _ Hrepl).
      rewrite (IH n []) by auto.
      rewrite (words_go_space cur c t Hc). reflexivity.
    + cbn [words_go]. destruct (isspace c); [destruct cur|];
        rewrite (IH 0%nat) by (auto; constructor); reflexivity.
  - destruct Hcur as [Hcur | ->]; [discriminate Hcur|].
    cbn [firstn] in Hk. inversion Hk as [|? ? Hc Hrest]; subst.
    rewrite (IH k []) by auto.
    rewrite (words_go_space [] c t Hc). reflexivity.
Qed.

Lemma starts_with_firstn p : forall s,
  starts_with p s = true -> firstn (length p) s = p.
Proof.
  induction p as [|a p IH]; intros s; [reflexivity|].
  destruct s as [|b s]; cbn [starts_with]; [discriminate|].
  intros H. apply andb_true_iff in H. destruct H as [Hab Hp].
  apply N.eqb_eq in Hab. subst b. cbn [length firstn]. rewrite (IH s Hp). reflexivity.
Qed.

Lemma words_replace old new s :
  blank old -> old <> [] -> blank new -> new <> [] ->
  split_ws (replace old new s) = split_ws s.
Proof.
  intros Hold Hone Hnew Hnne. unfold split_ws, replace.
  destruct old as [|a old]; [contradiction|].
  apply (words_sub_scan _ new Hnew Hnne); [|constructor|now left].
  intros t n. unfold lit_match.
  destruct (starts_with (a :: old) t) eqn:E; [|discriminate].
  intros [= <-]. change (S (length old)) with (length (a :: old)).
  rewrite (starts_with_firstn _ _ E). exact Hold.
Qed.

(** ** Lines *)

Lemma words_join ls : split_ws (join [SP] ls) = flat_map split_ws ls.
Proof.
  induction ls as [|p [|q rest] IH]; [reflexivity| |].
  - cbn [join flat_map]. rewrite app_nil_r. reflexivity.
  - change (join [SP] (p :: q :: rest)) with (p ++ SP :: join [SP] (q :: rest)).
    unfold split_ws at 1. rewrite (words_go_cut p [] SP _ eq_refl).
    change (flat_map split_ws (p :: q :: rest))
      with (split_ws p ++ flat_map split_ws (q :: rest)).
    rewrite <- IH. reflexivity.
Qed.

Lemma words_lines s : forall cur,
  words_go cur s =
  match split LF s with
  | h :: r => words_go cur h ++ flat_map split_ws r
  | [] => []
  end.
Proof.
  induction s as [|c t IH]; intros cur.
  - cbn [split flat_map]. rewrite app_nil_r. reflexivity.
  - cbn [split]. destruct (N.eqb_spec c LF) as [->|Hc].
    + rewrite (words_go_space cur LF t eq_refl). cbn [flat_map].
      rewrite (IH []). unfold split_ws.
      destruct (split LF t) as [|h r] eqn:E; [destruct (ChunkingFacts.split_not_nil _ _ E)|].
      cbn [flat_map]. reflexivity.
    + pose proof (IH cur) as IHcur. pose proof (IH (c :: cur)) as IHc.
      pose proof (IH []) as IHnil.
      destruct (split LF t) as [|h r] eqn:E; [destruct (ChunkingFacts.split_not_nil _ _ E)|].
      cbn [words_go]. destruct (isspace c); [destruct cur|].
      * rewrite IHnil. reflexivity.
      * rewrite IHnil. reflexivity.
      * exact IHc.
Qed.

Lemma words_nonempty_lines ls :
  flat_map split_ws (filter truthy ls) = flat_map split_ws ls.
Proof.
  induction ls as [|l ls IH]; [reflexivity|].
  cbn [filter]. destruct l as [|c l]; cbn [truthy flat_map]; rewrite IH; reflexivity.
Qed.

Lemma words_stripped_lines ls :
  flat_map split_ws (map strip ls) = flat_map split_ws ls.
Proof.
  induction ls as [|l ls IH]; [reflexivity|].
  cbn [map flat_map]. rewrite words_strip, IH. reflexivity.
Qed.

Lemma words_joined_lines s :
  split_ws (join [SP] (filter truthy (map strip (split LF s)))) = split_ws s.
Proof.
  rewrite words_join, words_nonempty_lines, words_stripped_lines.
  unfold split_ws at 2. rewrite (words_lines s []).
  destruct (split LF s) as [|h r] eqn:E; [destruct (ChunkingFacts.split_not_nil _ _ E)|].
  reflexivity.
Qed.

(** ** The flat-file cleaner *)

Lemma words_collapse fuel : forall s,
  split_ws (Legacy.collapse_loop fuel s) = split_ws s.
Proof.
  induction fuel as [|f IH]; intros s; cbn [Legacy.collapse_loop]; [reflexivity|].
  destruct (contains Legacy.two_spaces s); [|reflexivity].
  rewrite IH. apply words_replace; try discriminate; repeat constructor.
Qed.

Lemma legacy_words x : split_ws (Legacy.clean_text (Some x)) = split_ws x.
Proof.
  unfold Legacy.clean_text.
  rewrite words_strip, words_collapse, words_joined_lines.
  rewrite !words_replace; try discriminate; repeat constructor.
Qed.

(** ** Words and visible characters *)

Lemma words_concat s : forall cur,
  concat (words_go cur s) = rev cur ++ filter visible s.
Proof.
  unfold visible.
  induction s as [|c t IH]; intros cur; cbn [words_go filter].
  - destruct cur; [reflexivity|]. cbn [concat]. rewrite !app_nil_r. reflexivity.
  - destruct (isspace c); cbn [negb].
    + destruct cur; [apply IH|]. cbn [concat]. rewrite (IH []). reflexivity.
    + rewrite IH. cbn [rev]. rewrite <- app_assoc. reflexivity.
Qed.

Lemma words_go_none s : forall cur, words_go cur s = [] -> cur = [] /\ blank s.
Proof.
  induction s as [|c t IH]; intros cur; cbn [words_go].
  - destruct cur; [auto|discriminate].
  - destruct (isspace c) eqn:Ec.
    + destruct cur; [|discriminate]. intros H. destruct (IH [] H) as [_ Ht]. auto.
    + intros H. destruct (IH _ H) as [Hcur _]. discriminate Hcur.
Qed.

Lemma words_none s : split_ws s = [] <-> blank s.
Proof.
  split.
  - intros H. exact (proj2 (words_go_none s [] H)).
  - intros H. unfold split_ws. rewrite (words_go_all_blank s [] H). reflexivity.
Qed.

(** ** Single-spaced texts are their words joined by one space *)

Lemma words_go_head c t cur : isspace c = false -> words_go cur (c :: t) <> [].
Proof.
  intros Hc H. apply words_go_none in H. destruct H as [_ H].
  inversion H as [|? ? Hc' _]; subst. congruence.
Qed.

Lemma spaced_join s : forall cur,
  single_spaced s = true ->
  (cur <> [] \/ forall c, hd_error s = Some c -> isspace c = false) ->
  (forall c, last_item s = Some c -> isspace c = false) ->
  join [SP] (words_go cur s) = rev cur ++ s.
Proof.
  induction s as [|c t IH]; intros cur Hsp Hhead Hlast.
  - cbn [words_go]. destruct cur; [reflexivity|]. cbn [join]. rewrite app_nil_r.
    reflexivity.
  - cbn [single_spaced] in Hsp. apply andb_true_iff in Hsp. destruct Hsp as [Hc Ht].
    assert (Hlast' : t <> [] -> forall d, last_item t = Some d -> isspace d = false).
    { intros Hne d Hd. apply Hlast.
      change (c :: t) with ([c] ++ t). rewrite ChunkingFacts.last_item_app by exact Hne.
      exact Hd. }
    cbn [words_go]. destruct (isspace c) eqn:Ec.
    + apply andb_true_iff in Hc. destruct Hc as [Hsp Hnext].
      apply N.eqb_eq in Hsp. subst c.
      destruct Hhead as [Hcur|Hhead]; [|specialize (Hhead SP eq_refl); discriminate].
      destruct cur as [|a cur]; [contradiction|].
      destruct t as [|d t'].
      * specialize (Hlast SP eq_refl). discriminate.
      * apply negb_true_iff in Hnext.
        pose proof (words_go_head d t' [] Hnext) as Hne.
        assert (Hhd : forall x, hd_error (d :: t') = Some x -> isspace x = false)
          by (intros x [= <-]; exact Hnext).
        pose proof (IH [] Ht (or_intror Hhd) (Hlast' ltac:(discriminate))) as Hj.
        destruct (words_go [] (d :: t')) as [|w ws]; [contradiction|].
        change (join [SP] (rev (a :: cur) :: w :: ws))
          with (rev (a :: cur) ++ SP :: join [SP] (w :: ws)).
        rewrite Hj. reflexivity.
    + rewrite IH.
      * cbn [rev]. rewrite <- app_assoc. reflexivity.
      * exact Ht.
      * left. discriminate.
      * destruct t as [|d t']; [intros d Hd; discriminate Hd|].
        apply Hlast'. discriminate.
Qed.

Lemma spaced_count s : forall cur,
  single_spaced s = true ->
  (cur <> [] \/ forall c, hd_error s = Some c -> isspace c = false) ->
  (forall c, last_item s = Some c -> isspace c = false) ->
  length (words_go cur s) =
  (count_occ N.eq_dec s SP + match cur, s with [], [] => 0 | _, _ => 1 end)%nat.
Proof.
  induction s as [|c t IH]; intros cur Hsp Hhead Hlast.
  - cbn [words_go]. destruct cur; reflexivity.
  - cbn [single_spaced] in Hsp. apply andb_true_iff in Hsp. destruct Hsp as [Hc Ht].
    assert (Hlast' : t <> [] -> forall d, last_item t = Some d -> isspace d = false).
    { intros Hne d Hd. apply Hlast.
      change (c :: t) with ([c] ++ t). rewrite ChunkingFacts.last_item_app by exact Hne.
      exact Hd. }
    cbn [words_go]. destruct (isspace c) eqn:Ec.
    + apply andb_true_iff in Hc. destruct Hc as [Hsp Hnext].
      apply N.eqb_eq in Hsp. subst c.
      destruct Hhead as [Hcur|Hhead]; [|specialize (Hhead SP eq_refl); discriminate].
      destruct cur as [|a cur]; [contradiction|].
      destruct t as [|d t'].
      * specialize (Hlast SP eq_refl). discriminate.
      * apply negb_true_iff in Hnext.
        assert (Hhd : forall x, hd_error (d :: t') = Some x -> isspace x = false)
          by (intros x [= <-]; exact Hnext).
        pose proof (IH [] Ht (or_intror Hhd) (Hlast' ltac:(discriminate))) as Hn.
        cbn [length]. rewrite Hn.
        cbn [count_occ]. destruct (N.eq_dec SP SP) as [_|Hx]; [|contradiction].
        destruct (N.eq_dec d SP); lia.
    + assert (Hne : c <> SP) by (intros ->; discriminate Ec).
      cbn [count_occ]. destruct (N.eq_dec c SP) as [Hx|_]; [contradiction|].
      rewrite IH.
      * destruct cur, t; reflexivity.
      * exact Ht.
      * left. discriminate.
      * destruct t as [|d t']; [intros d Hd; discriminate Hd|].
        apply Hlast'. discriminate.
Qed.

(** What the upload cleaner returns is tidy. *)
Lemma upload_cleaned_tidy nonascii_decimal text :
  tidy (Upload.clean_text nonascii_decimal text).
Proof.
  pose proof (UploadClean.cleaned_spaced nonascii_decimal text) as Hsp.
  apply StrFacts.stripped_tidy.
  - apply UploadClean.cleaned_stripped.
  - intros H. pose proof (UploadClean.spaced_whitespace _ LF Hsp H eq_refl) as E.
    discriminate E.
  - intros H. pose proof (UploadClean.spaced_whitespace _ CR Hsp H eq_refl) as E.
    discriminate E.
  - apply UploadClean.spaced_no_double_space. exact Hsp.
Qed.

End WordFacts.

(* ================================================================== *)
(** * The two paths side by side *)
(* ================================================================== *)

Module PathFacts.


End PathFacts.

(* ================================================================== *)
(** * Where an exception can come from *)
(* ================================================================== *)

Module ErrorFacts.

Local Abbreviation overlap_error :=
  (ValueError "chunk_overlap must be smaller than chunk_size").

Section FlatFile.
Variable cfg : Legacy.Config.
Variable encoding : Encoding.
Variable read_text : Path -> str.
Variable csv : Legacy.Csv.

Local Abbreviation process_file := (Legacy.process_file cfg encoding read_text).
Local Abbreviation reaches := (Legacy.reaches_chunker cfg encoding read_text).
Local Abbreviation main_loop := (Legacy.main_loop cfg encoding read_text csv).

Lemma process_file_raised path w e :
  process_file path w = Raise e ->
  (Legacy.CHUNK_SIZE_TOKENS cfg <= Legacy.CHUNK_OVERLAP_TOKENS cfg)%Z /\
  reaches path = true /\ e = overlap_error.
Proof.
  intros E.
  destruct (Z.lt_ge_cases 0 (Legacy.CHUNK_SIZE_TOKENS cfg - Legacy.CHUNK_OVERLAP_TOKENS cfg))
    as [Hok|Hbad].
  - rewrite (LegacyFacts.process_file_runs cfg encoding read_text path w (or_introl Hok))
      in E. discriminate E.
  - destruct (reaches path) eqn:Er.
    + assert (Hle : (Legacy.CHUNK_SIZE_TOKENS cfg <= Legacy.CHUNK_OVERLAP_TOKENS cfg)%Z)
        by lia.
      rewrite (LegacyFacts.process_file_raises cfg encoding read_text path w Hle Er) in E.
      injection E as <-. auto.
    + rewrite (LegacyFacts.process_file_runs cfg encoding read_text path w (or_intror Er))
        in E. discriminate E.
Qed.

Lemma main_loop_raised paths : forall closed idx f e,
  Legacy.raised (main_loop paths closed idx f) = Some e ->
  exists p w, In p paths /\ process_file p w = Raise e.
Proof.
  induction paths as [|p paths IH]; intros closed idx f e; cbn [Legacy.main_loop].
  - discriminate.
  - destruct (process_file p f) as [f1|e1] eqn:Ep.
    + destruct (Legacy.tell csv f1 >=? Legacy.MAX_BYTES cfg)%Z; intros H;
        destruct (IH _ _ _ _ H) as (q & w & Hq & Hw); exists q, w;
        (split; [now right|exact Hw]).
    + cbn [Legacy.raised]. intros [= <-]. exists p, f. split; [now left|exact Ep].
Qed.

End FlatFile.

Section UploadPath.
Variable nonascii_decimal : char -> bool.
Variable cfg : Upload.Config.
Variable encoding : Encoding.
Variable read_text : Path -> str.

Local Abbreviation generate :=
  (Upload.generate_chunk_objects_from_file nonascii_decimal cfg encoding read_text).
Local Abbreviation iter_all :=
  (Upload.iter_all_chunk_objects nonascii_decimal cfg encoding read_text).
Local Abbreviation reaches :=
  (Upload.reaches_chunker nonascii_decimal cfg encoding read_text).

Lemma generate_raised path e :
  generate path = Raise e ->
  (Upload.CHUNK_SIZE_TOKENS cfg <= Upload.CHUNK_OVERLAP_TOKENS cfg)%Z /\
  reaches path = true /\ e = overlap_error.
Proof.
  intros E.
  destruct (Z.lt_ge_cases 0 (Upload.CHUNK_SIZE_TOKENS cfg - Upload.CHUNK_OVERLAP_TOKENS cfg))
    as [Hok|Hbad].
  - destruct (UploadFacts.generate_runs nonascii_decimal cfg encoding read_text path
                (or_introl Hok)) as [objs Hobjs].
    rewrite Hobjs in E. discriminate E.
  - destruct (reaches path) eqn:Er.
    + assert (Hle : (Upload.CHUNK_SIZE_TOKENS cfg <= Upload.CHUNK_OVERLAP_TOKENS cfg)%Z)
        by lia.
      rewrite (UploadFacts.generate_raises nonascii_decimal cfg encoding read_text
                 path Hle Er) in E.
      injection E as <-. auto.
    + destruct (UploadFacts.generate_runs nonascii_decimal cfg encoding read_text path
                  (or_intror Er)) as [objs Hobjs].
      rewrite Hobjs in E. discriminate E.
Qed.

Lemma iter_all_raised paths : forall e,
  iter_all paths = Raise e -> exists p, In p paths /\ generate p = Raise e.
Proof.
  induction paths as [|p paths IH]; intros e; cbn [Upload.iter_all_chunk_objects].
  - discriminate.
  - destruct (generate p) as [objs|e1] eqn:Ep; cbn [bind].
    + destruct (iter_all paths) as [more|e2]; cbn [bind]; [discriminate|].
      intros [= <-]. destruct (IH e2 eq_refl) as (q & Hq & Hg).
      exists q. split; [now right|exact Hg].
    + intros [= <-]. exists p. split; [now left|exact Ep].
Qed.

End UploadPath.

End ErrorFacts.

(* ================================================================== *)
(** * The token count *)
(* ================================================================== *)

Module CountFacts.
Import TokenCount.

Section WithWorld.
Variable world : World.

Lemma count_file_adds total full :
  count_file world total full = (total + tokens_of world full)%Z.
Proof.
  unfold count_file, tokens_of. destruct (read world full) as [text|]; [|lia].
  destruct (try_encode world text); lia.
Qed.

Lemma count_files_add fulls : forall total,
  fold_left (count_file world) fulls total
  = (total + fold_right Z.add 0 (map (tokens_of world) fulls))%Z.
Proof.
  induction fulls as [|f fulls IH]; intros total; cbn [fold_left map fold_right]; [lia|].
  rewrite IH, count_file_adds. lia.
Qed.

Lemma count_walk_adds entries : forall total,
  fold_left
    (fun total entry =>
       fold_left (fun total f => count_file world total (path_join world (fst entry) f))
         (snd entry) total)
    entries total
  = fold_left (count_file world)
      (flat_map (fun entry => map (path_join world (fst entry)) (snd entry)) entries)
      total.
Proof.
  induction entries as [|[root files] entries IH]; intros total; [reflexivity|].
  cbn [fold_left flat_map fst snd]. rewrite fold_left_app, IH. f_equal.
  clear. revert total. induction files as [|f files IHf]; intros total; [reflexivity|].
  cbn [fold_left map]. apply IHf.
Qed.

Lemma count_is_sum path :
  count_tokens_in_dir world path
  = fold_right Z.add 0%Z (map (tokens_of world) (visited world path)).
Proof.
  unfold count_tokens_in_dir, visited. rewrite count_walk_adds, count_files_add. lia.
Qed.

Lemma tokens_of_nonneg full : (0 <= tokens_of world full)%Z.
Proof.
  unfold tokens_of, len. destruct (read world full) as [text|]; [|lia].
  destruct (try_encode world text); lia.
Qed.

End WithWorld.

Lemma sum_permutation (l1 l2 : list Z) :
  Permutation l1 l2 -> fold_right Z.add 0%Z l1 = fold_right Z.add 0%Z l2.
Proof.
  induction 1; cbn [fold_right]; lia.
Qed.

Lemma sum_nonneg (l : list Z) :
  (forall x, In x l -> (0 <= x)%Z) -> (0 <= fold_right Z.add 0%Z l)%Z.
Proof.
  induction l as [|a l IH]; intros H; cbn [fold_right]; [lia|].
  assert (0 <= a)%Z by (apply H; now left).
  assert (0 <= fold_right Z.add 0%Z l)%Z by (apply IH; intros x Hx; apply H; now right).
  lia.
Qed.

End CountFacts.

(* ================================================================== *)
(** * The rows of one document *)
(* ================================================================== *)

Module RowFacts.
Import Legacy.

Lemma chunk_rows_texts d g chunks : forall i,
  map text (chunk_rows d g i chunks) = chunks.
Proof.
  induction chunks as [|c cs IH]; intros i; [reflexivity|].
  cbn [chunk_rows map text]. rewrite IH. reflexivity.
Qed.

Lemma chunk_rows_fields d g chunks : forall i,
  Forall (fun row => doc_id row = d /\ source_group row = g) (chunk_rows d g i chunks).
Proof.
  induction chunks as [|c cs IH]; intros i; cbn [chunk_rows]; constructor.
  - split; reflexivity.
  - apply IH.
Qed.

Section WithWorld.
Variable cfg : Config.
Variable encoding : Encoding.
Variable read_text : Path -> str.

Local Abbreviation rows_of := (Legacy.rows_of cfg encoding read_text).
Local Abbreviation cleaned := (fun path => clean_text (Some (read_text path))).

(** A document that is empty after cleaning gets no row. *)
Lemma rows_of_empty path : cleaned path = [] -> rows_of path = [].
Proof.
  unfold Legacy.rows_of, Legacy.process_file. intros ->. reflexivity.
Qed.

(** A short document gets one row, with the cleaned text as a whole. *)
Lemma rows_of_short path d g :
  derive_ids_from_path path = Ok (d, g) ->
  cleaned path <> [] ->
  (len (encode encoding (cleaned path)) < MIN_DOC_TOKENS_SINGLE_CHUNK cfg)%Z ->
  rows_of path =
  [ {| doc_id := d; chunk_id := d ++ u "_c001"; source_group := g;
       text := cleaned path |} ].
Proof.
  intros Hd Hne Hshort. unfold Legacy.rows_of, Legacy.process_file.
  destruct (clean_text (Some (read_text path))) as [|c t]; [contradiction|].
  rewrite Hd. cbn [bind]. apply Z.ltb_lt in Hshort. rewrite Hshort. reflexivity.
Qed.

(** A long document gets the rows of the chunks the chunker returns. *)
Lemma rows_of_long path d g chunks :
  derive_ids_from_path path = Ok (d, g) ->
  cleaned path <> [] ->
  (MIN_DOC_TOKENS_SINGLE_CHUNK cfg <= len (encode encoding (cleaned path)))%Z ->
  split_into_token_chunks encoding (cleaned path)
    (CHUNK_SIZE_TOKENS cfg) (CHUNK_OVERLAP_TOKENS cfg) = Ok chunks ->
  rows_of path = chunk_rows d g 1 chunks.
Proof.
  intros Hd Hne Hlong Hsplit. unfold Legacy.rows_of, Legacy.process_file.
  destruct (clean_text (Some (read_text path))) as [|c t]; [contradiction|].
  rewrite Hd. cbn [bind]. apply Z.ltb_ge in Hlong. rewrite Hlong, Hsplit. cbn [bind].
  rewrite LegacyFacts.fold_writerow. reflexivity.
Qed.

(** Every row carries the ids of its document. *)
Lemma rows_of_fields path d g :
  derive_ids_from_path path = Ok (d, g) ->
  Forall (fun row => doc_id row = d /\ source_group row = g) (rows_of path).
Proof.
  intros Hd. unfold Legacy.rows_of, Legacy.process_file.
  destruct (clean_text (Some (read_text path))) as [|c t]; [constructor|].
  rewrite Hd. cbn [bind].
  destruct (len (encode encoding (c :: t)) <? MIN_DOC_TOKENS_SINGLE_CHUNK cfg)%Z.
  - constructor; [split; reflexivity|constructor].
  - destruct (split_into_token_chunks encoding (c :: t) _ _) as [chunks|e]; cbn [bind];
      [|constructor].
    rewrite LegacyFacts.fold_writerow. apply chunk_rows_fields.
Qed.

End WithWorld.

End RowFacts.

(* ================================================================== *)
(** * The properties *)
(* ================================================================== *)

(** C1, the claim as worded, at the shipped settings (window 350,
    overlap 70, step 280, threshold 220): a document of 300 tokens is cut
    at offsets 0 and 280 into two chunks where the formula says one, and
    one of 561 tokens at 0, 280 and 560 into three where the formula says
    two. [process_file] writes the two rows. *)
Lemma chunk_count_formula_undercounts :
  (Legacy.MIN_DOC_TOKENS_SINGLE_CHUNK Legacy.shipped <= 300)%Z /\
  len (encode Sample.per_char (Sample.text_of_tokens 300)) = 300%Z /\
  Sample.count_chunks (Sample.text_of_tokens 300)
    (Legacy.CHUNK_SIZE_TOKENS Legacy.shipped) (Legacy.CHUNK_OVERLAP_TOKENS Legacy.shipped)
  = Some 2%Z /\
  spec_chunk_count
    (Legacy.CHUNK_SIZE_TOKENS Legacy.shipped) (Legacy.CHUNK_OVERLAP_TOKENS Legacy.shipped) 300
  = 1%Z /\
  map Legacy.chunk_id
    (Legacy.rows_of Legacy.shipped Sample.per_char
       (fun _ => Sample.text_of_tokens 300) (Sample.doc "PRE_FIX_12345"))
  = [u "12345_c001"; u "12345_c002"] /\
  len (encode Sample.per_char (Sample.text_of_tokens 561)) = 561%Z /\
  Sample.count_chunks (Sample.text_of_tokens 561)
    (Legacy.CHUNK_SIZE_TOKENS Legacy.shipped) (Legacy.CHUNK_OVERLAP_TOKENS Legacy.shipped)
  = Some 3%Z /\
  spec_chunk_count
    (Legacy.CHUNK_SIZE_TOKENS Legacy.shipped) (Legacy.CHUNK_OVERLAP_TOKENS Legacy.shipped) 561
  = 2%Z.
Proof. repeat split; vm_compute; congruence. Qed.

(** C1, as amended: with [CHUNK_SIZE_TOKENS > 0] and
    [step = CHUNK_SIZE_TOKENS - CHUNK_OVERLAP_TOKENS > 0], a text of
    [n >= 1] tokens is cut into exactly [ceil(n / step)] chunks: one per
    start offset [0, step, 2*step, ...] below [n]. *)
Theorem chunk_count_is_ceil_of_tokens_over_step
  (encoding : Encoding) (text : str) (chunk_size chunk_overlap : Z) :
  (0 < chunk_size)%Z ->
  (0 < chunk_size - chunk_overlap)%Z ->
  encode encoding text <> [] ->
  exists chunks,
    split_into_token_chunks encoding text chunk_size chunk_overlap = Ok chunks /\
    len chunks = ceil_div (len (encode encoding text)) (chunk_size - chunk_overlap).
Proof.
  intros Hsize Hstep Hne.
  rewrite (ChunkingFacts.split_runs encoding text _ _ Hne Hstep).
  eexists; split; [reflexivity|].
  rewrite <- PyFacts.range_length by (unfold len; lia).
  unfold len at 1 3. f_equal.
  apply PyFacts.flat_map_singletons.
  intros start Hin. apply PyFacts.range_loop_bounds in Hin; [|assumption].
  rewrite ChunkingFacts.yield_window_inside by (assumption || lia).
  reflexivity.
Qed.

(** The specification's example: 700 tokens, step 280, three chunks. *)
Lemma chunk_count_at_700_tokens :
  exists chunks,
    split_into_token_chunks Sample.per_char (Sample.text_of_tokens 700) 350 70 = Ok chunks /\
    len chunks
    = ceil_div (len (encode Sample.per_char (Sample.text_of_tokens 700))) (350 - 70).
Proof.
  apply chunk_count_is_ceil_of_tokens_over_step; [lia | lia | discriminate].
Defined.

(** C9, the claim as worded: with [CHUNK_SIZE_TOKENS = 2] and
    [CHUNK_OVERLAP_TOKENS = -1] the step is 3 > 0, a text of three tokens
    has the single window [0, 2), and index 2 is in no window. *)
Lemma negative_overlap_leaves_a_gap :
  split_into_token_chunks Sample.per_char (u "abc") 2 (-1) = Ok [u "ab"] /\
  range 0 (len (encode Sample.per_char (u "abc"))) (2 - (-1)) = [0%Z] /\
  (0 <= 2 < len (encode Sample.per_char (u "abc")))%Z /\
  (forall k : Z, (0 <= k)%Z -> (k * (2 - (-1)) < 3)%Z ->
                 ~ (k * (2 - (-1)) <= 2 < k * (2 - (-1)) + 2)%Z).
Proof.
  repeat split; try (vm_compute; congruence).
  intros k Hk Hlt. lia.
Qed.

(** C9, as amended: with [0 <= CHUNK_OVERLAP_TOKENS < CHUNK_SIZE_TOKENS]
    (so [0 < step <= CHUNK_SIZE_TOKENS]) no token is lost: every index [i]
    of the token sequence lies in the window that starts at [k * step] for
    some [k] with [k * step < n]; that start is visited by the loop, the
    window holds token [i] at position [i - k * step], and its decoding is
    among the chunks yielded. *)
Theorem every_token_is_in_a_window
  (encoding : Encoding) (text : str) (chunk_size chunk_overlap i : Z) :
  (0 <= chunk_overlap < chunk_size)%Z ->
  (0 <= i < len (encode encoding text))%Z ->
  let tokens := encode encoding text in
  let step := (chunk_size - chunk_overlap)%Z in
  exists k chunks,
    (0 <= k)%Z /\ (k * step < len tokens)%Z /\
    (k * step <= i < k * step + chunk_size)%Z /\
    In (k * step)%Z (range 0 (len tokens) step) /\
    nth_error (window tokens chunk_size (k * step)) (Z.to_nat (i - k * step))
    = nth_error tokens (Z.to_nat i) /\
    split_into_token_chunks encoding text chunk_size chunk_overlap = Ok chunks /\
    In (decode encoding (window tokens chunk_size (k * step))) chunks.
Proof.
  intros Hcfg Hi. cbv zeta.
  remember (encode encoding text) as tokens eqn:Etok.
  remember (chunk_size - chunk_overlap)%Z as step eqn:Estep.
  assert (Hstep : (0 < step)%Z) by lia.
  assert (Hne : tokens <> []).
  { intros E. unfold len in Hi. rewrite E in Hi. simpl in Hi. lia. }
  remember (i / step)%Z as k eqn:Ek.
  assert (Hk : (0 <= k)%Z) by (subst k; apply Z.div_pos; lia).
  assert (Hlo : (k * step <= i)%Z).
  { subst k. rewrite Z.mul_comm. apply Z.mul_div_le. assumption. }
  assert (Hhi : (i < k * step + step)%Z).
  { subst k. pose proof (Z.mod_pos_bound i step Hstep).
    pose proof (Z.div_mod i step ltac:(lia)). lia. }
  assert (Hin : In (k * step)%Z (range 0 (len tokens) step)).
  { apply PyFacts.range_member; lia. }
  assert (Hrun : split_into_token_chunks encoding text chunk_size chunk_overlap
                 = Ok (flat_map (yield_window encoding tokens chunk_size)
                         (range 0 (len tokens) step))).
  { subst tokens step. apply ChunkingFacts.split_runs; [assumption|lia]. }
  exists k. eexists. repeat split; try lia.
  - assumption.
  - unfold window. apply PyFacts.slice_inside_nth; lia.
  - exact Hrun.
  - apply in_flat_map. exists (k * step)%Z. split; [exact Hin|].
    rewrite ChunkingFacts.yield_window_inside by lia.
    left. reflexivity.
Qed.

(** At the shipped settings the last token of a text of 700 is in a
    window. *)
Lemma every_token_at_shipped_settings :
  exists k chunks,
    (0 <= k)%Z /\
    (k * (350 - 70) < len (encode Sample.per_char (Sample.text_of_tokens 700)))%Z /\
    (k * (350 - 70) <= 699 < k * (350 - 70) + 350)%Z /\
    In (k * (350 - 70))%Z
       (range 0 (len (encode Sample.per_char (Sample.text_of_tokens 700))) (350 - 70)) /\
    nth_error (window (encode Sample.per_char (Sample.text_of_tokens 700)) 350
                 (k * (350 - 70)))
              (Z.to_nat (699 - k * (350 - 70)))
    = nth_error (encode Sample.per_char (Sample.text_of_tokens 700)) (Z.to_nat 699) /\
    split_into_token_chunks Sample.per_char (Sample.text_of_tokens 700) 350 70 = Ok chunks /\
    In (decode Sample.per_char
          (window (encode Sample.per_char (Sample.text_of_tokens 700)) 350 (k * (350 - 70))))
       chunks.
Proof.
  apply (every_token_is_in_a_window Sample.per_char (Sample.text_of_tokens 700) 350 70 699).
  - lia.
  - vm_compute. split; [discriminate | reflexivity].
Defined.

(** C10: [derive_ids_from_path] never raises. It returns the parent
    directory's name and the last part of the stem split on underscores:
    a text [doc_id] without underscore such that the stem is [doc_id]
    itself or ends with an underscore followed by [doc_id]. No other check is
    made: a stem that ends with an underscore gives the empty [doc_id]
    (so that the first chunk id is ["_c001"]), and a stem without
    underscore is the [doc_id] as a whole. *)
Theorem derive_ids_from_path_is_total (path : Path) :
  exists doc_id,
    derive_ids_from_path path = Ok (doc_id, parent_name path) /\
    last_item (split 95%N (stem path)) = Some doc_id /\
    ~ In 95%N doc_id /\
    (stem path = doc_id \/ exists pre, stem path = pre ++ 95%N :: doc_id) /\
    (forall pre, stem path = pre ++ [95%N] ->
                 doc_id = [] /\ doc_id ++ u "_c001" = u "_c001") /\
    (~ In 95%N (stem path) -> doc_id = stem path).
Proof.
  destruct (ChunkingFacts.last_item_total _ (ChunkingFacts.split_not_nil 95%N (stem path)))
    as [d Hd].
  exists d. unfold derive_ids_from_path. rewrite Hd.
  destruct (ChunkingFacts.last_of_split _ _ _ Hd) as [Hn Hshape].
  repeat split; try assumption.
  - rewrite H, ChunkingFacts.last_of_split_trailing in Hd. congruence.
  - rewrite H, ChunkingFacts.last_of_split_trailing in Hd.
    injection Hd as <-. reflexivity.
  - intros Hout. rewrite ChunkingFacts.split_without_sep in Hd by assumption.
    unfold last_item in Hd. simpl in Hd. congruence.
Qed.

(** The specification's example stem. *)
Lemma derive_ids_of_the_example_stem :
  exists doc_id,
    derive_ids_from_path (Sample.doc "ABC_DEF_00042") = Ok (doc_id, u "002") /\
    last_item (split 95%N (u "ABC_DEF_00042")) = Some doc_id /\
    ~ In 95%N doc_id /\
    (u "ABC_DEF_00042" = doc_id \/ exists pre, u "ABC_DEF_00042" = pre ++ 95%N :: doc_id) /\
    (forall pre, u "ABC_DEF_00042" = pre ++ [95%N] ->
                 doc_id = [] /\ doc_id ++ u "_c001" = u "_c001") /\
    (~ In 95%N (u "ABC_DEF_00042") -> doc_id = u "ABC_DEF_00042").
Proof.
  exact (derive_ids_from_path_is_total (Sample.doc "ABC_DEF_00042")).
Defined.

(** C5: whatever the settings, the containers of a run of the flat-file
    writer, in the order they were opened and numbered 1, 2, 3, ..., hold
    the rows of consecutive blocks of whole documents: the rotation test
    falls between two documents, never between two chunks of one. Read
    one container after the other, the rows are those of the processed
    documents in document order, each document's chunks once and in
    ordinal order. The rows of a document are its chunks: none when the
    cleaned text is empty; one row holding the cleaned text when it has
    fewer than [MIN_DOC_TOKENS_SINGLE_CHUNK] tokens; otherwise one row
    for each chunk the chunker returns, in the chunker's order, which
    with a usable window and step are the decoded token windows at the
    offsets [0, step, 2 * step, ...] below the token count. Every row
    carries the document's [doc_id] and [source_group], and the chunk
    ids count up from 1. The processed documents are all of them unless
    an exception ends the run. *)
Theorem rotation_keeps_every_chunk_once
  (cfg : Legacy.Config) (encoding : Encoding) (read_text : Path -> str)
  (csv : Legacy.Csv) (all_txt_paths : list Path) :
  let rows_of := Legacy.rows_of cfg encoding read_text in
  let out := Legacy.main cfg encoding read_text csv all_txt_paths in
  exists (processed rest : list Path) (blocks : list (list Path)),
    all_txt_paths = processed ++ rest /\
    concat blocks = processed /\
    map Legacy.rows (Legacy.files out) = map (flat_map rows_of) blocks /\
    concat (map Legacy.rows (Legacy.files out)) = flat_map rows_of processed /\
    map Legacy.file_index (Legacy.files out)
    = map Z.of_nat (seq 1 (length (Legacy.files out))) /\
    (Legacy.raised out = None -> rest = []) /\
    (forall path,
       let text := Legacy.clean_text (Some (read_text path)) in
       let tokens := encode encoding text in
       let size := Legacy.CHUNK_SIZE_TOKENS cfg in
       let step := (Legacy.CHUNK_SIZE_TOKENS cfg - Legacy.CHUNK_OVERLAP_TOKENS cfg)%Z in
       exists doc_id,
         derive_ids_from_path path = Ok (doc_id, parent_name path) /\
         Forall (fun row => Legacy.doc_id row = doc_id /\
                            Legacy.source_group row = parent_name path)
           (rows_of path) /\
         map Legacy.chunk_id (rows_of path) =
         map (fun k => doc_id ++ u "_c" ++ format_03d (Z.of_nat k))
             (seq 1 (length (rows_of path))) /\
         (text = [] -> rows_of path = []) /\
         (text <> [] ->
          (len tokens < Legacy.MIN_DOC_TOKENS_SINGLE_CHUNK cfg)%Z ->
          map Legacy.text (rows_of path) = [text]) /\
         (text <> [] ->
          (Legacy.MIN_DOC_TOKENS_SINGLE_CHUNK cfg <= len tokens)%Z ->
          (forall chunks,
             split_into_token_chunks encoding text size
               (Legacy.CHUNK_OVERLAP_TOKENS cfg) = Ok chunks ->
             map Legacy.text (rows_of path) = chunks) /\
          ((0 < size)%Z -> (0 < step)%Z ->
           map Legacy.text (rows_of path)
           = map (fun start => decode encoding (window tokens size start))
               (range 0 (len tokens) step)))).
Proof.
  intros rows_of out.
  assert (Hdoc : forall path,
     let text := Legacy.clean_text (Some (read_text path)) in
     let tokens := encode encoding text in
     let size := Legacy.CHUNK_SIZE_TOKENS cfg in
     let step := (Legacy.CHUNK_SIZE_TOKENS cfg - Legacy.CHUNK_OVERLAP_TOKENS cfg)%Z in
     exists doc_id,
       derive_ids_from_path path = Ok (doc_id, parent_name path) /\
       Forall (fun row => Legacy.doc_id row = doc_id /\
                          Legacy.source_group row = parent_name path)
         (rows_of path) /\
       map Legacy.chunk_id (rows_of path) =
       map (fun k => doc_id ++ u "_c" ++ format_03d (Z.of_nat k))
           (seq 1 (length (rows_of path))) /\
       (text = [] -> rows_of path = []) /\
       (text <> [] ->
        (len tokens < Legacy.MIN_DOC_TOKENS_SINGLE_CHUNK cfg)%Z ->
        map Legacy.text (rows_of path) = [text]) /\
       (text <> [] ->
        (Legacy.MIN_DOC_TOKENS_SINGLE_CHUNK cfg <= len tokens)%Z ->
        (forall chunks,
           split_into_token_chunks encoding text size
             (Legacy.CHUNK_OVERLAP_TOKENS cfg) = Ok chunks ->
           map Legacy.text (rows_of path) = chunks) /\
        ((0 < size)%Z -> (0 < step)%Z ->
         map Legacy.text (rows_of path)
         = map (fun start => decode encoding (window tokens size start))
             (range 0 (len tokens) step)))).
  { intros path text tokens size step.
    destruct (LegacyFacts.derive_ids_ok path) as [d Hd].
    exists d. split; [exact Hd|].
    assert (Hlong : forall chunks,
      text <> [] ->
      (Legacy.MIN_DOC_TOKENS_SINGLE_CHUNK cfg <= len tokens)%Z ->
      split_into_token_chunks encoding text size (Legacy.CHUNK_OVERLAP_TOKENS cfg)
      = Ok chunks ->
      rows_of path = Legacy.chunk_rows d (parent_name path) 1 chunks).
    { intros chunks Hne Hmin Hsplit.
      exact (RowFacts.rows_of_long cfg encoding read_text path d _ chunks
               Hd Hne Hmin Hsplit). }
    split; [exact (RowFacts.rows_of_fields cfg encoding read_text path d _ Hd)|].
    split; [apply (LegacyFacts.rows_of_ordinals cfg encoding read_text path d _ Hd)|].
    split; [exact (RowFacts.rows_of_empty cfg encoding read_text path)|].
    split.
    { intros Hne Hshort. subst rows_of.
      rewrite (RowFacts.rows_of_short cfg encoding read_text path d _ Hd Hne Hshort).
      reflexivity. }
    intros Hne Hmin. split.
    - intros chunks Hsplit. rewrite (Hlong chunks Hne Hmin Hsplit).
      apply RowFacts.chunk_rows_texts.
    - intros Hsize Hstep.
      pose proof (WindowFacts.split_is_windows encoding text size
                    (Legacy.CHUNK_OVERLAP_TOKENS cfg) Hsize Hstep) as Hsplit.
      rewrite (Hlong _ Hne Hmin Hsplit). apply RowFacts.chunk_rows_texts. }
  assert (Hnum : map Legacy.file_index (Legacy.files out)
                 = map Z.of_nat (seq 1 (length (Legacy.files out)))).
  { subst out. unfold Legacy.main. destruct all_txt_paths as [|p ps]; [reflexivity|].
    apply (LegacyFacts.main_loop_numbering cfg encoding read_text csv (p :: ps) []
             1%Z (Legacy.open_new_output_file 1)); reflexivity. }
  destruct (LegacyFacts.first_failure cfg encoding read_text all_txt_paths)
    as [Hall|(pre & p & post & Hsplit & Hpre & Hp)].
  - (* no document raises *)
    destruct (LegacyFacts.main_blocks cfg encoding read_text csv all_txt_paths [] Hall)
      as (closed' & idx' & f' & blocks & Hrun & Hcat & Hrows & Hflat).
    rewrite app_nil_r in Hrun. cbn [Legacy.main_loop] in Hrun.
    destruct all_txt_paths as [|a paths].
    + exists [], [], []. subst out. cbn [Legacy.main Legacy.files Legacy.raised
        app concat map flat_map length seq].
      repeat (split; [reflexivity|]). exact Hdoc.
    + assert (Hout : out = {| Legacy.files := closed' ++ [f']; Legacy.raised := None |})
        by exact Hrun.
      exists (a :: paths), [], blocks.
      rewrite app_nil_r. split; [reflexivity|]. split; [exact Hcat|].
      split; [rewrite Hout; exact Hrows|].
      split; [rewrite Hout; exact Hflat|].
      split; [exact Hnum|].
      split; [reflexivity|exact Hdoc].
  - (* [p] is the first document that raises *)
    destruct (LegacyFacts.main_blocks cfg encoding read_text csv pre (p :: post) Hpre)
      as (closed' & idx' & f' & blocks & Hrun & Hcat & Hrows & Hflat).
    destruct (LegacyFacts.runs_not cfg encoding read_text p f' Hp) as [e He].
    cbn [Legacy.main_loop] in Hrun. rewrite He in Hrun.
    assert (Hout : out = {| Legacy.files := closed' ++ [f']; Legacy.raised := Some e |}).
    { subst out. unfold Legacy.main. rewrite Hsplit.
      destruct (pre ++ p :: post) eqn:E; [destruct pre; discriminate|].
      exact Hrun. }
    exists pre, (p :: post), blocks.
    split; [exact Hsplit|]. split; [exact Hcat|].
    split; [rewrite Hout; exact Hrows|].
    split; [rewrite Hout; exact Hflat|].
    split; [exact Hnum|].
    split; [rewrite Hout; discriminate|exact Hdoc].
Qed.

(** Five documents under small settings: the first container is closed
    after the second document and the second after the fourth, each
    with all the chunks of its documents; the third holds the last
    document. *)
Lemma rotation_over_three_containers :
  Legacy.raised
    (Legacy.main Sample.small_windows Sample.per_char Sample.text_is_stem
       Sample.flat_csv Sample.five_documents) = None /\
  map (fun f => map (fun row => (Legacy.chunk_id row, Legacy.text row)) (Legacy.rows f))
    (Legacy.files
       (Legacy.main Sample.small_windows Sample.per_char Sample.text_is_stem
          Sample.flat_csv Sample.five_documents))
  = [ [ (u "01_c001", u "one_01");
        (u "02_c001", u "abcdefgh"); (u "02_c002", u "ghijklmn");
        (u "02_c003", u "mnopqrst"); (u "02_c004", u "st_02") ];
      [ (u "03_c001", u "two_03");
        (u "04_c001", u "uvwxyzuv"); (u "04_c002", u "uvwxyzuv");
        (u "04_c003", u "uvwxyz_0"); (u "04_c004", u "_04") ];
      [ (u "05_c001", u "end_05") ] ] /\
  concat (map Legacy.rows
            (Legacy.files
               (Legacy.main Sample.small_windows Sample.per_char Sample.text_is_stem
                  Sample.flat_csv Sample.five_documents)))
  = flat_map (Legacy.rows_of Sample.small_windows Sample.per_char Sample.text_is_stem)
      Sample.five_documents.
Proof.
  destruct (rotation_keeps_every_chunk_once Sample.small_windows Sample.per_char
              Sample.text_is_stem Sample.flat_csv Sample.five_documents)
    as (processed & rest & blocks & Hsplit & _ & _ & Hflat & _ & Hrest & _).
  assert (Hok : Legacy.raised
                  (Legacy.main Sample.small_windows Sample.per_char Sample.text_is_stem
                     Sample.flat_csv Sample.five_documents) = None)
    by (vm_compute; reflexivity).
  split; [exact Hok|]. split; [vm_compute; reflexivity|].
  rewrite (Hrest Hok), app_nil_r in Hsplit. rewrite <- Hsplit in Hflat. exact Hflat.
Defined.






(** C8: whatever the input, [None] included, each of the two cleaners
    returns a tidy text: no line feed in it (nor a carriage return), no
    two spaces in a row, and no whitespace character at its start or at
    its end. *)
Theorem cleaned_text_is_tidy (nonascii_decimal : char -> bool) (text : option str) :
  tidy (Legacy.clean_text text) /\
  tidy (Upload.clean_text nonascii_decimal text).
Proof.
  split.
  - apply StrFacts.stripped_tidy.
    + apply LegacyClean.clean_text_stripped.
    + destruct text as [x|]; [|intros []].
      intros H. apply LegacyClean.clean_text_chars in H. tauto.
    + destruct text as [x|]; [|intros []].
      intros H. apply LegacyClean.clean_text_chars in H. tauto.
    + apply LegacyClean.clean_text_squeezed.
  - pose proof (UploadClean.cleaned_spaced nonascii_decimal text) as Hsp.
    apply StrFacts.stripped_tidy.
    + apply UploadClean.cleaned_stripped.
    + intros H.
      pose proof (UploadClean.spaced_whitespace _ LF Hsp H eq_refl) as E.
      discriminate E.
    + intros H.
      pose proof (UploadClean.spaced_whitespace _ CR Hsp H eq_refl) as E.
      discriminate E.
    + apply UploadClean.spaced_no_double_space. exact Hsp.
Qed.

(** C3, the claim as worded, on the upload path: ["page#1of2"] cleans to
    ["page 1of2"] (the junk character becomes a space), which is a page
    marker and cleans to the empty text, whatever the runtime's table of
    decimal digits. *)
Lemma upload_cleaner_is_not_idempotent :
  (forall nonascii_decimal,
     Upload.clean_text nonascii_decimal (Some (u "page#1of2")) = u "page 1of2") /\
  (forall nonascii_decimal,
     Upload.clean_text nonascii_decimal (Some (u "page 1of2")) = []) /\
  u "page 1of2" <> [].
Proof.
  repeat split; try (intros nd; vm_compute; reflexivity). discriminate.
Qed.

(** C3, as amended: the flat-file cleaner is idempotent; the upload
    cleaner gives back a cleaned text unchanged whenever that text holds
    no page marker (cleaning can bring the parts of a marker together,
    and the second cleaning then removes it). *)
Theorem clean_text_idempotent_up_to_page_markers
  (nonascii_decimal : char -> bool) (text : option str) :
  Legacy.clean_text (Some (Legacy.clean_text text)) = Legacy.clean_text text /\
  (Upload.has_page_marker nonascii_decimal (Upload.clean_text nonascii_decimal text) = false ->
   Upload.clean_text nonascii_decimal (Some (Upload.clean_text nonascii_decimal text))
   = Upload.clean_text nonascii_decimal text).
Proof.
  split.
  - apply LegacyClean.clean_text_idempotent.
  - apply UploadClean.cleaned_fixed.
Qed.

(** The specification's example input, cleaned twice. *)
Lemma cleaning_hello_world_twice :
  Upload.clean_text Sample.no_more_digits
    (Some (Upload.clean_text Sample.no_more_digits
             (Some (u "Page 1 of 2" ++ [LF] ++ u "Hello   world." ++ [LF; LF]))))
  = Upload.clean_text Sample.no_more_digits
      (Some (u "Page 1 of 2" ++ [LF] ++ u "Hello   world." ++ [LF; LF])).
Proof.
  apply (proj2 (clean_text_idempotent_up_to_page_markers Sample.no_more_digits
                  (Some (u "Page 1 of 2" ++ [LF] ++ u "Hello   world." ++ [LF; LF])))).
  vm_compute. reflexivity.
Defined.

(** C7, what the code does: the junk removal runs before the quote
    replacements and turns every curly quote into a space, so the
    replacements find nothing. "it", U+2019, "s" cleans to "it s", a text in curly
    double quotes loses them, and no cleaned text holds a straight double
    quote or a curly quote at all. *)
Theorem curly_quotes_become_spaces :
  (forall nonascii_decimal,
     Upload.clean_text nonascii_decimal (Some (u "it" ++ [RSQUO] ++ u "s")) = u "it s") /\
  (forall nonascii_decimal,
     Upload.clean_text nonascii_decimal (Some ([LDQUO] ++ u "hi" ++ [RDQUO])) = u "hi") /\
  (forall nonascii_decimal text,
     let cleaned := Upload.clean_text nonascii_decimal text in
     ~ In QUOTE cleaned /\ ~ In RSQUO cleaned /\ ~ In LDQUO cleaned /\ ~ In RDQUO cleaned).
Proof.
  split; [intros nd; vm_compute; reflexivity|].
  split; [intros nd; vm_compute; reflexivity|].
  intros nd text cleaned.
  assert (H : forall q, Upload.allowed q = false -> ~ In q cleaned).
  { intros q Hq Hin. apply UploadClean.cleaned_allowed in Hin. congruence. }
  repeat split; apply H; reflexivity.
Qed.

(** C2, what the code does: the capture loop appends an entry of
    [batch.failed_objects] only when it has a [properties] attribute that
    is not [None], or else an [object] attribute that is not [None] with
    a non-empty ["properties"]; there is no [else] branch, so an entry of
    any other shape is passed over. Here the remote reports one failure
    for the one object sent, in an entry that has neither attribute: the
    run completes and writes no replay file. In general, a run that has
    connected writes no replay file when every reported entry is of that
    shape, however many failures were reported, and whenever one
    reported entry is of that shape the captured records are fewer than
    the reported failures. *)
Theorem opaque_failure_is_dropped :
  (Upload.failed_objects Sample.opaque_remote
     [ Upload.chunk_object (u "12345") (u "12345_c001") (u "002")
         (u "a short text of five words") ]
   = [ {| Upload.properties := None; Upload.object := None |} ] /\
   Upload.upload_chunks Sample.no_more_digits Upload.shipped Sample.per_char
     (Sample.says "a short text of five words") Sample.opaque_remote
     [Sample.doc "PRE_FIX_12345"]
   = Ok {| Upload.connected := true;
           Upload.progress :=
             {| Upload.uploaded := 1;
                Upload.batch_counter := 0;
                Upload.slept := 0;
                Upload.added :=
                  [ Upload.chunk_object (u "12345") (u "12345_c001") (u "002")
                      (u "a short text of five words") ] |};
           Upload.replay_file := None |}) /\
  (forall (nonascii_decimal : char -> bool) (cfg : Upload.Config) (encoding : Encoding)
          (read_text : Path -> str) (remote : Upload.Remote)
          (all_txt_paths : list Path) (all_objects : list Upload.Props)
          (report : Upload.Report),
     Upload.iter_all_chunk_objects nonascii_decimal cfg encoding read_text all_txt_paths
     = Ok all_objects ->
     Upload.upload_chunks nonascii_decimal cfg encoding read_text remote all_txt_paths
     = Ok report ->
     Upload.connected report = true ->
     (forall fo, In fo (Upload.failed_objects remote all_objects) ->
        Upload.properties fo = None /\ Upload.object fo = None) ->
     Upload.replay_file report = None) /\
  (forall reported : list Upload.FailedObject,
     (exists fo, In fo reported /\
                 Upload.properties fo = None /\ Upload.object fo = None) ->
     (length (flat_map Upload.capture reported) < length reported)%nat).
Proof.
  split; [split; vm_compute; reflexivity|]. split.
  - intros nd cfg encoding read_text remote paths objs report Hiter Hrun Hconn Hopaque.
    unfold Upload.upload_chunks in Hrun. rewrite Hiter in Hrun. cbn [bind] in Hrun.
    destruct (len objs =? 0)%Z.
    { injection Hrun as <-. discriminate Hconn. }
    destruct (Upload.connect_weaviate remote); cbn [bind] in Hrun; [|discriminate].
    injection Hrun as <-. cbn [Upload.replay_file].
    set (start := {| Upload.uploaded := 0; Upload.batch_counter := 0;
                     Upload.slept := 0; Upload.added := [] |}).
    destruct (UploadFacts.upload_loop_adds objs start) as [Hadd _].
    cbn [Upload.added start app] in Hadd. rewrite Hadd.
    assert (Hnone : forall reported,
      (forall fo, In fo reported ->
         Upload.properties fo = None /\ Upload.object fo = None) ->
      flat_map Upload.capture reported = []).
    { induction reported as [|fo rest IH]; intros H; [reflexivity|].
      cbn [flat_map]. rewrite IH by (intros x Hx; apply H; now right).
      destruct (H fo ltac:(now left)) as [Hp Ho].
      unfold Upload.capture. rewrite Hp, Ho. reflexivity. }
    rewrite (Hnone _ Hopaque). reflexivity.
  - assert (Hle : forall reported,
      (length (flat_map Upload.capture reported) <= length reported)%nat).
    { induction reported as [|fo rest IH]; [apply le_n|].
      cbn [flat_map length]. rewrite length_app.
      assert (length (Upload.capture fo) <= 1)%nat.
      { unfold Upload.capture.
        destruct (Upload.properties fo); [apply le_n|].
        destruct (Upload.object fo) as [envelope|]; [|apply Nat.le_0_l].
        destruct (Upload.get_properties envelope) as [props|]; [|apply Nat.le_0_l].
        destruct (Upload.truthy_dict props); [apply le_n|apply Nat.le_0_l]. }
      lia. }
    induction reported as [|fo rest IH]; intros (x & Hin & Hp & Ho); [destruct Hin|].
    cbn [flat_map length]. rewrite length_app.
    destruct Hin as [->|Hin].
    + unfold Upload.capture at 1. rewrite Hp, Ho. cbn [length].
      pose proof (Hle rest). lia.
    + assert (length (flat_map Upload.capture rest) < length rest)%nat
        by (apply IH; exists x; auto).
      assert (length (Upload.capture fo) <= 1)%nat
        by (pose proof (Hle [fo]) as H1; cbn [flat_map length] in H1;
            rewrite app_nil_r in H1; exact H1).
      lia.
Qed.

(* ================================================================== *)
(** * Further properties of the code *)
(* ================================================================== *)

(** X1: the chunks are the decoded windows at the start offsets of the
    loop, and the window at [start] holds [min(chunk_size, n - start)]
    tokens: at least one, at most [chunk_size], and exactly [chunk_size]
    unless it reaches the end of the document. *)
Theorem windows_are_full_until_the_end
  (encoding : Encoding) (text : str) (chunk_size chunk_overlap : Z) :
  (0 < chunk_size)%Z ->
  (0 < chunk_size - chunk_overlap)%Z ->
  let tokens := encode encoding text in
  let starts := range 0 (len tokens) (chunk_size - chunk_overlap) in
  split_into_token_chunks encoding text chunk_size chunk_overlap
  = Ok (map (fun start => decode encoding (window tokens chunk_size start)) starts) /\
  forall start, In start starts ->
    len (window tokens chunk_size start) = Z.min chunk_size (len tokens - start) /\
    (1 <= len (window tokens chunk_size start) <= chunk_size)%Z.
Proof.
  intros Hsize Hstep. cbv zeta. split.
  - apply WindowFacts.split_is_windows; assumption.
  - intros start Hin. apply PyFacts.range_loop_bounds in Hin; [|assumption].
    unfold window. rewrite WindowFacts.slice_length by lia. lia.
Qed.

(** A text of 300 tokens at the shipped settings. *)
Lemma windows_of_300_tokens :
  split_into_token_chunks Sample.per_char (Sample.text_of_tokens 300) 350 70
  = Ok (map (fun start =>
               decode Sample.per_char
                 (window (encode Sample.per_char (Sample.text_of_tokens 300)) 350 start))
          (range 0 (len (encode Sample.per_char (Sample.text_of_tokens 300))) (350 - 70))).
Proof.
  apply (windows_are_full_until_the_end Sample.per_char (Sample.text_of_tokens 300) 350 70);
    lia.
Defined.

(** X2: with [0 <= chunk_overlap < chunk_size], a window that is full
    (it ends at or before the end of the document) shares exactly
    [chunk_overlap] tokens with the next one: its tokens after the first
    [step] are the first [chunk_overlap] tokens of the window one step
    further. *)
Theorem consecutive_windows_share_the_overlap
  (tokens : list token) (chunk_size chunk_overlap k : Z) :
  (0 <= chunk_overlap < chunk_size)%Z ->
  (0 <= k)%Z ->
  let step := (chunk_size - chunk_overlap)%Z in
  (k * step + chunk_size <= len tokens)%Z ->
  skipn (Z.to_nat step) (window tokens chunk_size (k * step))
  = firstn (Z.to_nat chunk_overlap) (window tokens chunk_size ((k + 1) * step)) /\
  len (skipn (Z.to_nat step) (window tokens chunk_size (k * step))) = chunk_overlap.
Proof.
  intros Hcfg Hk step Hfull.
  assert (Hstep : (0 < step)%Z) by (subst step; lia).
  assert (Hks : (0 <= k * step)%Z) by (apply Z.mul_nonneg_nonneg; lia).
  assert (Hnext : ((k + 1) * step = k * step + step)%Z) by lia.
  assert (Hshare :
    skipn (Z.to_nat step) (window tokens chunk_size (k * step))
    = firstn (Z.to_nat chunk_overlap) (skipn (Z.to_nat (k * step + step)) tokens)).
  { unfold window. rewrite WindowFacts.slice_from by lia.
    rewrite Z.min_l by lia. rewrite skipn_firstn_comm, skipn_skipn.
    f_equal; [subst step; lia|]. f_equal. lia. }
  split.
  - rewrite Hshare, Hnext. unfold window.
    rewrite WindowFacts.slice_from by (subst step; lia).
    rewrite firstn_firstn. f_equal. subst step. lia.
  - rewrite Hshare. unfold len in *. rewrite length_firstn, length_skipn.
    subst step. lia.
Qed.

(** The first two windows of 700 tokens at the shipped settings share 70
    tokens. *)
Lemma overlap_of_the_first_two_windows :
  skipn (Z.to_nat (350 - 70))
    (window (encode Sample.per_char (Sample.text_of_tokens 700)) 350 (0 * (350 - 70)))
  = firstn (Z.to_nat 70)
      (window (encode Sample.per_char (Sample.text_of_tokens 700)) 350
         ((0 + 1) * (350 - 70))) /\
  len (skipn (Z.to_nat (350 - 70))
         (window (encode Sample.per_char (Sample.text_of_tokens 700)) 350
            (0 * (350 - 70)))) = 70%Z.
Proof.
  apply (consecutive_windows_share_the_overlap
           (encode Sample.per_char (Sample.text_of_tokens 700)) 350 70 0).
  - lia.
  - lia.
  - vm_compute. discriminate.
Defined.

(** X3: with [0 <= chunk_overlap < chunk_size] the windows hold the whole
    document in order: the first [step] tokens of each window, one window
    after the other, are the token sequence again. *)
Theorem windows_rebuild_the_tokens
  (encoding : Encoding) (text : str) (chunk_size chunk_overlap : Z) :
  (0 <= chunk_overlap < chunk_size)%Z ->
  let tokens := encode encoding text in
  let step := (chunk_size - chunk_overlap)%Z in
  let windows := map (window tokens chunk_size) (range 0 (len tokens) step) in
  split_into_token_chunks encoding text chunk_size chunk_overlap
  = Ok (map (decode encoding) windows) /\
  flat_map (firstn (Z.to_nat step)) windows = tokens.
Proof.
  intros Hcfg. cbv zeta.
  assert (Hstep : (0 < chunk_size - chunk_overlap)%Z) by lia.
  split.
  - rewrite map_map.
    apply (WindowFacts.split_is_windows encoding text chunk_size chunk_overlap); lia.
  - rewrite flat_map_concat_map, map_map, <- flat_map_concat_map.
    transitivity
      (flat_map (fun start => firstn (Z.to_nat (chunk_size - chunk_overlap))
                                (skipn (Z.to_nat start) (encode encoding text)))
         (range 0 (len (encode encoding text)) (chunk_size - chunk_overlap))).
    + assert (H : forall starts,
        (forall s, In s starts -> (0 <= s < len (encode encoding text))%Z) ->
        flat_map (fun s => firstn (Z.to_nat (chunk_size - chunk_overlap))
                             (window (encode encoding text) chunk_size s)) starts
        = flat_map (fun s => firstn (Z.to_nat (chunk_size - chunk_overlap))
                               (skipn (Z.to_nat s) (encode encoding text))) starts).
      { induction starts as [|s starts IH]; intros Hin; [reflexivity|].
        cbn [flat_map].
        rewrite WindowFacts.window_step_prefix by (lia || (apply Hin; now left)).
        rewrite IH by (intros x Hx; apply Hin; now right). reflexivity. }
      apply H. intros s Hin. apply PyFacts.range_loop_bounds in Hin; assumption.
    + unfold range. rewrite WindowFacts.steps_rebuild by lia. reflexivity.
Qed.

(** The windows of 700 tokens at the shipped settings give the tokens
    back. *)
Lemma windows_of_700_tokens_rebuild :
  flat_map (firstn (Z.to_nat (350 - 70)))
    (map (window (encode Sample.per_char (Sample.text_of_tokens 700)) 350)
       (range 0 (len (encode Sample.per_char (Sample.text_of_tokens 700))) (350 - 70)))
  = encode Sample.per_char (Sample.text_of_tokens 700).
Proof.
  apply (windows_rebuild_the_tokens Sample.per_char (Sample.text_of_tokens 700) 350 70).
  lia.
Defined.

(** X4: on both paths the chunk ids of one document are pairwise
    distinct, and the [k]-th of them (counting from 1) is the [doc_id],
    then ["_c"], then at least three decimal digits that read [k]. *)
Theorem chunk_ids_of_a_document_are_distinct
  (lcfg : Legacy.Config) (ucfg : Upload.Config) (encoding : Encoding)
  (read_text : Path -> str) (nonascii_decimal : char -> bool) (path : Path) :
  exists doc_id,
    derive_ids_from_path path = Ok (doc_id, parent_name path) /\
    (forall ids : list str,
       ids = map Legacy.chunk_id (Legacy.rows_of lcfg encoding read_text path) \/
       (exists objs,
          Upload.generate_chunk_objects_from_file nonascii_decimal ucfg encoding
            read_text path = Ok objs /\
          map Some ids = map (dict_get (u "chunk_id")) objs) ->
       NoDup ids /\
       forall k id, nth_error ids k = Some id ->
         exists digits,
           id = doc_id ++ u "_c" ++ digits /\
           int_of_digits digits = N.of_nat (S k) /\
           (3 <= length digits)%nat /\
           Forall (fun d => (48 <= d <= 57)%N) digits).
Proof.
  destruct (LegacyFacts.derive_ids_ok path) as [d Hd].
  exists d. split; [exact Hd|]. intros ids Hids.
  assert (Hshape : exists n,
    ids = map (fun k => d ++ u "_c" ++ format_03d (Z.of_nat k)) (seq 1 n)).
  { destruct Hids as [->|(objs & Hgen & Hmap)].
    - eexists. apply (LegacyFacts.rows_of_ordinals lcfg encoding read_text path d _ Hd).
    - exists (length objs).
      rewrite (IdFacts.objects_ordinals nonascii_decimal ucfg encoding read_text
                 path d _ objs Hd Hgen) in Hmap.
      rewrite <- (map_map (fun k => d ++ u "_c" ++ format_03d (Z.of_nat k)) Some) in Hmap.
      revert Hmap. generalize (map (fun k => d ++ u "_c" ++ format_03d (Z.of_nat k))
                                 (seq 1 (length objs))).
      clear. induction ids as [|a ids IH]; intros [|b l]; cbn [map];
        try discriminate; [reflexivity|].
      intros [= -> H]. f_equal. apply IH. exact H. }
  destruct Hshape as [n ->]. split; [apply IdFacts.ordinal_ids_distinct|].
  intros k id Hk.
  rewrite nth_error_map in Hk.
  destruct (nth_error (seq 1 n) k) as [j|] eqn:Ej; [|discriminate].
  injection Hk as <-.
  assert (Hj : j = S k) by (apply (IdFacts.nth_error_seq _ _ _ _ Ej)).
  subst j. exists (format_03d (Z.of_nat (S k))).
  destruct (DecimalFacts.format_03d_width (Z.of_nat (S k)) ltac:(lia)) as (Hw & _ & Hall).
  split; [reflexivity|]. split; [|split; assumption].
  rewrite DecimalFacts.format_03d_value by lia. lia.
Qed.

(** X5: a run of the uploader that returns has counted every collected
    object, has counted one batch for every full [BATCH_SIZE] objects, and
    has slept [PER_BATCH_SLEEP_SECONDS] after each of these and only
    then: fewer than [BATCH_SIZE] objects are sent without any pause. *)
Theorem uploader_sleeps_once_per_full_batch
  (nonascii_decimal : char -> bool) (cfg : Upload.Config) (encoding : Encoding)
  (read_text : Path -> str) (remote : Upload.Remote)
  (all_txt_paths : list Path) (report : Upload.Report) :
  Upload.upload_chunks nonascii_decimal cfg encoding read_text remote all_txt_paths
  = Ok report ->
  exists all_objects,
    Upload.iter_all_chunk_objects nonascii_decimal cfg encoding read_text all_txt_paths
    = Ok all_objects /\
    let st := Upload.progress report in
    Upload.uploaded st = len all_objects /\
    Upload.batch_counter st = (len all_objects / Upload.BATCH_SIZE)%Z /\
    Upload.slept st = (Upload.PER_BATCH_SLEEP_SECONDS * Upload.batch_counter st)%Z /\
    ((len all_objects < Upload.BATCH_SIZE)%Z -> Upload.slept st = 0%Z).
Proof.
  unfold Upload.upload_chunks.
  destruct (Upload.iter_all_chunk_objects _ _ _ _ _) as [objs|e]; cbn [bind];
    [|discriminate].
  intros Hrun. exists objs. split; [reflexivity|].
  assert (Hlen : (0 <= len objs)%Z) by (unfold len; lia).
  assert (Hsmall : (len objs < Upload.BATCH_SIZE -> len objs / Upload.BATCH_SIZE = 0)%Z)
    by (intros H; apply Z.div_small; lia).
  destruct (len objs =? 0)%Z eqn:E.
  - apply Z.eqb_eq in E. injection Hrun as <-. cbn. rewrite E. cbn. auto.
  - destruct (Upload.connect_weaviate remote); cbn [bind] in Hrun; [|discriminate].
    injection Hrun as <-. cbn [Upload.progress].
    set (start := {| Upload.uploaded := 0; Upload.batch_counter := 0;
                     Upload.slept := 0; Upload.added := [] |}).
    destruct (UploadFacts.upload_loop_adds objs start) as [_ Hu].
    destruct (BatchFacts.upload_loop_counters objs start) as [Hb Hs]; [cbn; lia|].
    cbn [Upload.uploaded Upload.batch_counter Upload.slept start] in Hu, Hb, Hs.
    change (0 / Upload.BATCH_SIZE)%Z with 0%Z in Hb, Hs.
    replace (0 + len objs)%Z with (len objs) in Hb, Hs by lia.
    rewrite Z.sub_0_r in Hb, Hs. cbn [Z.add] in Hb, Hs.
    rewrite Hu, Hb, Hs. repeat split; try reflexivity.
    intros Hlt. rewrite (Hsmall Hlt). reflexivity.
Qed.

(** A run over the sample library, with credentials set. *)
Lemma uploader_pauses_on_the_sample_library :
  exists report,
    Upload.upload_chunks Sample.no_more_digits Upload.shipped Sample.per_char
      Sample.library Sample.picky_remote [Sample.doc "a_1"; Sample.doc "b_2"]
    = Ok report /\
    Upload.slept (Upload.progress report) = 0%Z.
Proof.
  destruct (Upload.upload_chunks Sample.no_more_digits Upload.shipped Sample.per_char
              Sample.library Sample.picky_remote [Sample.doc "a_1"; Sample.doc "b_2"])
    as [report|e] eqn:E; [|vm_compute in E; discriminate E].
  exists report. split; [reflexivity|].
  destruct (uploader_sleeps_once_per_full_batch _ _ _ _ _ _ _ E)
    as (objs & Hobjs & _ & _ & _ & Hsmall).
  apply Hsmall.
  vm_compute in Hobjs. injection Hobjs as <-. vm_compute. reflexivity.
Defined.

(** X6: when every document is empty after cleaning or has fewer than
    [MIN_WORDS_PER_DOC] words, the uploader returns without connecting,
    whatever the connection settings are (unset ones included) and
    whatever the chunking settings are: nothing is sent, no pause is
    made and no replay file is written. *)
Theorem nothing_to_upload_needs_no_connection
  (nonascii_decimal : char -> bool) (cfg : Upload.Config) (encoding : Encoding)
  (read_text : Path -> str) (remote : Upload.Remote) (all_txt_paths : list Path) :
  (forall path, In path all_txt_paths ->
     let text := Upload.clean_text nonascii_decimal (Some (read_text path)) in
     text = [] \/ (len (split_ws text) < Upload.MIN_WORDS_PER_DOC cfg)%Z) ->
  Upload.upload_chunks nonascii_decimal cfg encoding read_text remote all_txt_paths
  = Ok {| Upload.connected := false;
          Upload.progress := {| Upload.uploaded := 0; Upload.batch_counter := 0;
                                Upload.slept := 0; Upload.added := [] |};
          Upload.replay_file := None |}.
Proof.
  intros Hskip. unfold Upload.upload_chunks.
  rewrite (BatchFacts.iter_all_skips nonascii_decimal cfg encoding read_text
             all_txt_paths Hskip).
  reflexivity.
Qed.

(** Two documents of three words and of none, unusable chunking
    settings, no credentials. *)
Lemma three_words_are_not_uploaded :
  Upload.upload_chunks Sample.no_more_digits Sample.overlap_is_size_upload
    Sample.per_char Sample.text_is_stem
    {| Upload.WEAVIATE_URL := None; Upload.WEAVIATE_API_KEY := None;
       Upload.failed_objects := fun _ => [] |}
    [Sample.doc "only three words"; Sample.doc "   "]
  = Ok {| Upload.connected := false;
          Upload.progress := {| Upload.uploaded := 0; Upload.batch_counter := 0;
                                Upload.slept := 0; Upload.added := [] |};
          Upload.replay_file := None |}.
Proof.
  apply nothing_to_upload_needs_no_connection.
  intros path [<-|[<-|[]]]; [right|left]; vm_compute; reflexivity.
Defined.

(** X7: the uploader connects only when it has something to send: a run
    that returns having connected had both connection settings set and
    non-empty, and read a document that is not empty after cleaning and
    has at least [MIN_WORDS_PER_DOC] words; a run that returns without
    having connected has sent nothing and written no replay file. *)
Theorem uploader_connects_only_with_objects
  (nonascii_decimal : char -> bool) (cfg : Upload.Config) (encoding : Encoding)
  (read_text : Path -> str) (remote : Upload.Remote)
  (all_txt_paths : list Path) (report : Upload.Report) :
  Upload.upload_chunks nonascii_decimal cfg encoding read_text remote all_txt_paths
  = Ok report ->
  (Upload.connected report = true ->
   (exists url key, Upload.WEAVIATE_URL remote = Some url /\ url <> [] /\
                    Upload.WEAVIATE_API_KEY remote = Some key /\ key <> []) /\
   exists path,
     In path all_txt_paths /\
     let text := Upload.clean_text nonascii_decimal (Some (read_text path)) in
     text <> [] /\ (Upload.MIN_WORDS_PER_DOC cfg <= len (split_ws text))%Z) /\
  (Upload.connected report = false ->
   Upload.added (Upload.progress report) = [] /\
   Upload.replay_file report = None /\
   Upload.iter_all_chunk_objects nonascii_decimal cfg encoding read_text all_txt_paths
   = Ok []).
Proof.
  unfold Upload.upload_chunks.
  destruct (Upload.iter_all_chunk_objects _ _ _ _ _) as [objs|e] eqn:Eobjs; cbn [bind];
    [|discriminate].
  destruct objs as [|obj objs].
  - cbn. intros [= <-]. split; [discriminate|]. cbn. auto.
  - replace (len (obj :: objs) =? 0)%Z with false
      by (symmetry; apply Z.eqb_neq; unfold len; cbn [length]; lia).
    unfold Upload.connect_weaviate.
    destruct (Upload.unset (Upload.WEAVIATE_URL remote) ||
              Upload.unset (Upload.WEAVIATE_API_KEY remote))%bool eqn:Ecred;
      cbn [bind]; [discriminate|].
    intros [= <-]. cbn [Upload.connected]. split; [intros _|discriminate].
    apply orb_false_iff in Ecred. destruct Ecred as [Eurl Ekey].
    split.
    + destruct (Upload.WEAVIATE_URL remote) as [[|c url]|]; try discriminate Eurl.
      destruct (Upload.WEAVIATE_API_KEY remote) as [[|k key]|]; try discriminate Ekey.
      exists (c :: url), (k :: key). repeat split; discriminate.
    + destruct (BatchFacts.iter_all_yields _ _ _ _ _ _ _ Eobjs) as (p & o & os & Hin & Hp).
      exists p. split; [exact Hin|].
      exact (BatchFacts.generate_yields _ _ _ _ _ _ _ Hp).
Qed.

(** The run over the sample library has connected. *)
Lemma sample_library_run_has_credentials :
  exists url key,
    Upload.WEAVIATE_URL Sample.picky_remote = Some url /\ url <> [] /\
    Upload.WEAVIATE_API_KEY Sample.picky_remote = Some key /\ key <> [].
Proof.
  destruct (Upload.upload_chunks Sample.no_more_digits Upload.shipped Sample.per_char
              Sample.library Sample.picky_remote [Sample.doc "a_1"; Sample.doc "b_2"])
    as [report|e] eqn:E; [|vm_compute in E; discriminate E].
  destruct (uploader_connects_only_with_objects _ _ _ _ _ _ _ E) as [Hconn _].
  apply Hconn.
  vm_compute in E. injection E as <-. reflexivity.
Defined.

(** X8: when the header alone is below [MAX_BYTES], every container but
    the last has reached [MAX_BYTES], and did so with the rows of its
    last document (without them it is below [MAX_BYTES]); the last
    container is below [MAX_BYTES]. So a container overshoots the limit
    by less than one document, and the limit is met by all but the last. *)
Theorem containers_rotate_at_the_first_document_past_the_limit
  (cfg : Legacy.Config) (encoding : Encoding) (read_text : Path -> str)
  (csv : Legacy.Csv) (all_txt_paths : list Path) :
  (Legacy.header_bytes csv < Legacy.MAX_BYTES cfg)%Z ->
  all_txt_paths <> [] ->
  exists rotated last,
    Legacy.files (Legacy.main cfg encoding read_text csv all_txt_paths)
    = rotated ++ [last] /\
    (Legacy.tell csv last < Legacy.MAX_BYTES cfg)%Z /\
    Forall (rotated_out cfg encoding read_text csv) rotated.
Proof.
  intros Hh Hpaths. destruct all_txt_paths as [|p paths]; [contradiction|].
  unfold Legacy.main.
  destruct (RotationFacts.main_loop_thresholds cfg encoding read_text csv (p :: paths)
              [] 1%Z (Legacy.open_new_output_file 1))
    as (closed & f & Hfiles & Hfull & Hlast).
  - constructor.
  - unfold Legacy.tell. cbn. lia.
  - exact Hh.
  - exists closed, f. auto.
Qed.

(** Three documents of six characters each and a limit of 50 bytes: the
    first container is closed after the second document. *)
Lemma rotation_at_fifty_bytes :
  exists rotated last,
    Legacy.files
      (Legacy.main
         {| Legacy.MAX_BYTES := 50; Legacy.CHUNK_SIZE_TOKENS := 350;
            Legacy.CHUNK_OVERLAP_TOKENS := 70;
            Legacy.MIN_DOC_TOKENS_SINGLE_CHUNK := 220 |}
         Sample.per_char Sample.text_is_stem Sample.flat_csv
         [Sample.doc "one_01"; Sample.doc "two_02"; Sample.doc "six_03"])
    = rotated ++ [last] /\
    length rotated = 1%nat /\
    (Legacy.tell Sample.flat_csv last < 50)%Z.
Proof.
  destruct (containers_rotate_at_the_first_document_past_the_limit
              {| Legacy.MAX_BYTES := 50; Legacy.CHUNK_SIZE_TOKENS := 350;
                 Legacy.CHUNK_OVERLAP_TOKENS := 70;
                 Legacy.MIN_DOC_TOKENS_SINGLE_CHUNK := 220 |}
              Sample.per_char Sample.text_is_stem Sample.flat_csv
              [Sample.doc "one_01"; Sample.doc "two_02"; Sample.doc "six_03"])
    as (rotated & last & Hfiles & Hlast & _).
  - cbn. lia.
  - discriminate.
  - exists rotated, last. split; [exact Hfiles|]. split; [|exact Hlast].
    match type of Hfiles with
    | ?l = _ => assert (Hn : length l = 2%nat) by (vm_compute; reflexivity)
    end.
    rewrite Hfiles, length_app in Hn. cbn [length] in Hn. lia.
Defined.

(** X9: the containers of a run have pairwise distinct file names, so
    none is overwritten by a later one; the [k]-th container opened
    (from 1) is named ["chunks_"], then at least three decimal digits
    that read [k], then [".csv"], and the name is 14 characters long up
    to the 999th container. *)
Theorem container_names_are_distinct
  (cfg : Legacy.Config) (encoding : Encoding) (read_text : Path -> str)
  (csv : Legacy.Csv) (all_txt_paths : list Path) :
  let names := map (fun f => filename (Legacy.file_index f))
                 (Legacy.files (Legacy.main cfg encoding read_text csv all_txt_paths)) in
  NoDup names /\
  forall k name, nth_error names k = Some name ->
    exists digits,
      name = u "chunks_" ++ digits ++ u ".csv" /\
      int_of_digits digits = N.of_nat (S k) /\
      Forall (fun d => (48 <= d <= 57)%N) digits /\
      (3 <= length digits)%nat /\
      ((k < 999)%nat -> length name = 14%nat).
Proof.
  intros names.
  assert (Hnum : exists n, names = map (fun k => filename (Z.of_nat k)) (seq 1 n)).
  { unfold names, Legacy.main. destruct all_txt_paths as [|p paths].
    - exists 0%nat. reflexivity.
    - eexists.
      rewrite <- (map_map Legacy.file_index filename).
      rewrite (LegacyFacts.main_loop_numbering cfg encoding read_text csv (p :: paths)
                 [] 1%Z (Legacy.open_new_output_file 1) eq_refl eq_refl eq_refl).
      rewrite map_map. reflexivity. }
  destruct Hnum as [n ->]. split.
  - apply IdFacts.NoDup_map_injective; [|apply seq_NoDup].
    intros x y _ _ E. apply RotationFacts.filename_injective in E; lia.
  - intros k name Hk. rewrite nth_error_map in Hk.
    destruct (nth_error (seq 1 n) k) as [j|] eqn:Ej; [|discriminate].
    injection Hk as <-. apply IdFacts.nth_error_seq in Ej. subst j.
    destruct (DecimalFacts.format_03d_width (Z.of_nat (1 + k)) ltac:(lia))
      as (Hw & Hw3 & Hall).
    exists (format_03d (Z.of_nat (1 + k))).
    split; [reflexivity|]. split; [rewrite DecimalFacts.format_03d_value by lia; lia|].
    split; [exact Hall|]. split; [exact Hw|].
    intros Hk. unfold filename. rewrite !length_app, Hw3 by lia. reflexivity.
Qed.

(** X10: the texts the flat-file cleaner gives back unchanged are exactly
    the tidy ones (no line feed, no carriage return, no two spaces in a
    row, no whitespace at either end). What the upload cleaner returns is
    one of them, so cleaning it with the flat-file cleaner changes
    nothing. *)
Theorem tidy_texts_are_the_fixed_points (nonascii_decimal : char -> bool) :
  (forall y : str, Legacy.clean_text (Some y) = y <-> tidy y) /\
  (forall text,
     Legacy.clean_text (Some (Upload.clean_text nonascii_decimal text))
     = Upload.clean_text nonascii_decimal text).
Proof.
  assert (Hfix : forall y, tidy y -> Legacy.clean_text (Some y) = y).
  { intros y (Hlf & Hcr & Hsq & Hhead & Hlast).
    assert (Hst : strip y = y).
    { unfold strip.
      assert (Hl : lstrip y = y).
      { apply StrFacts.lstrip_fixed. intros c t ->. apply Hhead. reflexivity. }
      rewrite Hl. unfold rstrip.
      rewrite StrFacts.lstrip_fixed; [apply rev_involutive|].
      intros c t E. apply Hlast. unfold last_item. rewrite E. reflexivity. }
    unfold Legacy.clean_text.
    rewrite (StrFacts.replace_absent CR [LF] [LF] y Hcr).
    rewrite (StrFacts.replace_absent CR [] [LF] y Hcr).
    rewrite (StrFacts.joined_lines_fixed y Hlf Hst).
    rewrite (LegacyClean.collapse_loop_fixed _ y Hsq).
    exact Hst. }
  split.
  - intros y. split; [|apply Hfix].
    intros <-. apply StrFacts.stripped_tidy.
    + apply LegacyClean.clean_text_stripped.
    + intros H. apply LegacyClean.clean_text_chars in H. tauto.
    + intros H. apply LegacyClean.clean_text_chars in H. tauto.
    + apply LegacyClean.clean_text_squeezed.
  - intros text. apply Hfix. apply WordFacts.upload_cleaned_tidy.
Qed.

(** X11: the flat-file cleaner only rearranges whitespace. The words of
    the cleaned text ([str.split()]) are the words of the raw text, in
    order; so are the characters that are not whitespace; and the cleaned
    text is empty, so that the document is skipped, exactly when the raw
    text holds nothing but whitespace. *)
Theorem flat_file_cleaner_keeps_the_words (raw : str) :
  split_ws (Legacy.clean_text (Some raw)) = split_ws raw /\
  filter visible (Legacy.clean_text (Some raw)) = filter visible raw /\
  (Legacy.clean_text (Some raw) = [] <-> Forall (fun c => isspace c = true) raw).
Proof.
  pose proof (WordFacts.legacy_words raw) as Hw.
  split; [exact Hw|]. split.
  - pose proof (WordFacts.words_concat (Legacy.clean_text (Some raw)) []) as H1.
    pose proof (WordFacts.words_concat raw []) as H2.
    cbn [rev app] in H1, H2. rewrite <- H1, <- H2.
    unfold split_ws in Hw. rewrite Hw. reflexivity.
  - rewrite <- WordFacts.words_none, <- Hw. split; [intros ->; reflexivity|].
    intros Hnone. apply WordFacts.words_none in Hnone.
    pose proof (LegacyClean.clean_text_stripped (Some raw)) as Hst.
    destruct (Legacy.clean_text (Some raw)) as [|c t] eqn:E; [reflexivity|].
    unfold strip in Hst. destruct (StrFacts.rstrip_keeps_head _ _ _ Hst) as [t' Ht'].
    pose proof (StrFacts.lstrip_head _ _ _ Ht') as Hc.
    inversion Hnone as [|? ? Hc' _]; subst. congruence.
Qed.

(** X12: what the upload cleaner returns is its own words joined by
    single spaces, so the word count that [MIN_WORDS_PER_DOC] is compared
    with is one more than the number of spaces of a non-empty cleaned
    text; and every character of it is an ASCII letter, an ASCII digit,
    one of [.,;:!?'-()/], or a space. *)
Theorem upload_cleaner_joins_words_by_single_spaces
  (nonascii_decimal : char -> bool) (text : option str) :
  let cleaned := Upload.clean_text nonascii_decimal text in
  join [SP] (split_ws cleaned) = cleaned /\
  (cleaned <> [] -> len (split_ws cleaned) = (Z.of_nat (count_occ N.eq_dec cleaned SP) + 1)%Z) /\
  (forall c, In c cleaned ->
     (Upload.ascii_letter c || Upload.ascii_digit c || Upload.allowed_punct c
      || N.eqb c SP)%bool = true).
Proof.
  intros cleaned.
  pose proof (UploadClean.cleaned_spaced nonascii_decimal text) as Hsp.
  destruct (WordFacts.upload_cleaned_tidy nonascii_decimal text)
    as (_ & _ & _ & Hhead & Hlast).
  fold cleaned in Hsp, Hhead, Hlast.
  split; [|split].
  - exact (WordFacts.spaced_join cleaned [] Hsp (or_intror Hhead) Hlast).
  - intros Hne. unfold len, split_ws.
    rewrite (WordFacts.spaced_count cleaned [] Hsp (or_intror Hhead) Hlast).
    destruct cleaned; [contradiction|]. lia.
  - intros c Hin.
    pose proof (UploadClean.cleaned_allowed nonascii_decimal text c Hin) as Hal.
    unfold Upload.allowed in Hal.
    destruct (isspace c) eqn:Ec.
    + rewrite (UploadClean.spaced_whitespace _ c Hsp Hin Ec). reflexivity.
    + destruct (Upload.ascii_letter c), (Upload.ascii_digit c), (Upload.allowed_punct c);
        cbn [orb] in *; try reflexivity; discriminate Hal.
Qed.



(** X14: chunk ids of two documents collide exactly when their [doc_id]s
    do. On either path, two documents whose stems end in different parts
    share no chunk id; two documents with the same [doc_id] (say
    ["001/a_7.txt"] and ["002/b_7.txt"]) that both yield a chunk share
    the id of their first chunk, [doc_id] followed by ["_c001"]. *)
Theorem chunk_ids_collide_exactly_when_doc_ids_do
  (lcfg : Legacy.Config) (ucfg : Upload.Config) (encoding : Encoding)
  (read_text : Path -> str) (nonascii_decimal : char -> bool)
  (p q : Path) (ids_p ids_q : list str) :
  chunk_ids_of lcfg ucfg encoding read_text nonascii_decimal p ids_p ->
  chunk_ids_of lcfg ucfg encoding read_text nonascii_decimal q ids_q ->
  exists doc_p doc_q,
    derive_ids_from_path p = Ok (doc_p, parent_name p) /\
    derive_ids_from_path q = Ok (doc_q, parent_name q) /\
    (doc_p <> doc_q -> forall id, In id ids_p -> ~ In id ids_q) /\
    (doc_p = doc_q -> ids_p <> [] -> ids_q <> [] ->
     hd_error ids_p = Some (doc_p ++ u "_c001") /\
     hd_error ids_q = Some (doc_p ++ u "_c001")).
Proof.
  intros Hp Hq.
  destruct (LegacyFacts.derive_ids_ok p) as [dp Hdp].
  destruct (LegacyFacts.derive_ids_ok q) as [dq Hdq].
  exists dp, dq. split; [exact Hdp|]. split; [exact Hdq|].
  pose proof (IdFacts.chunk_ids_shape _ _ _ _ _ _ _ _ _ Hdp Hp) as Sp.
  pose proof (IdFacts.chunk_ids_shape _ _ _ _ _ _ _ _ _ Hdq Hq) as Sq.
  assert (Hnp : ~ In 95%N dp /\ ~ In 95%N dq).
  { unfold derive_ids_from_path in Hdp, Hdq.
    destruct (last_item (split 95%N (stem p))) as [d1|] eqn:E1; [|discriminate].
    destruct (last_item (split 95%N (stem q))) as [d2|] eqn:E2; [|discriminate].
    injection Hdp as ->. injection Hdq as ->.
    split; [exact (proj1 (ChunkingFacts.last_of_split _ _ _ E1))
           |exact (proj1 (ChunkingFacts.last_of_split _ _ _ E2))]. }
  destruct Hnp as [Hnp Hnq]. split.
  - intros Hne id Hin_p Hin_q. rewrite Sp in Hin_p. rewrite Sq in Hin_q.
    apply in_map_iff in Hin_p. destruct Hin_p as (k & <- & _).
    apply in_map_iff in Hin_q. destruct Hin_q as (j & E & _).
    apply Hne. symmetry.
    exact (IdFacts.cut_at_first_underscore dq dp _ _ Hnq Hnp E).
  - intros <- Hpne Hqne. rewrite Sp, Sq.
    destruct ids_p as [|a ids_p]; [contradiction|].
    destruct ids_q as [|b ids_q]; [contradiction|].
    split; reflexivity.
Qed.

(** Two short documents whose stems both end in ["7"]. *)
Lemma two_documents_numbered_7_collide :
  hd_error (map Legacy.chunk_id
              (Legacy.rows_of Legacy.shipped Sample.per_char Sample.library
                 (Sample.doc "a_7")))
  = hd_error (map Legacy.chunk_id
                (Legacy.rows_of Legacy.shipped Sample.per_char Sample.library
                   (Sample.doc "b_7"))).
Proof.
  destruct (chunk_ids_collide_exactly_when_doc_ids_do
              Legacy.shipped Upload.shipped Sample.per_char Sample.library
              Sample.no_more_digits (Sample.doc "a_7") (Sample.doc "b_7")
              _ _ (or_introl eq_refl) (or_introl eq_refl))
    as (dp & dq & Hdp & Hdq & _ & Hsame).
  vm_compute in Hdp, Hdq. injection Hdp as <-. injection Hdq as <-.
  destruct (Hsame eq_refl) as [Ep Eq]; [vm_compute; discriminate..|].
  rewrite Ep, Eq. reflexivity.
Defined.

(** X15: of their own, the scripts raise two errors and no other. A run
    of the flat-file script ends in an exception only when the overlap is
    not below the chunk size and one of its documents reaches the
    chunker, and the exception is the [ValueError] of the chunker. A run
    of the uploader raises either that same error under the same
    conditions, or the [RuntimeError] of [connect_weaviate] when there
    are objects to send and a connection setting is unset or empty.
    [derive_ids_from_path] never contributes an [IndexError]. *)
Theorem scripts_raise_only_their_two_errors
  (lcfg : Legacy.Config) (ucfg : Upload.Config) (encoding : Encoding)
  (read_text : Path -> str) (csv : Legacy.Csv)
  (nonascii_decimal : char -> bool) (remote : Upload.Remote)
  (all_txt_paths : list Path) (e : Exn) :
  (Legacy.raised (Legacy.main lcfg encoding read_text csv all_txt_paths) = Some e ->
   e = ValueError "chunk_overlap must be smaller than chunk_size" /\
   (Legacy.CHUNK_SIZE_TOKENS lcfg <= Legacy.CHUNK_OVERLAP_TOKENS lcfg)%Z /\
   exists path, In path all_txt_paths /\
                Legacy.reaches_chunker lcfg encoding read_text path = true) /\
  (Upload.upload_chunks nonascii_decimal ucfg encoding read_text remote all_txt_paths
   = Raise e ->
   (e = ValueError "chunk_overlap must be smaller than chunk_size" /\
    (Upload.CHUNK_SIZE_TOKENS ucfg <= Upload.CHUNK_OVERLAP_TOKENS ucfg)%Z /\
    exists path, In path all_txt_paths /\
                 Upload.reaches_chunker nonascii_decimal ucfg encoding read_text path = true)
   \/
   (e = RuntimeError "WEAVIATE_URL and WEAVIATE_API_KEY must be set." /\
    (Upload.unset (Upload.WEAVIATE_URL remote) = true \/
     Upload.unset (Upload.WEAVIATE_API_KEY remote) = true) /\
    exists obj objs,
      Upload.iter_all_chunk_objects nonascii_decimal ucfg encoding read_text all_txt_paths
      = Ok (obj :: objs))).
Proof.
  split.
  - unfold Legacy.main. destruct all_txt_paths as [|p paths]; [discriminate|].
    intros H.
    destruct (ErrorFacts.main_loop_raised lcfg encoding read_text csv _ _ _ _ _ H)
      as (q & w & Hq & Hw).
    destruct (ErrorFacts.process_file_raised lcfg encoding read_text q w e Hw)
      as (Hbad & Hr & ->).
    split; [reflexivity|]. split; [exact Hbad|]. exists q. auto.
  - unfold Upload.upload_chunks.
    destruct (Upload.iter_all_chunk_objects _ _ _ _ _) as [objs|e1] eqn:Eobjs; cbn [bind].
    + destruct objs as [|obj objs]; [discriminate|].
      replace (len (obj :: objs) =? 0)%Z with false
        by (symmetry; apply Z.eqb_neq; unfold len; cbn [length]; lia).
      unfold Upload.connect_weaviate.
      destruct (Upload.unset (Upload.WEAVIATE_URL remote) ||
                Upload.unset (Upload.WEAVIATE_API_KEY remote))%bool eqn:Ecred;
        cbn [bind]; [|discriminate].
      intros [= <-]. right. split; [reflexivity|].
      split; [apply orb_true_iff; exact Ecred|]. exists obj, objs. reflexivity.
    + intros [= <-]. left.
      destruct (ErrorFacts.iter_all_raised nonascii_decimal ucfg encoding read_text _ _ Eobjs)
        as (q & Hq & Hg).
      destruct (ErrorFacts.generate_raised nonascii_decimal ucfg encoding read_text q e1 Hg)
        as (Hbad & Hr & ->).
      split; [reflexivity|]. split; [exact Hbad|]. exists q. auto.
Qed.

(** X16: the token count of a directory tree does not depend on the
    order in which [os.walk] lists directories and files: two listings
    that visit the same files, each as often, give the same total. The
    total is the sum of the token counts of the files that can be read
    and encoded; a file that cannot counts for nothing, silently; and the
    total is never negative. *)
Theorem token_count_ignores_the_listing_order
  (world world' : TokenCount.World) (path : str) :
  TokenCount.read world' = TokenCount.read world ->
  TokenCount.try_encode world' = TokenCount.try_encode world ->
  Permutation (TokenCount.visited world path) (TokenCount.visited world' path) ->
  TokenCount.count_tokens_in_dir world' path = TokenCount.count_tokens_in_dir world path /\
  TokenCount.count_tokens_in_dir world path
  = fold_right Z.add 0%Z
      (map (TokenCount.tokens_of world) (TokenCount.visited world path)) /\
  (0 <= TokenCount.count_tokens_in_dir world path)%Z /\
  (forall full,
     TokenCount.read world full = None \/
     (exists text, TokenCount.read world full = Some text /\
                   TokenCount.try_encode world text = None) ->
     forall total, TokenCount.count_file world total full = total).
Proof.
  intros Hread Henc Hperm.
  rewrite !CountFacts.count_is_sum. split; [|split; [reflexivity|split]].
  - assert (Hsame : TokenCount.tokens_of world' = TokenCount.tokens_of world).
    { unfold TokenCount.tokens_of. rewrite Hread, Henc. reflexivity. }
    rewrite Hsame. apply CountFacts.sum_permutation, Permutation_map, Permutation_sym.
    exact Hperm.
  - apply CountFacts.sum_nonneg. intros x Hx. apply in_map_iff in Hx.
    destruct Hx as (full & <- & _). apply CountFacts.tokens_of_nonneg.
  - intros full Hbad total. unfold TokenCount.count_file.
    destruct Hbad as [->|(text & -> & ->)]; reflexivity.
Qed.

(** The same tree listed top-down and bottom-up. *)
Lemma token_count_of_a_tree_listed_both_ways :
  TokenCount.count_tokens_in_dir tree_bottom_up (u "d")
  = TokenCount.count_tokens_in_dir tree_top_down (u "d").
Proof.
  apply (token_count_ignores_the_listing_order tree_top_down tree_bottom_up (u "d"));
    try reflexivity.
  exact (Permutation_rev (TokenCount.visited tree_top_down (u "d"))).
Defined.

(** X17: in a run that collects its objects and connects (or has
    nothing to upload), every object is handed to the batch, and every
    entry of [batch.failed_objects], as the script reads it, that
    exposes the properties of a chunk (a [properties] attribute that is
    not [None], or else a non-empty [object["properties"]]) is in the
    replay file: the file holds the captured properties one JSON record
    per line, in the order reported, and splitting it at its line feeds
    gives back exactly these records. No file is written when nothing
    was captured, in particular when the reported list is empty. *)
Theorem replay_file_holds_exposed_failures
  (nonascii_decimal : char -> bool) (cfg : Upload.Config) (encoding : Encoding)
  (read_text : Path -> str) (remote : Upload.Remote)
  (all_txt_paths : list Path) (all_objects : list Upload.Props) :
  Upload.iter_all_chunk_objects nonascii_decimal cfg encoding read_text all_txt_paths
  = Ok all_objects ->
  all_objects = [] \/ Upload.connect_weaviate remote = Ok tt ->
  exists report,
    Upload.upload_chunks nonascii_decimal cfg encoding read_text remote all_txt_paths
    = Ok report /\
    (all_objects = [] -> Upload.replay_file report = None) /\
    (all_objects <> [] ->
     let reported := Upload.failed_objects remote all_objects in
     let captured := flat_map Upload.capture reported in
     Upload.added (Upload.progress report) = all_objects /\
     Upload.uploaded (Upload.progress report) = len all_objects /\
     (forall fo props,
        In fo reported ->
        Upload.properties fo = Some props \/
        (Upload.properties fo = None /\
         exists envelope item rest,
           Upload.object fo = Some envelope /\
           Upload.get_properties envelope = Some props /\ props = item :: rest) ->
        In props captured) /\
     (captured = [] -> Upload.replay_file report = None) /\
     (reported = [] -> Upload.replay_file report = None) /\
     (captured <> [] ->
      exists content,
        Upload.replay_file report = Some content /\
        content = flat_map (fun obj => Json.dumps obj ++ [LF]) captured /\
        split LF content = map Json.dumps captured ++ [[]] /\
        forall props, In props captured -> In (Json.dumps props) (split LF content))).
Proof.
  intros Hiter Hconn. unfold Upload.upload_chunks. rewrite Hiter. cbn [bind].
  destruct all_objects as [|obj objs].
  - eexists. split; [reflexivity|]. split; [reflexivity|]. intros H. contradiction.
  - destruct Hconn as [Hnil|Hconn]; [discriminate|].
    rewrite Hconn.
    replace (len (obj :: objs) =? 0)%Z with false
      by (symmetry; apply Z.eqb_neq; unfold len; cbn [length]; lia).
    cbn [bind].
    set (start := {| Upload.uploaded := 0; Upload.batch_counter := 0;
                     Upload.slept := 0; Upload.added := [] |}).
    destruct (UploadFacts.upload_loop_adds (obj :: objs) start) as [Hadd Hup].
    cbn [Upload.added Upload.uploaded start app] in Hadd, Hup.
    rewrite Hadd.
    eexists. split; [reflexivity|]. split; [discriminate|]. intros _.
    cbn [Upload.progress Upload.replay_file].
    set (reported := Upload.failed_objects remote (obj :: objs)).
    set (captured := flat_map Upload.capture reported).
    cbv zeta.
    split; [exact Hadd|]. split; [rewrite Hup; lia|].
    split.
    { intros fo props Hin Hshape. apply in_flat_map. exists fo. split; [exact Hin|].
      unfold Upload.capture.
      destruct Hshape as [->|(-> & envelope & item & rest & -> & -> & ->)];
        cbn [Upload.truthy_dict]; left; reflexivity. }
    split; [intros ->; reflexivity|].
    split; [intros E; subst captured; rewrite E; reflexivity|].
    intros Hne. destruct captured as [|p ps] eqn:Ecap; [contradiction|].
    eexists. split; [reflexivity|]. split; [reflexivity|].
    assert (Hsplit : split LF (flat_map Upload.replay_line (p :: ps))
                     = map Json.dumps (p :: ps) ++ [[]]).
    { unfold Upload.replay_line.
      rewrite <- (StrFacts.split_lines (map Json.dumps (p :: ps))).
      - f_equal. rewrite !flat_map_concat_map, map_map. reflexivity.
      - intros l Hl. apply in_map_iff in Hl. destruct Hl as (o & <- & _).
        apply JsonFacts.dumps_one_line. }
    split; [exact Hsplit|].
    intros props Hin. rewrite Hsplit.
    apply in_or_app. left. apply in_map. exact Hin.
Qed.

(** Three objects sent, the last one reported as failed with its
    properties: the replay file is that one record and a line feed. *)
Lemma replay_file_of_a_picky_remote :
  exists report,
    Upload.upload_chunks Sample.no_more_digits Upload.shipped Sample.per_char
      Sample.library Sample.picky_remote
      [Sample.doc "PRE_1"; Sample.doc "LONG_2"] = Ok report /\
    Upload.replay_file report
    = Some (Json.dumps (Upload.chunk_object (u "2") (u "2_c002") (u "002")
                          (u "word word word word"))
            ++ [LF]).
Proof.
  destruct (replay_file_holds_exposed_failures Sample.no_more_digits Upload.shipped
              Sample.per_char Sample.library Sample.picky_remote
              [Sample.doc "PRE_1"; Sample.doc "LONG_2"]
              [ Upload.chunk_object (u "1") (u "1_c001") (u "002")
                  (u "a short text of five words");
                Upload.chunk_object (u "2") (u "2_c001") (u "002")
                  (strip (concat (repeat (u "word ") 60)));
                Upload.chunk_object (u "2") (u "2_c002") (u "002")
                  (u "word word word word") ]
              ltac:(vm_compute; reflexivity)
              ltac:(right; vm_compute; reflexivity))
    as (report & Hrun & _ & Hrest).
  exists report. split; [exact Hrun|].
  destruct (Hrest ltac:(discriminate)) as (_ & _ & _ & _ & _ & Hfile).
  destruct Hfile as (content & -> & -> & _); [vm_compute; discriminate|].
  vm_compute. reflexivity.
Defined.
